(** * connctd/sdk-go: framing engine, dispatch loop and device model

    A shallow embedding of [client.go] and of the device model (the
    Thing / Component / Capability / Property / Action tree) together with
    the properties the specification states about them.

    Conventions.
    - A Go [uint64] is an [N] with its wrap-around written out where the
      source can overflow; a [byte] is [Byte.byte].
    - [bytes.Buffer] is the list of its unread bytes.
    - Go pointers into the caller-built device tree are addresses into
      stores ([gmap positive _]); dereferencing an address that holds no
      object is the nil dereference and panics.
    - Methods that touch the client or the tree run in a state monad with
      a panic outcome. *)

From Stdlib Require Import NArith ZArith Lia.
From Stdlib.Strings Require Import Byte Ascii String.
From stdpp Require Import base option list strings gmap.

Local Open Scope N_scope.

(** ** Bytes *)

(** [byte(x)]: conversion of an unsigned integer to a byte keeps the low
    eight bits. *)
Definition byte_of_N (x : N) : byte :=
  match Byte.of_N (x mod 256) with
  | Some b => b
  | None => x00
  end.

(** ** encoding/binary and bytes.Buffer (Go standard library) *)

Module binary.

Definition MaxVarintLen64 : nat := 10.

Definition uint64 (x : N) : N := x mod 2 ^ 64.

(** Errors a byte reader or the varint decoder can return. *)
Inductive error := EOF | ErrUnexpectedEOF | errOverflow.

#[global] Instance error_eq_dec : EqDecision error.
Proof. solve_decision. Defined.

(** [PutUvarint(buf, x)]:
<<
  i := 0
  for x >= 0x80 { buf[i] = byte(x) | 0x80; x >>= 7; i++ }
  buf[i] = byte(x)
  return i + 1
>>
    The recursion follows the part of [buf] from index [i] on; writing to
    an index past the end of the slice panics ([None]). The result is the
    buffer from index [i] on after the writes and the number of bytes
    written. *)
Fixpoint PutUvarint (buf : list byte) (x : N) : option (list byte * nat) :=
  match buf with
  | [] => None
  | _ :: rest =>
      if 128 <=? x then
        match PutUvarint rest (N.shiftr x 7) with
        | Some (rest', n) => Some (byte_of_N (N.lor (x mod 256) 128) :: rest', S n)
        | None => None
        end
      else Some (byte_of_N x :: rest, 1%nat)
  end.

End binary.

Module bytes.

(** A [bytes.Buffer], seen as its unread bytes. [Write] appends, [Reset]
    empties, [Bytes] returns the unread bytes. *)
Definition Buffer := list byte.

Definition Write (b : Buffer) (p : list byte) : Buffer := b ++ p.

Definition Reset (b : Buffer) : Buffer := [].

Definition Bytes (b : Buffer) : list byte := b.

(** [ReadByte] consumes the next unread byte; on an empty buffer it
    returns [io.EOF]. *)
Definition ReadByte (b : Buffer) : (byte + binary.error) * Buffer :=
  match b with
  | [] => (inr binary.EOF, [])
  | c :: r => (inl c, r)
  end.

End bytes.

Module binary_read.

Import binary.

(** [binary.ReadUvarint(r)] on a [bytes.Buffer]:
<<
  var x uint64; var s uint
  for i := 0; i < MaxVarintLen64; i++ {
    b, err := r.ReadByte()
    if err != nil {
      if i > 0 && err == io.EOF { err = io.ErrUnexpectedEOF }
      return x, err
    }
    if b < 0x80 {
      if i == MaxVarintLen64-1 && b > 1 { return x, errOverflow }
      return x | uint64(b)<<s, nil
    }
    x |= uint64(b&0x7f) << s
    s += 7
  }
  return x, errOverflow
>>
    [left] is the number of iterations still allowed, [MaxVarintLen64 - i].
    Every byte read is consumed from the buffer, also when the call ends
    in an error. *)
Fixpoint ReadUvarint_loop (left i : nat) (x s : N) (r : bytes.Buffer)
  : (N * option error) * bytes.Buffer :=
  match left with
  | O => ((x, Some errOverflow), r)
  | S left' =>
      match bytes.ReadByte r with
      | (inr err, r') =>
          ((x, Some (if bool_decide (0 < i)%nat && bool_decide (err = EOF)
                     then ErrUnexpectedEOF else err)), r')
      | (inl b, r') =>
          if Byte.to_N b <? 128 then
            if bool_decide (i = 9%nat) && (1 <? Byte.to_N b)
            then ((x, Some errOverflow), r')
            else ((N.lor x (uint64 (N.shiftl (Byte.to_N b) s)), None), r')
          else
            ReadUvarint_loop left' (S i)
              (N.lor x (uint64 (N.shiftl (N.land (Byte.to_N b) 127) s)))
              (s + 7) r'
      end
  end.

Definition ReadUvarint (r : bytes.Buffer) : (N * option error) * bytes.Buffer :=
  ReadUvarint_loop MaxVarintLen64 0 0 0 r.

End binary_read.

(** ** The connection as a byte stream delivered in chunks *)

Module net.

(** What the peer sends, cut into the pieces successive [Read] calls can
    return: a [Read] never crosses a chunk boundary, an empty chunk is a
    [Read] that returns zero bytes, and when no chunk is left [Read]
    fails (the peer closed the connection). *)
Definition Conn := list (list byte).

(** [conn.Read(buf)] with [len(buf) = n]: [None] is an error, [Some p]
    the bytes stored into [buf]. *)
Definition Read (n : nat) (c : Conn) : option (list byte) * Conn :=
  match c with
  | [] => (None, [])
  | ch :: rest =>
      (Some (take n ch),
       match drop n ch with
       | [] => rest
       | ch' => ch' :: rest
       end)
  end.

(** Bytes and chunk boundaries left: every [Read] of at least one byte
    makes this smaller. *)
Fixpoint size (c : Conn) : nat :=
  match c with
  | [] => O
  | ch :: rest => S (length ch + size rest)
  end.

(** The stream delivered one byte per [Read]. *)
Definition bytewise (s : list byte) : Conn := map (λ b, [b]) s.

End net.

(** ** Framing engine: the receive loop ([Client.read]) *)

Section Framing.

(** The structured-message codec is an external collaborator; the receive
    loop only decodes and forwards, so it is stated for any message type
    [Msg] and any decoder [Unmarshal] ([proto.Unmarshal] into a fresh
    message; [None] is a decoding error). *)
Context {Msg : Type}.
Variable Unmarshal : list byte → option Msg.

(** The inner loop of [read]:
<<
  for receivedBytesTotal < expectedLength {
    remainingBytes := expectedLength - receivedBytesTotal
    dataBuf := make([]byte, remainingBytes, remainingBytes)
    readBytes, err = c.conn.Read(dataBuf)
    if err != nil { break }
    messageBuf.Write(dataBuf[:readBytes])
    receivedBytesTotal = receivedBytesTotal + uint64(readBytes)
  }
>>
    The result is the connection and [messageBuf] after the loop; [None]
    only when [fuel] runs out. *)
Fixpoint readPayload (fuel : nat) (conn : net.Conn) (messageBuf : bytes.Buffer)
    (receivedBytesTotal expectedLength : N) : option (net.Conn * bytes.Buffer) :=
  if receivedBytesTotal <? expectedLength then
    match fuel with
    | O => None
    | S fuel' =>
        let remainingBytes := expectedLength - receivedBytesTotal in
        match net.Read (N.to_nat remainingBytes) conn with
        | (None, conn') => Some (conn', messageBuf)
        | (Some data, conn') =>
            readPayload fuel' conn' (bytes.Write messageBuf data)
              (receivedBytesTotal + N.of_nat (length data)) expectedLength
        end
    end
  else Some (conn, messageBuf).

(** The outer loop of [read]. [messageBuf] and [lengthBuf] are allocated
    once, before the loop, and live across iterations; [queue] is what
    has been sent on [receiveChan] so far.
<<
  for {
    lengthBytes := make([]byte, 1, 1)
    readBytes, err := c.conn.Read(lengthBytes)
    if err != nil { break }
    if readBytes == 0 { continue }
    lengthBuf.Write(lengthBytes[:readBytes])
    expectedLength, err := binary.ReadUvarint(lengthBuf)
    if err != nil { continue }
    lengthBuf.Reset()
    ... inner loop ...
    serverMessage := protocol.ServerMessage{}
    err = proto.Unmarshal(messageBuf.Bytes(), &serverMessage)
    if err != nil { continue }
    messageBuf.Reset()
    c.receiveChan <- serverMessage
  }
>> *)
Fixpoint readLoop (fuel : nat) (conn : net.Conn) (messageBuf lengthBuf : bytes.Buffer)
    (queue : list Msg) : option (list Msg) :=
  match fuel with
  | O => None
  | S fuel' =>
      match net.Read 1 conn with
      | (None, _) => Some queue
      | (Some lengthBytes, conn1) =>
          if bool_decide (length lengthBytes = 0%nat)
          then readLoop fuel' conn1 messageBuf lengthBuf queue
          else
            match binary_read.ReadUvarint (bytes.Write lengthBuf lengthBytes) with
            | ((_, Some _), lengthBuf1) =>
                readLoop fuel' conn1 messageBuf lengthBuf1 queue
            | ((expectedLength, None), lengthBuf1) =>
                match readPayload fuel' conn1 messageBuf 0 expectedLength with
                | None => None
                | Some (conn2, messageBuf1) =>
                    match Unmarshal (bytes.Bytes messageBuf1) with
                    | None =>
                        readLoop fuel' conn2 messageBuf1 (bytes.Reset lengthBuf1) queue
                    | Some serverMessage =>
                        readLoop fuel' conn2 (bytes.Reset messageBuf1)
                          (bytes.Reset lengthBuf1) (queue ++ [serverMessage])
                    end
                end
            end
      end
  end.

(** [read] from fresh buffers. Every iteration consumes a byte or a chunk
    boundary, so [S (net.size conn)] iterations are enough
    ([readLoop_total] below); the result is the sequence of messages sent
    on [receiveChan] until the connection fails. After the loop the source
    closes the connection, clears [connected] and calls [OnDisconnect]. *)
Definition read (conn : net.Conn) : list Msg :=
  default [] (readLoop (S (net.size conn)) conn [] [] []).

End Framing.

(** ** Framing engine: the length prefix of [Client.send] *)

(** Lines 191-193 of [send] for a payload of [n] bytes:
<<
  lenBytes := make([]byte, 4)
  lenLength := binary.PutUvarint(lenBytes, uint64(len(data)))
  ... c.writer.Write(lenBytes[:lenLength])
>>
    [None] when [PutUvarint] indexes past the four bytes. *)
Definition lenPrefix (n : N) : option (list byte) :=
  match binary.PutUvarint (replicate 4 x00) (binary.uint64 n) with
  | Some (lenBytes, lenLength) => Some (take lenLength lenBytes)
  | None => None
  end.

(** What [send] puts on the wire for the encoded message [data]. *)
Definition frame (data : list byte) : option (list byte) :=
  match lenPrefix (N.of_nat (length data)) with
  | Some p => Some (p ++ data)
  | None => None
  end.

(** ** Wire messages (package [protocol]) *)

Module protocol.

(** Modelled from the spec: the generated message types of package
    [protocol] are not among the sources. The records below have the
    fields that [client.go] and the device model read or set; optional
    fields of the schema are Go pointers, here [option]. The getters
    ([GetPath], [GetThingId], ...) are the generated nil-safe ones: the
    zero value when the field or the receiver is absent. *)

Inductive ValueType := ValueType_BOOLEAN | ValueType_STRING | ValueType_NUMBER.

Record Value := {
  Value_Value : option string;
  Value_ValueType : option ValueType;
  Value_Symbol : option string }.

Record Path := {
  Path_ThingId : option string;
  Path_ComponentId : option string;
  Path_Property : option string;
  Path_Action : option string }.

Record Property := {
  Property_Value : option Value;
  Property_Name : option string }.

Record Action_Parameter := {
  Action_Parameter_ValueType : option ValueType;
  Action_Parameter_Name : option string }.

Record Action := {
  Action_Parameters : list Action_Parameter;
  Action_Name : option string }.

Record Capability := {
  Capability_Actions : list Action;
  Capability_Properties : list Property;
  Capability_Id : option string }.

Record Component := {
  Component_Name : option string;
  Component_Id : option string;
  Component_Capabilities : list Capability;
  Component_Properties : list Property;
  Component_Actions : list Action;
  Component_ComponentType : option string }.

Record Thing_Attribute := {
  Thing_Attribute_Name : option string;
  Thing_Attribute_Value : option string }.

Record Thing := {
  Thing_Id : option string;
  Thing_Name : option string;
  Thing_Manufacturer : option string;
  Thing_DisplayType : option string;
  Thing_MaincomponentId : option string;
  Thing_Attributes : list Thing_Attribute;
  Thing_Components : list Component }.

Inductive ClientMessage_ExecutionResult_Status :=
  | ClientMessage_ExecutionResult_SUCCESS
  | ClientMessage_ExecutionResult_FAILURE.

Record ClientMessage_ClientHello := {
  ClientHello_UnitId : option string;
  ClientHello_Token : option string;
  ClientHello_ProtocolVersion : option N }.

Record ClientMessage_RequestThingsResponse := {
  RequestThingsResponse_UpdateLock : option N;
  RequestThingsResponse_Things : list Thing }.

Record ClientMessage_PropertyChange := {
  PropertyChange_Path : option Path;
  PropertyChange_Value : option Value }.

Record ClientMessage_ExecutionResult := {
  ExecutionResult_ErrorReason : option string;
  ExecutionResult_Result : option ClientMessage_ExecutionResult_Status;
  ExecutionResult_Sequence : option N }.

Record ClientMessage := {
  ClientMessage_Hello : option ClientMessage_ClientHello;
  ClientMessage_RequestThingsResponse_ : option ClientMessage_RequestThingsResponse;
  ClientMessage_PropertyChange_ : option ClientMessage_PropertyChange;
  ClientMessage_ExecutionResult_ : option ClientMessage_ExecutionResult }.

(** An argument of an execute-action message: [Value *string], nil
    ([None]) when the field is not set. [Parameters] is a slice of
    pointers to arguments, each of which can be nil. *)
Record ServerMessage_Execute_Parameter := {
  Parameter_Value : option string }.

Record ServerMessage_Execute := {
  Execute_Path : option Path;
  Execute_Parameters : list (option ServerMessage_Execute_Parameter);
  Execute_Sequence : option N }.

Record ServerMessage := {
  ServerMessage_RequestThings : option unit;
  ServerMessage_Action : option ServerMessage_Execute }.

Definition GetRequestThings (m : ServerMessage) : option unit :=
  ServerMessage_RequestThings m.

Definition GetAction (m : ServerMessage) : option ServerMessage_Execute :=
  ServerMessage_Action m.

Definition GetPath (m : ServerMessage_Execute) : option Path := Execute_Path m.

Definition GetParameters (m : ServerMessage_Execute)
  : list (option ServerMessage_Execute_Parameter) := Execute_Parameters m.

Definition GetThingId (p : option Path) : string :=
  default EmptyString (p ≫= Path_ThingId).

Definition GetComponentId (p : option Path) : string :=
  default EmptyString (p ≫= Path_ComponentId).

Definition GetActionName (p : option Path) : string :=
  default EmptyString (p ≫= Path_Action).

(** A message with only the given variant set. *)
Definition clientMessage_PropertyChange (pc : ClientMessage_PropertyChange)
  : ClientMessage :=
  {| ClientMessage_Hello := None;
     ClientMessage_RequestThingsResponse_ := None;
     ClientMessage_PropertyChange_ := Some pc;
     ClientMessage_ExecutionResult_ := None |}.

Definition clientMessage_ExecutionResult (r : ClientMessage_ExecutionResult)
  : ClientMessage :=
  {| ClientMessage_Hello := None;
     ClientMessage_RequestThingsResponse_ := None;
     ClientMessage_PropertyChange_ := None;
     ClientMessage_ExecutionResult_ := Some r |}.

Definition clientMessage_RequestThingsResponse
    (r : ClientMessage_RequestThingsResponse) : ClientMessage :=
  {| ClientMessage_Hello := None;
     ClientMessage_RequestThingsResponse_ := Some r;
     ClientMessage_PropertyChange_ := None;
     ClientMessage_ExecutionResult_ := None |}.

End protocol.

(** ** Device model: the data *)

(** A Go pointer to an object of the device tree or to a client: an
    address into the store of its type. *)
Definition ptr := positive.

(** A Go [error], by its message. *)
Definition error := string.

Inductive ValueType := Boolean | String_ | Number.

Definition ValueTypeStrings (v : ValueType) : string :=
  match v with
  | Boolean => "BOOLEAN"
  | String_ => "STRING"
  | Number => "NUMBER"
  end.

(** [Property.Value] is a [*Value], [ActionParameter.Type] a
    [*ValueType] and [Thing.Attributes] a slice of [*Attribute] in the
    source. Nothing in the package writes through these pointers, so
    their targets are held in place. *)
Record Value := {
  Value_Type : ValueType;
  Value_Symbol : string;
  Value_Value : string }.

Record Property := {
  Property_Value : Value;
  Property_Name : string;
  Property_client : option ptr;
  Property_parent : option ptr }.

Record ActionParameter := {
  ActionParameter_Type : ValueType;
  ActionParameter_Name : string }.

(** [Execute func(action Action, params []string) error]: a func value
    is a reference to code written by the user of the package. A
    [Handler] is the address of that code; what the code does is given
    by the table [code] of the operations below. The field is nil
    ([None]) when no handler has been set, as after loading a
    description from YAML ([yaml:"-"]). *)
Definition Handler : Type := positive.

Record Action := {
  Action_Name : string;
  Action_Parameters : list ActionParameter;
  Action_Execute : option Handler;
  Action_parent : option ptr }.

Record Capability := {
  Capability_Id : string;
  Capability_Actions : list ptr;
  Capability_Properties : list ptr;
  Capability_parent : option ptr }.

Record Component := {
  Component_Id : string;
  Component_Name : string;
  Component_ComponentType : string;
  Component_Capabilities : list ptr;
  Component_Properties : list ptr;
  Component_Actions : list ptr;
  Component_parent : option ptr }.

Record Attribute := {
  Attribute_Name : string;
  Attribute_Value : string }.

Record Thing := {
  Thing_Components : list ptr;
  Thing_Id : string;
  Thing_Name : string;
  Thing_Manufacturer : string;
  Thing_DisplayType : string;
  Thing_MaincomponentId : string;
  Thing_Attributes : list Attribute;
  Thing_ComponentType : string }.

(** The fields of [Client] the modelled methods use. [writer] is nil
    ([None]) until [Connect]; once set it holds the bytes written to the
    connection so far. The transport accepts every write. *)
Record Client := {
  Client_writer : option (list byte);
  Client_things : list ptr;
  Client_updateCounter : N;
  Client_connected : bool }.

(** [NewClient]. *)
Definition NewClient : Client :=
  {| Client_writer := None;
     Client_things := [];
     Client_updateCounter := 0;
     Client_connected := false |}.

(** The memory the package works on, and the trace of handler
    invocations: which action was run with which arguments. *)
Record World := {
  clients : gmap positive Client;
  things : gmap positive Thing;
  components : gmap positive Component;
  capabilities : gmap positive Capability;
  properties : gmap positive Property;
  actions : gmap positive Action;
  invocations : list (ptr * list string) }.

(** The bytes client [c] has written to its connection. *)
Definition wire (c : ptr) (w : World) : option (list byte) :=
  clients w !! c ≫= Client_writer.

(** The Things registered with client [c]. *)
Definition registered_things (c : ptr) (w : World) : option (list ptr) :=
  Client_things <$> clients w !! c.

(** ** A state monad with panics *)

Inductive outcome (A : Type) : Type :=
  | Ret (a : A)
  | Panic.
Arguments Ret {A} a.
Arguments Panic {A}.

Definition M (A : Type) : Type := World → outcome A * World.

#[global] Instance M_ret : MRet M := λ A a w, (Ret a, w).

#[global] Instance M_bind : MBind M := λ A B f m w,
  match m w with
  | (Ret a, w') => f a w'
  | (Panic, w') => (Panic, w')
  end.

Definition panic {A} : M A := λ w, (Panic, w).

(** Reading through a pointer: a nil pointer, or an address that holds
    no object, panics. *)
Definition load {A} (store : World → gmap positive A) (p : ptr) : M A :=
  λ w, match store w !! p with
       | Some a => (Ret a, w)
       | None => (Panic, w)
       end.

Definition load_opt {A} (store : World → gmap positive A) (p : option ptr) : M A :=
  match p with
  | Some a => load store a
  | None => panic
  end.

Definition set_clients (f : gmap positive Client → gmap positive Client) (w : World) : World :=
  {| clients := f (clients w); things := things w; components := components w;
     capabilities := capabilities w; properties := properties w;
     actions := actions w; invocations := invocations w |}.

Definition set_components (f : gmap positive Component → gmap positive Component)
    (w : World) : World :=
  {| clients := clients w; things := things w; components := f (components w);
     capabilities := capabilities w; properties := properties w;
     actions := actions w; invocations := invocations w |}.

Definition set_capabilities (f : gmap positive Capability → gmap positive Capability)
    (w : World) : World :=
  {| clients := clients w; things := things w; components := components w;
     capabilities := f (capabilities w); properties := properties w;
     actions := actions w; invocations := invocations w |}.

Definition set_properties (f : gmap positive Property → gmap positive Property)
    (w : World) : World :=
  {| clients := clients w; things := things w; components := components w;
     capabilities := capabilities w; properties := f (properties w);
     actions := actions w; invocations := invocations w |}.

Definition set_invocations (f : list (ptr * list string) → list (ptr * list string))
    (w : World) : World :=
  {| clients := clients w; things := things w; components := components w;
     capabilities := capabilities w; properties := properties w;
     actions := actions w; invocations := f (invocations w) |}.

(** Writing a field through a pointer: [upd] rebuilds the object with the
    field changed; a nil pointer panics. *)
Definition modify {A} (store : World → gmap positive A)
    (set : (gmap positive A → gmap positive A) → World → World)
    (p : ptr) (upd : A → A) : M unit :=
  λ w, match store w !! p with
       | Some a => (Ret (), set (λ s, <[p := upd a]> s) w)
       | None => (Panic, w)
       end.

(** [for _, x := range l { body }] where [body] may return from the
    enclosing function: [Some b] is the value returned, [None] means the
    loop ran to its end. *)
Fixpoint range {A B} (l : list A) (body : A → M (option B)) : M (option B) :=
  match l with
  | [] => mret None
  | x :: rest =>
      r ← body x;
      match r with
      | Some b => mret (Some b)
      | None => range rest body
      end
  end.

(** [for _, x := range l { body }] with a body that never leaves the loop. *)
Fixpoint range_ {A} (l : list A) (body : A → M unit) : M unit :=
  match l with
  | [] => mret ()
  | x :: rest => body x;; range_ rest body
  end.

(** as [range], for the common shape "return the error if there is one,
    otherwise go on". *)
Definition or_else {B} (m : M (option B)) (k : M (option B)) : M (option B) :=
  r ← m;
  match r with
  | Some b => mret (Some b)
  | None => k
  end.

(** [for _, x := range l { out = append(out, f(x)) }]. *)
Fixpoint collect {A B} (l : list A) (f : A → M B) : M (list B) :=
  match l with
  | [] => mret []
  | x :: rest => y ← f x; ys ← collect rest f; mret (y :: ys)
  end.

(** ** Name validation *)

(** [validNameRegexp = regexp.MustCompile("^[A-Za-z0-9]+$")]: one or more
    characters, each an ASCII letter or digit, and nothing else. *)
Definition alnum (a : ascii) : bool :=
  let n := N_of_ascii a in
  ((48 <=? n) && (n <=? 57)) || ((65 <=? n) && (n <=? 90))
  || ((97 <=? n) && (n <=? 122)).

Fixpoint all_alnum (s : string) : bool :=
  match s with
  | EmptyString => true
  | String a rest => alnum a && all_alnum rest
  end.

Definition validNameRegexp_MatchString (s : string) : bool :=
  match s with
  | EmptyString => false
  | _ => all_alnum s
  end.

(** ** The client and the device model: operations *)

Section Operations.

(** [proto.Marshal] on client messages: the encoded bytes or an error. *)
Variable Marshal : protocol.ClientMessage → error + list byte.

(** The code behind the func values stored in [Action.Execute]: what
    the handler at an address does when called with a copy of the
    action and the argument values. It is code of the user of the
    package: it can read and write the whole memory of the program,
    call the client, return an error or panic. *)
Variable code : Handler → Action → list string → M (option error).

(** The writes of [send], seen on the connection. *)
Definition set_Client_writer (out : list byte) (cl : Client) : Client :=
  {| Client_writer := Some out;
     Client_things := Client_things cl;
     Client_updateCounter := Client_updateCounter cl;
     Client_connected := Client_connected cl |}.

(** [Client.send]. The receiver is first dereferenced at [c.writer],
    after the message is encoded and the prefix written into [lenBytes].
    The transport accepts every write in full, so the two error returns
    after [Write] and the short-write check never fire; the bytes are on
    the connection after [Flush].
<<
  data, err := proto.Marshal(msg)
  if err != nil { return err }
  lenBytes := make([]byte, 4)
  lenLength := binary.PutUvarint(lenBytes, uint64(len(data)))
  _, err = c.writer.Write(lenBytes[:lenLength])
  if err != nil { return err }
  n, err := c.writer.Write(data)
  if err != nil { return err }
  if n != len(data) { return fmt.Errorf(...) }
  return c.writer.Flush()
>> *)
Definition send (c : option ptr) (msg : protocol.ClientMessage) : M (option error) :=
  match Marshal msg with
  | inl err => mret (Some err)
  | inr data =>
      match lenPrefix (N.of_nat (length data)) with
      | None => panic
      | Some lenBytes =>
          cl ← load_opt clients c;
          match c, Client_writer cl with
          | Some a, Some out =>
              modify clients set_clients a (set_Client_writer (out ++ lenBytes ++ data));;
              mret None
          | _, _ => panic
          end
      end
  end.

(** [Client.validateThing]. *)
Definition validateThing (c t : ptr) : M (option error) :=
  cl ← load clients c;
  or_else
    (range (Client_things cl) (λ thing,
       th ← load things thing;
       t' ← load things t;
       if decide (Thing_Id th = Thing_Id t')
       then mret (Some ("The thing with the Id " +:+ Thing_Id t' +:+ " already exists"))
       else mret None))
    (t' ← load things t;
     range (Thing_Components t') (λ component,
       comp ← load components component;
       or_else
         (range (Component_Properties comp) (λ property,
            p ← load properties property;
            if negb (validNameRegexp_MatchString (Property_Name p))
            then mret (Some (Property_Name p +:+ " is an invalid name for a property"))
            else mret None))
      (or_else
         (range (Component_Actions comp) (λ action,
            a ← load actions action;
            if negb (validNameRegexp_MatchString (Action_Name a))
            then mret (Some (Action_Name a +:+ " is an invalid name for an action"))
            else mret None))
         (range (Component_Capabilities comp) (λ capability,
            cap ← load capabilities capability;
            or_else
              (range (Capability_Properties cap) (λ property,
                 p ← load properties property;
                 if negb (validNameRegexp_MatchString (Property_Name p))
                 then mret (Some (Property_Name p +:+ " is an invalid name for a property"))
                 else mret None))
              (range (Capability_Actions cap) (λ action,
                 a ← load actions action;
                 if negb (validNameRegexp_MatchString (Action_Name a))
                 then mret (Some (Action_Name a +:+ " is an invalid name for an action"))
                 else mret None))))))).

(** The field writes of [abstract]. *)
Definition set_Component_parent (t : ptr) (o : Component) : Component :=
  {| Component_Id := Component_Id o; Component_Name := Component_Name o;
     Component_ComponentType := Component_ComponentType o;
     Component_Capabilities := Component_Capabilities o;
     Component_Properties := Component_Properties o;
     Component_Actions := Component_Actions o;
     Component_parent := Some t |}.

Definition set_Capability_parent (component : ptr) (o : Capability) : Capability :=
  {| Capability_Id := Capability_Id o; Capability_Actions := Capability_Actions o;
     Capability_Properties := Capability_Properties o;
     Capability_parent := Some component |}.

Definition set_Property_client (c : ptr) (o : Property) : Property :=
  {| Property_Value := Property_Value o; Property_Name := Property_Name o;
     Property_client := Some c; Property_parent := Property_parent o |}.

Definition set_Property_parent (capability : ptr) (o : Property) : Property :=
  {| Property_Value := Property_Value o; Property_Name := Property_Name o;
     Property_client := Property_client o; Property_parent := Some capability |}.

Definition append_things (t : ptr) (cl : Client) : Client :=
  {| Client_writer := Client_writer cl;
     Client_things := Client_things cl ++ [t];
     Client_updateCounter := Client_updateCounter cl;
     Client_connected := Client_connected cl |}.

(** [Client.abstract]:
<<
  if err := c.validateThing(t); err != nil { return err }
  for _, component := range t.Components {
    component.parent = t
    for _, property := range component.Properties { property.client = c }
    for _, capability := range component.Capabilities {
      for _, property := range capability.Properties {
        property.client = c
        property.parent = capability
      }
      capability.parent = component
    }
  }
  c.things = append(c.things, t)
  return nil
>> *)
Definition abstract (c t : ptr) : M (option error) :=
  or_else (validateThing c t)
    (t' ← load things t;
     range_ (Thing_Components t') (λ component,
       modify components set_components component (set_Component_parent t);;
       comp ← load components component;
       range_ (Component_Properties comp) (λ property,
         modify properties set_properties property (set_Property_client c));;
       range_ (Component_Capabilities comp) (λ capability,
         cap ← load capabilities capability;
         range_ (Capability_Properties cap) (λ property,
           modify properties set_properties property (set_Property_client c);;
           modify properties set_properties property (set_Property_parent capability));;
         modify capabilities set_capabilities capability
           (set_Capability_parent component)));;
     modify clients set_clients c (append_things t);;
     mret None).

(** [Client.Abstract(things ...*Thing)]. *)
Definition Abstract (c : ptr) (ts : list ptr) : M (option error) :=
  range ts (λ thing, abstract c thing).

(** The loop of [RemoveThing], with its loop variable [i]:
<<
  var thing *Thing
  var i int
  for i, thing = range c.things {
    if thing.Id == t.Id { break }
  }
>>
    [idx] is the index of the head of [l] in [c.things] and [i] the value
    the variable holds before the iteration; each iteration first assigns
    [i = idx]. The result is the value of [i] after the loop. *)
Fixpoint RemoveThing_loop (t : ptr) (l : list ptr) (idx i : nat) : M nat :=
  match l with
  | [] => mret i
  | thing :: rest =>
      th ← load things thing;
      t' ← load things t;
      if decide (Thing_Id th = Thing_Id t')
      then mret idx
      else RemoveThing_loop t rest (S idx) idx
  end.

Definition remove_index (i : nat) (cl : Client) : Client :=
  {| Client_writer := Client_writer cl;
     Client_things := take i (Client_things cl) ++ drop (S i) (Client_things cl);
     Client_updateCounter := Client_updateCounter cl;
     Client_connected := Client_connected cl |}.

(** [Client.RemoveThing]:
<<
  ... the loop above ...
  if i >= len(c.things) {
    return fmt.Errorf("Thing with Id %s not found", t.Id)
  }
  c.things = append(c.things[:i], c.things[i+1:]...)
  return nil
>> *)
Definition RemoveThing (c t : ptr) : M (option error) :=
  cl ← load clients c;
  i ← RemoveThing_loop t (Client_things cl) 0 0;
  if bool_decide (length (Client_things cl) ≤ i)%nat
  then
    t' ← load things t;
    mret (Some ("Thing with Id " +:+ Thing_Id t' +:+ " not found"))
  else
    modify clients set_clients c (remove_index i);;
    mret None.

(** [Client.getThing]: the first registered Thing with the identifier. *)
Definition getThing (c : ptr) (thingId : string) : M (option ptr) :=
  cl ← load clients c;
  range (Client_things cl) (λ thing,
    th ← load things thing;
    if decide (thingId = Thing_Id th) then mret (Some thing) else mret None).

(** [Thing.GetComponent]. *)
Definition Thing_GetComponent (t : ptr) (componentId : string) : M (option ptr) :=
  t' ← load things t;
  range (Thing_Components t') (λ component,
    comp ← load components component;
    if decide (componentId = Component_Id comp) then mret (Some component) else mret None).

(** [Component.GetAction]:
<<
  for _, capability := range c.Capabilities {
    for _, action := range capability.Actions {
      if action.Name == actionName { return action }
    }
  }
  return nil
>> *)
Definition Component_GetAction (c : ptr) (actionName : string) : M (option ptr) :=
  comp ← load components c;
  range (Component_Capabilities comp) (λ capability,
    cap ← load capabilities capability;
    range (Capability_Actions cap) (λ action,
      a ← load actions action;
      if decide (Action_Name a = actionName) then mret (Some action) else mret None)).

(** [Client.incrementupdateCounter]. *)
Definition incrementupdateCounter (c : ptr) : M N :=
  modify clients set_clients c (λ cl,
    {| Client_writer := Client_writer cl;
       Client_things := Client_things cl;
       Client_updateCounter := binary.uint64 (Client_updateCounter cl + 1);
       Client_connected := Client_connected cl |});;
  cl ← load clients c;
  mret (Client_updateCounter cl).

(** Modelled from the spec: [protocol.ValueType_value], the generated map
    from the names of the wire enumeration to its values, is not among
    the sources; it is taken to hold the three names of
    [ValueTypeStrings]. [protocolValueTypeFromValueType] looks up
    [strings.ToUpper(v.String())] in it. *)
Definition protocolValueTypeFromValueType (v : ValueType) : protocol.ValueType :=
  match v with
  | Boolean => protocol.ValueType_BOOLEAN
  | String_ => protocol.ValueType_STRING
  | Number => protocol.ValueType_NUMBER
  end.

(** The [Protocol()] conversions of the device model. *)
Definition Value_Protocol (v : Value) : protocol.Value :=
  {| protocol.Value_ValueType := Some (protocolValueTypeFromValueType (Value_Type v));
     protocol.Value_Symbol := Some (Value_Symbol v);
     protocol.Value_Value := Some (Value_Value v) |}.

Definition Property_Protocol (p : ptr) : M protocol.Property :=
  prop ← load properties p;
  mret {| protocol.Property_Value := Some (Value_Protocol (Property_Value prop));
          protocol.Property_Name := Some (Property_Name prop) |}.

Definition ActionParameter_Protocol (a : ActionParameter) : protocol.Action_Parameter :=
  {| protocol.Action_Parameter_ValueType :=
       Some (protocolValueTypeFromValueType (ActionParameter_Type a));
     protocol.Action_Parameter_Name := Some (ActionParameter_Name a) |}.

Definition Action_Protocol (a : ptr) : M protocol.Action :=
  act ← load actions a;
  mret {| protocol.Action_Parameters := map ActionParameter_Protocol (Action_Parameters act);
          protocol.Action_Name := Some (Action_Name act) |}.

Definition Capability_Protocol (c : ptr) : M protocol.Capability :=
  cap ← load capabilities c;
  acts ← collect (Capability_Actions cap) Action_Protocol;
  props ← collect (Capability_Properties cap) Property_Protocol;
  mret {| protocol.Capability_Actions := acts;
          protocol.Capability_Properties := props;
          protocol.Capability_Id := Some (Capability_Id cap) |}.

Definition Component_Protocol (c : ptr) : M protocol.Component :=
  comp ← load components c;
  caps ← collect (Component_Capabilities comp) Capability_Protocol;
  props ← collect (Component_Properties comp) Property_Protocol;
  acts ← collect (Component_Actions comp) Action_Protocol;
  mret {| protocol.Component_Name := Some (Component_Name comp);
          protocol.Component_Id := Some (Component_Id comp);
          protocol.Component_Capabilities := caps;
          protocol.Component_Properties := props;
          protocol.Component_Actions := acts;
          protocol.Component_ComponentType := Some (Component_ComponentType comp) |}.

Definition Attribute_Protocol (a : Attribute) : protocol.Thing_Attribute :=
  {| protocol.Thing_Attribute_Name := Some (Attribute_Name a);
     protocol.Thing_Attribute_Value := Some (Attribute_Value a) |}.

Definition Thing_Protocol (t : ptr) : M protocol.Thing :=
  t' ← load things t;
  comps ← collect (Thing_Components t') Component_Protocol;
  mret {| protocol.Thing_Id := Some (Thing_Id t');
          protocol.Thing_Name := Some (Thing_Name t');
          protocol.Thing_Manufacturer := Some (Thing_Manufacturer t');
          protocol.Thing_DisplayType := Some (Thing_DisplayType t');
          protocol.Thing_MaincomponentId := Some (Thing_MaincomponentId t');
          protocol.Thing_Attributes := map Attribute_Protocol (Thing_Attributes t');
          protocol.Thing_Components := comps |}.

(** [Client.sendThings]. *)
Definition sendThings (c : ptr) : M (option error) :=
  cl ← load clients c;
  ts ← collect (Client_things cl) Thing_Protocol;
  counter ← incrementupdateCounter c;
  send (Some c) (protocol.clientMessage_RequestThingsResponse
    {| protocol.RequestThingsResponse_UpdateLock := Some counter;
       protocol.RequestThingsResponse_Things := ts |}).

(** The trace after a call of the handler of [action] on [params] that
    started in [w] and left the memory as in [w']. The trace is kept
    beside the program, which cannot write it: it is the trace before
    the call with this invocation appended. *)
Definition record_invocation (action : ptr) (params : list string) (w w' : World) : World :=
  set_invocations (λ _, invocations w ++ [(action, params)]) w'.

(** The call of [action.Execute] on [*action] and [params]. Calling a
    nil func value panics, and no handler runs. Otherwise the code of
    the handler runs once, on a copy of the action and on the argument
    values, with whatever effects it has; when it panics, so does the
    call. *)
Definition invoke (action : ptr) (params : list string) : M (option error) :=
  a ← load actions action;
  match Action_Execute a return M (option error) with
  | None => panic
  | Some h =>
      λ w, let '(r, w') := code h a params w in
           (r, record_invocation action params w w')
  end.

(** [*param.Value] for an argument of an execute-action message: both
    [param] and [param.Value] are pointers, dereferenced without a nil
    check. *)
Definition Parameter_deref (param : option protocol.ServerMessage_Execute_Parameter)
  : M string :=
  match param with
  | Some p =>
      match protocol.Parameter_Value p with
      | Some v => mret v
      | None => panic
      end
  | None => panic
  end.

(** [Client.handleAction]. *)
Definition handleAction (c : ptr) (msg : protocol.ServerMessage_Execute) : M unit :=
  thing ← getThing c (protocol.GetThingId (protocol.GetPath msg));
  match thing with
  | None => mret ()
  | Some thing =>
      component ← Thing_GetComponent thing (protocol.GetComponentId (protocol.GetPath msg));
      match component with
      | None => mret ()
      | Some component =>
          action ← Component_GetAction component (protocol.GetActionName (protocol.GetPath msg));
          match action with
          | None => mret ()
          | Some action =>
              params ← collect (protocol.GetParameters msg) Parameter_deref;
              err ← invoke action params;
              let '(status, errorMsg) :=
                match err with
                | None => (protocol.ClientMessage_ExecutionResult_SUCCESS, EmptyString)
                | Some e => (protocol.ClientMessage_ExecutionResult_FAILURE, e)
                end in
              send (Some c) (protocol.clientMessage_ExecutionResult
                {| protocol.ExecutionResult_ErrorReason := Some errorMsg;
                   protocol.ExecutionResult_Result := Some status;
                   protocol.ExecutionResult_Sequence := protocol.Execute_Sequence msg |});;
              mret ()
          end
      end
  end.

(** [Client.handleServerMessages], over the messages received on
    [receiveChan]:
<<
  for msg := range c.receiveChan {
    if msg.GetRequestThings() != nil { c.sendThings() }
    if msg.GetAction() != nil { c.handleAction(msg.GetAction()) }
  }
>> *)
Definition handleServerMessages (c : ptr) (receiveChan : list protocol.ServerMessage)
  : M unit :=
  range_ receiveChan (λ msg,
    match protocol.GetRequestThings msg with
    | Some _ => sendThings c;; mret ()
    | None => mret ()
    end;;
    match protocol.GetAction msg with
    | Some a => handleAction c a
    | None => mret ()
    end).

(** [Property.Update]:
<<
  if p.Value.Value != newValue {
    path := &protocol.Path{
      Property:    &p.Name,
      ComponentId: &p.parent.parent.Id,
      ThingId:     &p.parent.parent.parent.Id,
    }
    value := &protocol.Value{
      Value:     &newValue,
      ValueType: protocolValueTypeFromValueType(p.Value.Type),
      Symbol:    &p.Value.Symbol,
    }
    propertyChange := &protocol.ClientMessage_PropertyChange{Path: path, Value: value}
    cm := &protocol.ClientMessage{PropertyChange: propertyChange}
    p.client.send(cm)
  }
  return nil
>> *)
Definition Property_Update (p : ptr) (newValue : string) : M (option error) :=
  prop ← load properties p;
  if decide (Value_Value (Property_Value prop) ≠ newValue)
  then
    cap ← load_opt capabilities (Property_parent prop);
    comp ← load_opt components (Capability_parent cap);
    th ← load_opt things (Component_parent comp);
    let path :=
      {| protocol.Path_Property := Some (Property_Name prop);
         protocol.Path_ComponentId := Some (Component_Id comp);
         protocol.Path_ThingId := Some (Thing_Id th);
         protocol.Path_Action := None |} in
    let value :=
      {| protocol.Value_Value := Some newValue;
         protocol.Value_ValueType :=
           Some (protocolValueTypeFromValueType (Value_Type (Property_Value prop)));
         protocol.Value_Symbol := Some (Value_Symbol (Property_Value prop)) |} in
    let propertyChange :=
      {| protocol.PropertyChange_Path := Some path;
         protocol.PropertyChange_Value := Some value |} in
    send (Property_client prop) (protocol.clientMessage_PropertyChange propertyChange);;
    mret None
  else mret None.

End Operations.

(** ** Predicates used in the statements *)

(** The caller's assignment [p.Value.Value = v] to a Property. *)
Definition set_Property_value (v : string) (o : Property) : Property :=
  {| Property_Value :=
       {| Value_Type := Value_Type (Property_Value o);
          Value_Symbol := Value_Symbol (Property_Value o);
          Value_Value := v |};
     Property_Name := Property_Name o;
     Property_client := Property_client o;
     Property_parent := Property_parent o |}.

(** The property-change message [Property.Update] builds for the new
    value, from the Property and the Component and Thing its
    back-references lead to. *)
Definition propertyChange_message (prop : Property) (comp : Component) (th : Thing)
    (newValue : string) : protocol.ClientMessage :=
  protocol.clientMessage_PropertyChange
    {| protocol.PropertyChange_Path :=
         Some {| protocol.Path_Property := Some (Property_Name prop);
                 protocol.Path_ComponentId := Some (Component_Id comp);
                 protocol.Path_ThingId := Some (Thing_Id th);
                 protocol.Path_Action := None |};
       protocol.PropertyChange_Value :=
         Some {| protocol.Value_Value := Some newValue;
                 protocol.Value_ValueType :=
                   Some (protocolValueTypeFromValueType (Value_Type (Property_Value prop)));
                 protocol.Value_Symbol := Some (Value_Symbol (Property_Value prop)) |} |}.

(** The execution-result message [handleAction] builds from the result
    of the handler and the sequence number of the request. *)
Definition executionResult_message (err : option error) (sequence : option N)
  : protocol.ClientMessage :=
  protocol.clientMessage_ExecutionResult
    {| protocol.ExecutionResult_ErrorReason :=
         Some (match err with None => EmptyString | Some e => e end);
       protocol.ExecutionResult_Result :=
         Some (match err with
               | None => protocol.ClientMessage_ExecutionResult_SUCCESS
               | Some _ => protocol.ClientMessage_ExecutionResult_FAILURE
               end);
       protocol.ExecutionResult_Sequence := sequence |}.

(** [readonly m]: running [m] never changes the world, whatever its
    outcome. *)
Definition readonly {A} (m : M A) : Prop := ∀ w, (m w).2 = w.

(** The device tree is the same in both worlds: every Thing, Component,
    Capability, Property and Action, with all its fields. *)
Definition same_tree (w w' : World) : Prop :=
  things w' = things w ∧ components w' = components w
  ∧ capabilities w' = capabilities w ∧ properties w' = properties w
  ∧ actions w' = actions w.

(** The Capability, Component and Thing the back-references of a
    Property lead to: what [Property.Update] follows to build the path. *)
Definition Property_path (p : ptr) (w : World) : option (ptr * ptr * ptr) :=
  prop ← properties w !! p;
  capability ← Property_parent prop;
  cap ← capabilities w !! capability;
  component ← Capability_parent cap;
  comp ← components w !! component;
  thing ← Component_parent comp;
  _ ← things w !! thing;
  Some (capability, component, thing).

(** ** Registration as a sequence of back-reference writes

    The vocabulary of the proof that [abstract] wires the tree. The tree
    may share objects between parents, so what a write establishes is
    stated in a form later writes cannot undo. *)

(** The objects with their back-references cleared: what registration
    never changes. *)
Definition erase_Component (o : Component) : Component :=
  {| Component_Id := Component_Id o; Component_Name := Component_Name o;
     Component_ComponentType := Component_ComponentType o;
     Component_Capabilities := Component_Capabilities o;
     Component_Properties := Component_Properties o;
     Component_Actions := Component_Actions o;
     Component_parent := None |}.

Definition erase_Capability (o : Capability) : Capability :=
  {| Capability_Id := Capability_Id o; Capability_Actions := Capability_Actions o;
     Capability_Properties := Capability_Properties o;
     Capability_parent := None |}.

Definition erase_Property (o : Property) : Property :=
  {| Property_Value := Property_Value o; Property_Name := Property_Name o;
     Property_client := None; Property_parent := None |}.

(** Same objects at the same addresses, up to back-references. *)
Definition same_skeleton (w w' : World) : Prop :=
  clients w' = clients w ∧ things w' = things w ∧ actions w' = actions w
  ∧ invocations w' = invocations w
  ∧ erase_Component <$> components w' = erase_Component <$> components w
  ∧ erase_Capability <$> capabilities w' = erase_Capability <$> capabilities w
  ∧ erase_Property <$> properties w' = erase_Property <$> properties w.

Section Wiring.

(** Registration of Thing [t], whose Components are [comps], with client
    [c], started in world [w0]. *)
Variables (c t : ptr) (w0 : World) (comps : list ptr).

(** Component [component] holds Capability [x]; Capability [capability]
    holds Property [x]; Component [component] holds Property [x]
    directly. *)
Definition holds_cap (component x : ptr) : Prop :=
  ∃ co, components w0 !! component = Some co ∧ x ∈ Component_Capabilities co.

Definition holds_prop (capability x : ptr) : Prop :=
  ∃ k0, capabilities w0 !! capability = Some k0 ∧ x ∈ Capability_Properties k0.

Definition holds_direct (component x : ptr) : Prop :=
  ∃ co, components w0 !! component = Some co ∧ x ∈ Component_Properties co.

(** Component [x] points to the Thing. *)
Definition wired_Component (w : World) (x : ptr) : Prop :=
  ∃ o, components w !! x = Some o ∧ Component_parent o = Some t.

(** Capability [x] points to a Component of the Thing that holds it. *)
Definition wired_Capability (w : World) (x : ptr) : Prop :=
  ∃ o component,
    capabilities w !! x = Some o ∧ Capability_parent o = Some component
    ∧ component ∈ comps ∧ holds_cap component x.

(** Property [x] points to the client. *)
Definition wired_client (w : World) (x : ptr) : Prop :=
  ∃ o, properties w !! x = Some o ∧ Property_client o = Some c.

(** Property [x] points to a Capability that holds it, itself held by a
    Component of the Thing. *)
Definition wired_Property (w : World) (x : ptr) : Prop :=
  ∃ o capability component,
    properties w !! x = Some o ∧ Property_parent o = Some capability
    ∧ holds_prop capability x ∧ component ∈ comps ∧ holds_cap component capability.

(** [w'] comes from [w] by writes of back-references that keep what is
    wired wired. *)
Definition wiring (w w' : World) : Prop :=
  same_skeleton w w'
  ∧ (∀ x, wired_Component w x → wired_Component w' x)
  ∧ (∀ x, wired_Capability w x → wired_Capability w' x)
  ∧ (∀ x, wired_client w x → wired_client w' x)
  ∧ (∀ x, wired_Property w x → wired_Property w' x).

(** A predicate on worlds that writes of back-references preserve. *)
Definition stable (P : World → Prop) : Prop := ∀ w w', wiring w w' → P w → P w'.

End Wiring.

(** ** Sample codecs and a sample device tree

    Concrete inputs for the examples below: a codec for the receive
    loop, an encoder for client messages, and a small world built the
    way a caller builds it (no back-reference set). *)

Module sample.

(** A message is a byte string, encoded behind the tag byte [0x0a];
    bytes that do not start with the tag do not decode. *)
Definition Marshal (m : list byte) : list byte := x0a :: m.

Definition Unmarshal (data : list byte) : option (list byte) :=
  match data with
  | x0a :: m => Some m
  | _ => None
  end.

Definition bytes_of_string (s : string) : list byte :=
  map byte_of_ascii (list_ascii_of_string s).

(** An encoder for the two client messages the examples send. *)
Definition MarshalClient (m : protocol.ClientMessage) : error + list byte :=
  inr
    match protocol.ClientMessage_ExecutionResult_ m, protocol.ClientMessage_PropertyChange_ m with
    | Some r, _ =>
        x22
        :: match protocol.ExecutionResult_Result r with
           | Some protocol.ClientMessage_ExecutionResult_SUCCESS => x00
           | _ => x01
           end
        :: byte_of_N (default 0 (protocol.ExecutionResult_Sequence r))
        :: bytes_of_string (default EmptyString (protocol.ExecutionResult_ErrorReason r))
    | None, Some pc =>
        x1a :: bytes_of_string
                 (default EmptyString (protocol.PropertyChange_Value pc ≫= protocol.Value_Value))
    | None, None => []
    end.

Definition value (v : string) : Value :=
  {| Value_Type := String_; Value_Symbol := EmptyString; Value_Value := v |}.

Definition property (name v : string) : Property :=
  {| Property_Value := value v; Property_Name := name;
     Property_client := None; Property_parent := None |}.

(** Three handlers: [turnOn] stores "on" in the Property "state"
    (property 1) and returns nil, [explode] returns the error "boom",
    [reset] returns nil. No code is behind any other address. *)
Definition turnOn : Handler := 1%positive.
Definition explode : Handler := 2%positive.
Definition reset : Handler := 3%positive.

Definition code (h : Handler) (a : Action) (params : list string) : M (option error) :=
  if decide (h = turnOn) then
    modify properties set_properties 1%positive (set_Property_value "on");;
    mret None
  else if decide (h = explode) then mret (Some "boom")
  else if decide (h = reset) then mret None
  else panic.

Definition action (name : string) (Execute : option Handler) : Action :=
  {| Action_Name := name; Action_Parameters := [];
     Action_Execute := Execute; Action_parent := None |}.

Definition thing (id : string) (comps : list ptr) : Thing :=
  {| Thing_Components := comps; Thing_Id := id; Thing_Name := id;
     Thing_Manufacturer := EmptyString; Thing_DisplayType := EmptyString;
     Thing_MaincomponentId := EmptyString; Thing_Attributes := [];
     Thing_ComponentType := EmptyString |}.

(** Client 1 is connected. Thing 1 ("lamp") has component 1 ("main"),
    which holds capability 1 ("switch", with property 1 "state" and
    actions 1 "turnOn" and 3 "explode"), the direct property 2 ("level")
    and the direct action 2 ("reset"). Thing 2 has the identifier of
    thing 1; thing 3 ("plug") has a property with an invalid name;
    thing 4 ("fan") has no component. *)
Definition world : World :=
  {| clients :=
       {[ 1%positive := {| Client_writer := Some []; Client_things := [];
                           Client_updateCounter := 0; Client_connected := true |} ]};
     things :=
       {[ 1%positive := thing "lamp" [1%positive];
          2%positive := thing "lamp" [];
          3%positive := thing "plug" [2%positive];
          4%positive := thing "fan" [] ]};
     components :=
       {[ 1%positive :=
            {| Component_Id := "main"; Component_Name := "main";
               Component_ComponentType := EmptyString;
               Component_Capabilities := [1%positive];
               Component_Properties := [2%positive];
               Component_Actions := [2%positive];
               Component_parent := None |};
          2%positive :=
            {| Component_Id := "socket"; Component_Name := "socket";
               Component_ComponentType := EmptyString;
               Component_Capabilities := [];
               Component_Properties := [3%positive];
               Component_Actions := [];
               Component_parent := None |} ]};
     capabilities :=
       {[ 1%positive :=
            {| Capability_Id := "switch";
               Capability_Actions := [1%positive; 3%positive];
               Capability_Properties := [1%positive];
               Capability_parent := None |} ]};
     properties :=
       {[ 1%positive := property "state" "off";
          2%positive := property "level" "0";
          3%positive := property "Eigenschaft 1" "" ]};
     actions :=
       {[ 1%positive := action "turnOn" (Some turnOn);
          2%positive := action "reset" (Some reset);
          3%positive := action "explode" (Some explode) ]};
     invocations := [] |}.

(** The world after [Abstract] of thing 1 on client 1. *)
Definition registered : World := (Abstract 1%positive [1%positive] world).2.

(** An execute-action message. *)
Definition execute (thingId componentId actionName : string) (args : list string) (seq : N)
  : protocol.ServerMessage_Execute :=
  {| protocol.Execute_Path :=
       Some {| protocol.Path_ThingId := Some thingId;
               protocol.Path_ComponentId := Some componentId;
               protocol.Path_Property := None;
               protocol.Path_Action := Some actionName |};
     protocol.Execute_Parameters :=
       map (λ v, Some {| protocol.Parameter_Value := Some v |}) args;
     protocol.Execute_Sequence := Some seq |}.

End sample.

(** ** Further operations and predicates *)

(** [Client.PushThings]. *)
Definition PushThings Marshal (c : ptr) : M (option error) := sendThings Marshal c.

(** The snapshot message [sendThings] builds. *)
Definition requestThingsResponse_message (counter : N) (ts : list protocol.Thing)
  : protocol.ClientMessage :=
  protocol.clientMessage_RequestThingsResponse
    {| protocol.RequestThingsResponse_UpdateLock := Some counter;
       protocol.RequestThingsResponse_Things := ts |}.

(** The slice [ValueTypeStrings], and the conversion [ValueType(i)] of
    an index of that slice. *)
Definition ValueTypeStrings_slice : list string := ["BOOLEAN"; "STRING"; "NUMBER"].

Definition ValueType_of_index (i : nat) : ValueType :=
  match i with
  | O => Boolean
  | S O => String_
  | _ => Number
  end.

(** [ValueType.String]: [ValueTypeStrings[v]]. *)
Definition ValueType_String (v : ValueType) : string := ValueTypeStrings v.

(** The loop of [ValueTypeFromString] from index [i] on:
<<
  for i, valueType := range ValueTypeStrings {
    if valueType == s { return ValueType(i), nil }
  }
  return String, fmt.Errorf("Unknwon ValueType: %s", s)
>> *)
Fixpoint ValueTypeFromString_loop (s : string) (names : list string) (i : nat)
  : ValueType * option error :=
  match names with
  | [] => (String_, Some ("Unknwon ValueType: " +:+ s))
  | valueType :: rest =>
      if decide (valueType = s) then (ValueType_of_index i, None)
      else ValueTypeFromString_loop s rest (S i)
  end.

Definition ValueTypeFromString (s : string) : ValueType * option error :=
  ValueTypeFromString_loop s ValueTypeStrings_slice 0.

(** The identifiers of the Things registered with client [c], in order. *)
Definition registered_ids (c : ptr) (w : World) : option (list string) :=
  l ← registered_things c w;
  mapM (λ p, Thing_Id <$> things w !! p) l.

(** No two Things registered with client [c] have the same identifier. *)
Definition unique_ids (c : ptr) (w : World) : Prop :=
  ∃ ids, registered_ids c w = Some ids ∧ NoDup ids.

(** Every Property and Action of the objects at [props] and [acts] has a
    name that matches [validNameRegexp]. *)
Definition valid_names (props acts : list ptr) (w : World) : Prop :=
  (∀ property, property ∈ props →
     ∃ p, properties w !! property = Some p
          ∧ validNameRegexp_MatchString (Property_Name p) = true)
  ∧ (∀ action, action ∈ acts →
       ∃ a, actions w !! action = Some a
            ∧ validNameRegexp_MatchString (Action_Name a) = true).

(** What [validateThing] accepts: the identifier of [t] is that of no
    registered Thing, and all names in the tree of [t] are valid. *)
Definition valid_thing (c t : ptr) (w : World) : Prop :=
  ∃ cl t',
    clients w !! c = Some cl ∧ things w !! t = Some t'
    ∧ (∀ thing, thing ∈ Client_things cl →
         ∃ th, things w !! thing = Some th ∧ Thing_Id th ≠ Thing_Id t')
    ∧ (∀ component, component ∈ Thing_Components t' →
         ∃ comp,
           components w !! component = Some comp
           ∧ valid_names (Component_Properties comp) (Component_Actions comp) w
           ∧ (∀ capability, capability ∈ Component_Capabilities comp →
                ∃ cap, capabilities w !! capability = Some cap
                       ∧ valid_names (Capability_Properties cap) (Capability_Actions cap) w)).

(** The sample "lamp" registered with a client that has not connected:
    the client of [NewClient] in place of the connected one. *)
Definition sample_offline : World :=
  (Abstract 1%positive [1%positive]
     (set_clients (λ _, {[ 1%positive := NewClient ]}) sample.world)).2.

(** A decoder for the execution results encoded by
    [sample.MarshalClient]. *)
Definition sample_UnmarshalClient (data : list byte) : option protocol.ClientMessage :=
  match data with
  | x22 :: status :: sequence :: reason =>
      Some (protocol.clientMessage_ExecutionResult
        {| protocol.ExecutionResult_ErrorReason :=
             Some (string_of_list_ascii (map ascii_of_byte reason));
           protocol.ExecutionResult_Result :=
             Some match status with
                  | x00 => protocol.ClientMessage_ExecutionResult_SUCCESS
                  | _ => protocol.ClientMessage_ExecutionResult_FAILURE
                  end;
           protocol.ExecutionResult_Sequence := Some (Byte.to_N sequence) |})
  | _ => None
  end.

(** The registered sample "lamp" with no handler set on "turnOn". *)
Definition sample_unset : World :=
  {| clients := clients sample.registered;
     things := things sample.registered;
     components := components sample.registered;
     capabilities := capabilities sample.registered;
     properties := properties sample.registered;
     actions := <[1%positive := sample.action "turnOn" None]> (actions sample.registered);
     invocations := invocations sample.registered |}.

(** The world went from [w] to [w'] without a change to the device
    model: the device tree is the same, every client has the same
    registered Things, what a client has written is a prefix of what it
    has written now, and so is the trace of handler invocations. *)
Definition extends (w w' : World) : Prop :=
  same_tree w w'
  ∧ (∀ c, registered_things c w' = registered_things c w)
  ∧ (∀ c out, wire c w = Some out → ∃ more, wire c w' = Some (out ++ more))
  ∧ (∃ more, invocations w' = invocations w ++ more).

(** [only_extends m]: whatever its outcome, [m] takes a world to one
    that extends it. *)
Definition only_extends {A} (m : M A) : Prop := ∀ w, extends w (m w).2.

(** The path of the execute-action message [msg] leads to [action]:
    the first Thing registered with client [c] that has the thing
    identifier, its first Component with the component identifier, and
    the first Action with the action name among the Actions of that
    Component's Capabilities, in order. *)
Definition resolves (c : ptr) (msg : protocol.ServerMessage_Execute) (action : ptr)
    (a : Action) (w : World) : Prop :=
  ∃ (thing component capability : ptr) (cl : Client) (th : Thing) (comp : Component)
    (cap : Capability) (things1 things2 comps1 comps2 caps1 caps2 acts1 acts2 : list ptr),
    clients w !! c = Some cl ∧ Client_things cl = things1 ++ thing :: things2
    ∧ (∀ p, p ∈ things1 → ∃ th', things w !! p = Some th' ∧ Thing_Id th' ≠ Thing_Id th)
    ∧ things w !! thing = Some th
    ∧ Thing_Components th = comps1 ++ component :: comps2
    ∧ (∀ p, p ∈ comps1 → ∃ comp', components w !! p = Some comp'
                                  ∧ Component_Id comp' ≠ Component_Id comp)
    ∧ components w !! component = Some comp
    ∧ Component_Capabilities comp = caps1 ++ capability :: caps2
    ∧ (∀ p, p ∈ caps1 →
         ∃ cap', capabilities w !! p = Some cap'
                 ∧ ∀ q, q ∈ Capability_Actions cap' →
                     ∃ a', actions w !! q = Some a' ∧ Action_Name a' ≠ Action_Name a)
    ∧ capabilities w !! capability = Some cap
    ∧ Capability_Actions cap = acts1 ++ action :: acts2
    ∧ (∀ q, q ∈ acts1 → ∃ a', actions w !! q = Some a' ∧ Action_Name a' ≠ Action_Name a)
    ∧ actions w !! action = Some a
    ∧ protocol.GetThingId (protocol.GetPath msg) = Thing_Id th
    ∧ protocol.GetComponentId (protocol.GetPath msg) = Component_Id comp
    ∧ protocol.GetActionName (protocol.GetPath msg) = Action_Name a.

(** * Properties

    From here on: lemmas and theorems about the definitions above. *)

(** ** Unsigned varints *)

Lemma to_N_byte_of_N (x : N) : x < 256 → Byte.to_N (byte_of_N x) = x.
Proof.
  intros Hx. unfold byte_of_N.
  rewrite N.mod_small by exact Hx.
  pose proof (Byte.to_of_N_option_map x) as H.
  destruct (Byte.of_N x) as [b|] eqn:E; simpl in H.
  - destruct (N.leb_spec x 255); congruence.
  - destruct (N.leb_spec x 255); [discriminate | lia].
Qed.


Lemma byte_cases (P : N → Prop) :
  (∀ b : byte, P (Byte.to_N b)) → ∀ a, a < 256 → P a.
Proof. intros H a Ha. rewrite <- (to_N_byte_of_N a Ha). apply H. Qed.

Lemma continuation_byte (a : N) :
  a < 256 →
  N.lor a 128 < 256 ∧ 128 <= N.lor a 128 ∧ N.land (N.lor a 128) 127 = a mod 128.
Proof.
  revert a. apply byte_cases. intros b. destruct b; vm_compute; repeat split; congruence.
Qed.


Lemma uint64_small (x : N) : x < 2 ^ 64 → binary.uint64 x = x.
Proof. intros. unfold binary.uint64. by apply N.mod_small. Qed.





(** ** Running monadic code *)

Lemma bind_run {A B} (m : M A) (f : A → M B) (w : World) :
  (m ≫= f) w
  = match m w with
    | (Ret a, w') => f a w'
    | (Panic, w') => (Panic, w')
    end.
Proof. reflexivity. Qed.

Lemma ret_run {A} (a : A) (w : World) : (mret a : M A) w = (Ret a, w).
Proof. reflexivity. Qed.

Lemma load_run {A} (store : World → gmap positive A) (p : ptr) (a : A) (w : World) :
  store w !! p = Some a → load store p w = (Ret a, w).
Proof. intros H. unfold load. by rewrite H. Qed.

Lemma modify_run {A} (store : World → gmap positive A) set (p : ptr) (upd : A → A)
    (a : A) (w : World) :
  store w !! p = Some a →
  modify store set p upd w = (Ret (), set (λ s, <[p := upd a]> s) w).
Proof. intros H. unfold modify. by rewrite H. Qed.

(** ** The length prefix of [send] *)



(** The one-byte prefix of a short payload. *)
Lemma lenPrefix_short (n : N) : n < 128 → lenPrefix n = Some [byte_of_N n].
Proof.
  intros Hn. unfold lenPrefix. rewrite uint64_small.
  2:{ eapply N.lt_trans; [exact Hn|]. by vm_compute. }
  simpl. destruct (N.leb_spec 128 n); [lia|]. done.
Qed.

(** [send] on a connected client appends the frame to the connection. *)
Lemma send_run Marshal (a : ptr) (msg : protocol.ClientMessage) (data f out : list byte)
    (cl : Client) (w : World) :
  Marshal msg = inr data → frame data = Some f →
  clients w !! a = Some cl → Client_writer cl = Some out →
  send Marshal (Some a) msg w
  = (Ret None, set_clients (λ s, <[a := set_Client_writer (out ++ f) cl]> s) w).
Proof.
  intros HM Hf Hcl Hout. unfold send, frame in *. rewrite HM.
  destruct (lenPrefix (N.of_nat (length data))) as [p|]; [|done].
  injection Hf as <-.
  rewrite bind_run. simpl load_opt. rewrite (load_run _ _ _ _ Hcl). rewrite Hout.
  rewrite bind_run. rewrite (modify_run _ _ _ _ _ _ Hcl). done.
Qed.



(** ** Code that only reads *)

Lemma readonly_ret {A} (a : A) : readonly (mret a).
Proof. by intros w. Qed.

Lemma readonly_panic {A} : readonly (@panic A).
Proof. by intros w. Qed.

Lemma readonly_bind {A B} (m : M A) (f : A → M B) :
  readonly m → (∀ a, readonly (f a)) → readonly (m ≫= f).
Proof.
  intros Hm Hf w. rewrite bind_run. specialize (Hm w).
  destruct (m w) as [[a|] w1]; simpl in Hm; subst; [apply Hf | done].
Qed.

Lemma readonly_load {A} (store : World → gmap positive A) (p : ptr) :
  readonly (load store p).
Proof. intros w. unfold load. by destruct (store w !! p). Qed.

Lemma readonly_load_opt {A} (store : World → gmap positive A) (p : option ptr) :
  readonly (load_opt store p).
Proof. destruct p; [apply readonly_load | apply readonly_panic]. Qed.

Lemma readonly_range {A B} (l : list A) (body : A → M (option B)) :
  (∀ x, readonly (body x)) → readonly (range l body).
Proof.
  intros Hb. induction l as [|x l IH]; simpl; [apply readonly_ret|].
  apply readonly_bind; [apply Hb|]. intros [b|]; [apply readonly_ret | apply IH].
Qed.

Lemma readonly_or_else {B} (m k : M (option B)) :
  readonly m → readonly k → readonly (or_else m k).
Proof.
  intros Hm Hk. apply readonly_bind; [done|]. intros [b|]; [apply readonly_ret | done].
Qed.

Lemma readonly_if {A} (b : bool) (m1 m2 : M A) :
  readonly m1 → readonly m2 → readonly (if b then m1 else m2).
Proof. by destruct b. Qed.

Lemma readonly_if_dec {A} {P : Prop} (d : {P} + {¬ P}) (m1 m2 : M A) :
  readonly m1 → readonly m2 → readonly (if d then m1 else m2).
Proof. by destruct d. Qed.

(** One step of a proof that a computation only reads. *)
Ltac readonly_step :=
  lazymatch goal with
  | |- readonly (mret _) => apply readonly_ret
  | |- readonly panic => apply readonly_panic
  | |- readonly (load _ _) => apply readonly_load
  | |- readonly (load_opt _ _) => apply readonly_load_opt
  | |- readonly (range _ _) => apply readonly_range; intros ?; cbv beta
  | |- readonly (or_else _ _) => apply readonly_or_else
  | |- readonly (_ ≫= _) => apply readonly_bind; [|intros ?; cbv beta]
  | |- readonly (if ?d then _ else _) => destruct d
  | |- readonly (match ?x with _ => _ end) => destruct x
  end.

Ltac solve_readonly := repeat readonly_step.

Lemma readonly_run {A} (m : M A) (w w' : World) (r : outcome A) :
  readonly m → m w = (r, w') → w' = w.
Proof. intros H E. specialize (H w). by rewrite E in H. Qed.

Lemma validateThing_readonly (c t : ptr) : readonly (validateThing c t).
Proof. unfold validateThing. solve_readonly. Qed.

Lemma getThing_readonly (c : ptr) (thingId : string) : readonly (getThing c thingId).
Proof. unfold getThing. solve_readonly. Qed.

Lemma Thing_GetComponent_readonly (t : ptr) (componentId : string) :
  readonly (Thing_GetComponent t componentId).
Proof. unfold Thing_GetComponent. solve_readonly. Qed.

Lemma Component_GetAction_readonly (c : ptr) (actionName : string) :
  readonly (Component_GetAction c actionName).
Proof. unfold Component_GetAction. solve_readonly. Qed.

Lemma RemoveThing_loop_readonly (t : ptr) (l : list ptr) :
  ∀ idx i, readonly (RemoveThing_loop t l idx i).
Proof. induction l as [|x l IH]; intros idx i; simpl; solve_readonly; apply IH. Qed.

(** ** Deregistration *)

(** When no registered Thing has the identifier, the loop of
    [RemoveThing] leaves [i] at the index of the last element (or at its
    initial value on an empty list). *)
Lemma RemoveThing_loop_no_match (t : ptr) (t' : Thing) (w : World) :
  things w !! t = Some t' →
  ∀ (l : list ptr) (idx i : nat),
    (∀ p, p ∈ l → ∃ th, things w !! p = Some th ∧ Thing_Id th ≠ Thing_Id t') →
    RemoveThing_loop t l idx i w
    = (Ret (match l with [] => i | _ => (idx + length l - 1)%nat end), w).
Proof.
  intros Ht l. induction l as [|x l IH]; intros idx i Hall; [done|].
  destruct (Hall x) as (th & Hth & Hne); [by left|].
  simpl RemoveThing_loop.
  rewrite bind_run, (load_run _ _ _ _ Hth), bind_run, (load_run _ _ _ _ Ht).
  destruct (decide (Thing_Id th = Thing_Id t')); [done|].
  rewrite IH by (intros p Hp; apply Hall; by right).
  destruct l; simpl length; do 2 f_equal; lia.
Qed.

(** On a client with no Thing, [RemoveThing] reports the missing
    identifier. *)
Lemma RemoveThing_empty (c t : ptr) (cl : Client) (t' : Thing) (w : World) :
  clients w !! c = Some cl → Client_things cl = [] → things w !! t = Some t' →
  RemoveThing c t w = (Ret (Some ("Thing with Id " +:+ Thing_Id t' +:+ " not found")), w).
Proof.
  intros Hc Hts Ht. unfold RemoveThing.
  rewrite bind_run, (load_run _ _ _ _ Hc), Hts. simpl RemoveThing_loop.
  rewrite bind_run, ret_run. rewrite bool_decide_eq_true_2 by (simpl; lia).
  rewrite bind_run, (load_run _ _ _ _ Ht). done.
Qed.

(** C2 (as the code behaves): when at least one Thing is registered and
    none of the registered Things has the identifier of [t],
    [RemoveThing c t] returns no error and removes the last registered
    Thing, whose identifier differs from that of [t]. *)
Theorem RemoveThing_unregistered_removes_last
    (c t : ptr) (cl : Client) (t' : Thing) (ts : list ptr) (last : ptr) (w : World) :
  clients w !! c = Some cl →
  things w !! t = Some t' →
  Client_things cl = ts ++ [last] →
  (∀ p, p ∈ Client_things cl → ∃ th, things w !! p = Some th ∧ Thing_Id th ≠ Thing_Id t') →
  RemoveThing c t w
  = (Ret None, set_clients (λ s, <[c := remove_index (length ts) cl]> s) w)
  ∧ Client_things (remove_index (length ts) cl) = ts.
Proof.
  intros Hc Ht Hts Hall. split.
  - unfold RemoveThing.
    rewrite bind_run, (load_run _ _ _ _ Hc), bind_run.
    rewrite (RemoveThing_loop_no_match t t' w Ht _ 0 0 Hall).
    assert (match ts ++ [last] with
            | [] => 0%nat
            | _ => (0 + length (ts ++ [last]) - 1)%nat
            end = length ts) as Hi.
    { destruct ts; simpl; rewrite ?length_app; simpl; lia. }
    rewrite Hts, Hi.
    rewrite bool_decide_eq_false_2 by (rewrite length_app; simpl; clear; lia).
    rewrite bind_run, (modify_run _ _ _ _ _ _ Hc). done.
  - unfold remove_index. simpl. rewrite Hts.
    rewrite take_app_length, drop_app_ge by lia.
    replace (S (length ts) - length ts)%nat with 1%nat by lia.
    by rewrite app_nil_r.
Qed.

(** Removing the unregistered "fan" from a client that holds only the
    "lamp" removes the "lamp". *)
Lemma RemoveThing_unregistered_removes_last_witness :
  (RemoveThing 1%positive 4%positive sample.registered).1 = Ret None
  ∧ registered_things 1%positive sample.registered = Some [1%positive]
  ∧ registered_things 1%positive
      (RemoveThing 1%positive 4%positive sample.registered).2 = Some [].
Proof.
  pose proof (RemoveThing_unregistered_removes_last 1%positive 4%positive
    {| Client_writer := Some []; Client_things := [1%positive];
       Client_updateCounter := 0; Client_connected := true |}
    (sample.thing "fan" []) [] 1%positive sample.registered) as H.
  destruct H as [H _].
  - by vm_compute.
  - by vm_compute.
  - done.
  - intros p Hp. apply list_elem_of_singleton in Hp as ->.
    exists (sample.thing "lamp" [1%positive]). split; [by vm_compute | done].
  - rewrite H. by vm_compute.
Defined.

(** ** Property updates *)

Lemma same_tree_refl (w : World) : same_tree w w.
Proof. by repeat split. Qed.

Lemma same_tree_set_clients f (w : World) : same_tree w (set_clients f w).
Proof. by repeat split. Qed.

(** [send] writes to the connection only. *)
Lemma send_same_tree Marshal (c : option ptr) (msg : protocol.ClientMessage) (w : World) :
  same_tree w (send Marshal c msg w).2.
Proof.
  unfold send. destruct (Marshal msg) as [e|data]; [apply same_tree_refl|].
  destruct (lenPrefix (N.of_nat (length data))) as [p|]; [|apply same_tree_refl].
  rewrite bind_run. destruct c as [a|]; [|apply same_tree_refl].
  simpl load_opt. unfold load.
  destruct (clients w !! a) as [cl|] eqn:Hcl; [|apply same_tree_refl].
  destruct (Client_writer cl) as [out|]; [|apply same_tree_refl].
  rewrite bind_run, (modify_run _ _ _ _ _ _ Hcl). apply same_tree_set_clients.
Qed.

(** C8: [Property.Update] leaves the stored value of the Property as it
    was, with its type and symbol: after the call the Property, and the
    whole device tree, are what they were before, whether or not a
    change message was sent (and also when the call panics). *)
Theorem Property_Update_keeps_value Marshal (p : ptr) (newValue : string) (w : World) :
  same_tree w (Property_Update Marshal p newValue w).2
  ∧ properties (Property_Update Marshal p newValue w).2 !! p = properties w !! p.
Proof.
  assert (same_tree w (Property_Update Marshal p newValue w).2) as H.
  { unfold Property_Update. rewrite bind_run. unfold load at 1.
    destruct (properties w !! p) as [prop|]; [|apply same_tree_refl].
    destruct (decide (Value_Value (Property_Value prop) ≠ newValue));
      [|apply same_tree_refl].
    rewrite bind_run.
    pose proof (readonly_load_opt capabilities (Property_parent prop) w) as H1.
    destruct (load_opt capabilities (Property_parent prop) w) as [[cap|] w1];
      simpl in H1; subst w1; [|apply same_tree_refl].
    rewrite bind_run.
    pose proof (readonly_load_opt components (Capability_parent cap) w) as H2.
    destruct (load_opt components (Capability_parent cap) w) as [[comp|] w1];
      simpl in H2; subst w1; [|apply same_tree_refl].
    rewrite bind_run.
    pose proof (readonly_load_opt things (Component_parent comp) w) as H3.
    destruct (load_opt things (Component_parent comp) w) as [[th|] w1];
      simpl in H3; subst w1; [|apply same_tree_refl].
    cbv zeta. rewrite bind_run.
    match goal with |- context [send ?M ?c ?m w] =>
      pose proof (send_same_tree M c m w) as Hs;
      destruct (send M c m w) as [[r|] w1] end; exact Hs. }
  split; [exact H|]. destruct H as (_ & _ & _ & -> & _). done.
Qed.

(** A call with the stored value sends nothing. *)
Lemma Property_Update_same_value Marshal (p : ptr) (prop : Property) (w : World) :
  properties w !! p = Some prop →
  Property_Update Marshal p (Value_Value (Property_Value prop)) w = (Ret None, w).
Proof.
  intros Hp. unfold Property_Update. rewrite bind_run, (load_run _ _ _ _ Hp).
  by destruct (decide (Value_Value (Property_Value prop) ≠ Value_Value (Property_Value prop))).
Qed.

(** A call with a new value on a wired Property of a connected client
    appends the frame of the property-change message to the connection
    and changes nothing else. *)
Lemma Property_Update_run Marshal (p a capability component thing : ptr)
    (prop : Property) (cap : Capability) (comp : Component) (th : Thing) (cl : Client)
    (out data f : list byte) (newValue : string) (w : World) :
  properties w !! p = Some prop →
  Value_Value (Property_Value prop) ≠ newValue →
  Property_parent prop = Some capability → capabilities w !! capability = Some cap →
  Capability_parent cap = Some component → components w !! component = Some comp →
  Component_parent comp = Some thing → things w !! thing = Some th →
  Property_client prop = Some a → clients w !! a = Some cl →
  Client_writer cl = Some out →
  Marshal (propertyChange_message prop comp th newValue) = inr data →
  frame data = Some f →
  Property_Update Marshal p newValue w
  = (Ret None, set_clients (λ s, <[a := set_Client_writer (out ++ f) cl]> s) w).
Proof.
  intros Hp Hne Hpp Hcap Hcp Hcomp Hcop Hth Hpc Hcl Hout HM Hf.
  unfold Property_Update. rewrite bind_run, (load_run _ _ _ _ Hp).
  destruct (decide (Value_Value (Property_Value prop) ≠ newValue)); [|done].
  rewrite Hpp. simpl load_opt. rewrite bind_run, (load_run _ _ _ _ Hcap).
  rewrite Hcp. simpl load_opt. rewrite bind_run, (load_run _ _ _ _ Hcomp).
  rewrite Hcop. simpl load_opt. rewrite bind_run, (load_run _ _ _ _ Hth).
  cbv zeta. rewrite bind_run, Hpc.
  change (protocol.clientMessage_PropertyChange _)
    with (propertyChange_message prop comp th newValue).
  by rewrite (send_run Marshal a _ data f out cl w HM Hf Hcl Hout).
Qed.

(** C3 (amended): on a registered, wired Property of a connected
    client, the first call of [Property.Update] with a value
    [newValue] different from the stored one sends exactly one
    property-change message. The call does not store the value: a
    repeat call with [newValue] sends the same message again when
    nothing was changed in between, and sends nothing when the caller
    has stored [newValue] in the Property in between. *)
Theorem Property_Update_repeat Marshal (p a capability component thing : ptr)
    (prop : Property) (cap : Capability) (comp : Component) (th : Thing) (cl : Client)
    (out data f : list byte) (newValue : string) (w : World) :
  properties w !! p = Some prop →
  Value_Value (Property_Value prop) ≠ newValue →
  Property_parent prop = Some capability → capabilities w !! capability = Some cap →
  Capability_parent cap = Some component → components w !! component = Some comp →
  Component_parent comp = Some thing → things w !! thing = Some th →
  Property_client prop = Some a → clients w !! a = Some cl →
  Client_writer cl = Some out →
  Marshal (propertyChange_message prop comp th newValue) = inr data →
  frame data = Some f →
  ∃ w1,
    Property_Update Marshal p newValue w = (Ret None, w1)
    ∧ wire a w1 = Some (out ++ f)
    ∧ (∃ w2, Property_Update Marshal p newValue w1 = (Ret None, w2)
             ∧ wire a w2 = Some (out ++ f ++ f))
    ∧ Property_Update Marshal p newValue
        (set_properties (λ s, <[p := set_Property_value newValue prop]> s) w1)
      = (Ret None, set_properties (λ s, <[p := set_Property_value newValue prop]> s) w1).
Proof.
  intros Hp Hne Hpp Hcap Hcp Hcomp Hcop Hth Hpc Hcl Hout HM Hf.
  eexists. split.
  { by eapply Property_Update_run. }
  split.
  { unfold wire. simpl. by rewrite lookup_insert_eq. }
  split.
  { eexists. split.
    - apply (Property_Update_run Marshal p a capability component thing prop cap comp th
               (set_Client_writer (out ++ f) cl) (out ++ f) data f newValue); try done.
      simpl. by rewrite lookup_insert_eq.
    - unfold wire. simpl. rewrite lookup_insert_eq. simpl. by rewrite <- app_assoc. }
  apply (Property_Update_same_value Marshal p (set_Property_value newValue prop)).
  simpl. by rewrite lookup_insert_eq.
Qed.

(** Updates of "state" from "off" to "on" in the sample world. *)
Lemma Property_Update_repeat_witness :
  ∃ w1,
    Property_Update sample.MarshalClient 1%positive "on" sample.registered = (Ret None, w1)
    ∧ wire 1%positive w1 = Some ([] ++ [x03; x1a; x6f; x6e])
    ∧ (∃ w2, Property_Update sample.MarshalClient 1%positive "on" w1 = (Ret None, w2)
             ∧ wire 1%positive w2
               = Some ([] ++ [x03; x1a; x6f; x6e] ++ [x03; x1a; x6f; x6e]))
    ∧ Property_Update sample.MarshalClient 1%positive "on"
        (set_properties
           (λ s, <[1%positive := set_Property_value "on" (set_Property_parent 1%positive
                     (set_Property_client 1%positive (sample.property "state" "off")))]> s)
           w1)
      = (Ret None,
         set_properties
           (λ s, <[1%positive := set_Property_value "on" (set_Property_parent 1%positive
                     (set_Property_client 1%positive (sample.property "state" "off")))]> s)
           w1).
Proof.
  eapply (Property_Update_repeat sample.MarshalClient
            1%positive 1%positive 1%positive 1%positive 1%positive);
    try (by vm_compute).
Defined.

(** C3 (as stated) fails: in the sample world two calls in succession
    with the value "on", nothing done in between, each put the frame of
    the property-change message on the connection. *)
Lemma Property_Update_repeat_sends_again :
  (Property_Update sample.MarshalClient 1%positive "on" sample.registered).1 = Ret None
  ∧ wire 1%positive sample.registered = Some []
  ∧ wire 1%positive
      (Property_Update sample.MarshalClient 1%positive "on" sample.registered).2
    = Some [x03; x1a; x6f; x6e]
  ∧ (Property_Update sample.MarshalClient 1%positive "on"
       (Property_Update sample.MarshalClient 1%positive "on" sample.registered).2).1
    = Ret None
  ∧ wire 1%positive
      (Property_Update sample.MarshalClient 1%positive "on"
         (Property_Update sample.MarshalClient 1%positive "on" sample.registered).2).2
    = Some ([x03; x1a; x6f; x6e] ++ [x03; x1a; x6f; x6e]).
Proof. repeat split; by vm_compute. Qed.

(** ** Action dispatch *)

Lemma range_none {A B} (l : list A) (body : A → M (option B)) (w : World) :
  (∀ x, x ∈ l → body x w = (Ret None, w)) → range l body w = (Ret None, w).
Proof.
  induction l as [|x l IH]; intros H; [done|].
  simpl. rewrite bind_run, (H x) by (by left).
  apply IH. intros y Hy. apply H. by right.
Qed.

(** A Component none of whose Capabilities has an Action of the name
    resolves no Action, whatever its direct Actions are. *)
Lemma Component_GetAction_none (c : ptr) (comp : Component) (actionName : string) (w : World) :
  components w !! c = Some comp →
  (∀ capability, capability ∈ Component_Capabilities comp →
     ∃ cap, capabilities w !! capability = Some cap
            ∧ ∀ action, action ∈ Capability_Actions cap →
                ∃ a, actions w !! action = Some a ∧ Action_Name a ≠ actionName) →
  Component_GetAction c actionName w = (Ret None, w).
Proof.
  intros Hc Hcaps. unfold Component_GetAction.
  rewrite bind_run, (load_run _ _ _ _ Hc).
  apply range_none. intros capability Hin.
  destruct (Hcaps capability Hin) as (cap & Hcap & Hacts).
  rewrite bind_run, (load_run _ _ _ _ Hcap).
  apply range_none. intros action Ha.
  destruct (Hacts action Ha) as (a & Hact & Hne).
  rewrite bind_run, (load_run _ _ _ _ Hact).
  by destruct (decide (Action_Name a = actionName)).
Qed.

(** The dispatch loop on one message that carries only an execute-action
    request is [handleAction] on that request. *)
Lemma handleServerMessages_execute Marshal code (c : ptr) (msg : protocol.ServerMessage_Execute)
    (w : World) :
  handleServerMessages Marshal code c
    [{| protocol.ServerMessage_RequestThings := None;
        protocol.ServerMessage_Action := Some msg |}] w
  = handleAction Marshal code c msg w.
Proof.
  unfold handleServerMessages. simpl.
  rewrite !bind_run. simpl.
  destruct (handleAction Marshal code c msg w) as [[[]|] w']; done.
Qed.

(** C9: [Component.GetAction] searches the Actions of the Capabilities
    only. When a Component holds an Action of the requested name among
    its direct Actions and none of its Capabilities does, [GetAction]
    returns nil, and an execute-action message addressed to that Action
    runs no handler and sends nothing: the world is unchanged. *)
Theorem GetAction_ignores_direct_actions Marshal code (c thing component : ptr) (comp : Component)
    (msg : protocol.ServerMessage_Execute) (w : World) :
  getThing c (protocol.GetThingId (protocol.GetPath msg)) w = (Ret (Some thing), w) →
  Thing_GetComponent thing (protocol.GetComponentId (protocol.GetPath msg)) w
  = (Ret (Some component), w) →
  components w !! component = Some comp →
  (∃ action a, action ∈ Component_Actions comp ∧ actions w !! action = Some a
               ∧ Action_Name a = protocol.GetActionName (protocol.GetPath msg)) →
  (∀ capability, capability ∈ Component_Capabilities comp →
     ∃ cap, capabilities w !! capability = Some cap
            ∧ ∀ action, action ∈ Capability_Actions cap →
                ∃ a, actions w !! action = Some a
                     ∧ Action_Name a ≠ protocol.GetActionName (protocol.GetPath msg)) →
  Component_GetAction component (protocol.GetActionName (protocol.GetPath msg)) w
  = (Ret None, w)
  ∧ handleServerMessages Marshal code c
      [{| protocol.ServerMessage_RequestThings := None;
          protocol.ServerMessage_Action := Some msg |}] w
    = (Ret (), w).
Proof.
  intros Hthing Hcomponent Hcomp _ Hcaps.
  pose proof (Component_GetAction_none component comp _ w Hcomp Hcaps) as Hnone.
  split; [exact Hnone|].
  rewrite handleServerMessages_execute. unfold handleAction.
  rewrite bind_run, Hthing, bind_run, Hcomponent, bind_run, Hnone. done.
Qed.

(** An execute-action message for the direct action "reset" of the
    sample component does nothing. *)
Lemma GetAction_ignores_direct_actions_witness :
  Component_GetAction 1%positive "reset" sample.registered = (Ret None, sample.registered)
  ∧ handleServerMessages sample.MarshalClient sample.code 1%positive
      [{| protocol.ServerMessage_RequestThings := None;
          protocol.ServerMessage_Action :=
            Some (sample.execute "lamp" "main" "reset" [] 7) |}] sample.registered
    = (Ret (), sample.registered).
Proof.
  apply (GetAction_ignores_direct_actions sample.MarshalClient sample.code 1%positive 1%positive
           1%positive
           {| Component_Id := "main"; Component_Name := "main";
              Component_ComponentType := EmptyString;
              Component_Capabilities := [1%positive];
              Component_Properties := [2%positive];
              Component_Actions := [2%positive];
              Component_parent := Some 1%positive |}
           (sample.execute "lamp" "main" "reset" [] 7) sample.registered).
  - by vm_compute.
  - by vm_compute.
  - by vm_compute.
  - exists 2%positive, (sample.action "reset" (Some sample.reset)).
    split; [by left|]. split; by vm_compute.
  - intros capability Hin. apply list_elem_of_singleton in Hin as ->.
    exists {| Capability_Id := "switch";
              Capability_Actions := [1%positive; 3%positive];
              Capability_Properties := [1%positive];
              Capability_parent := Some 1%positive |}.
    split; [by vm_compute|].
    intros action Ha.
    apply elem_of_cons in Ha as [->|Ha].
    + exists (sample.action "turnOn" (Some sample.turnOn)). split; [by vm_compute | done].
    + apply list_elem_of_singleton in Ha as ->.
      exists (sample.action "explode" (Some sample.explode)). split; [by vm_compute | done].
Defined.

(** ** Resolution is first match *)

Lemma range_first {A B} (l1 l2 : list A) (x : A) (b : B) (body : A → M (option B))
    (w : World) :
  (∀ y, y ∈ l1 → body y w = (Ret None, w)) →
  body x w = (Ret (Some b), w) →
  range (l1 ++ x :: l2) body w = (Ret (Some b), w).
Proof.
  induction l1 as [|y l1 IH]; intros Hl1 Hx; simpl.
  - by rewrite bind_run, Hx.
  - rewrite bind_run, (Hl1 y) by (by left).
    apply IH; [|done]. intros z Hz. apply Hl1. by right.
Qed.

(** [getThing] returns the first registered Thing with the identifier. *)
Lemma getThing_first (c thing : ptr) (cl : Client) (th : Thing) (l1 l2 : list ptr)
    (w : World) :
  clients w !! c = Some cl → Client_things cl = l1 ++ thing :: l2 →
  (∀ p, p ∈ l1 → ∃ th', things w !! p = Some th' ∧ Thing_Id th' ≠ Thing_Id th) →
  things w !! thing = Some th →
  getThing c (Thing_Id th) w = (Ret (Some thing), w).
Proof.
  intros Hc Hts Hl1 Hth. unfold getThing.
  rewrite bind_run, (load_run _ _ _ _ Hc), Hts.
  apply range_first.
  - intros p Hp. destruct (Hl1 p Hp) as (th' & Hth' & Hne).
    rewrite bind_run, (load_run _ _ _ _ Hth').
    destruct (decide (Thing_Id th = Thing_Id th')); [congruence | done].
  - rewrite bind_run, (load_run _ _ _ _ Hth).
    by destruct (decide (Thing_Id th = Thing_Id th)).
Qed.

(** [Thing.GetComponent] returns the first Component with the
    identifier. *)
Lemma Thing_GetComponent_first (t component : ptr) (t' : Thing) (comp : Component)
    (l1 l2 : list ptr) (w : World) :
  things w !! t = Some t' → Thing_Components t' = l1 ++ component :: l2 →
  (∀ p, p ∈ l1 → ∃ comp', components w !! p = Some comp'
                          ∧ Component_Id comp' ≠ Component_Id comp) →
  components w !! component = Some comp →
  Thing_GetComponent t (Component_Id comp) w = (Ret (Some component), w).
Proof.
  intros Ht Hcs Hl1 Hcomp. unfold Thing_GetComponent.
  rewrite bind_run, (load_run _ _ _ _ Ht), Hcs.
  apply range_first.
  - intros p Hp. destruct (Hl1 p Hp) as (comp' & Hcomp' & Hne).
    rewrite bind_run, (load_run _ _ _ _ Hcomp').
    destruct (decide (Component_Id comp = Component_Id comp')); [congruence | done].
  - rewrite bind_run, (load_run _ _ _ _ Hcomp).
    by destruct (decide (Component_Id comp = Component_Id comp)).
Qed.

(** [Component.GetAction] returns the first Action with the name, in
    the order of the Capabilities and of their Actions. *)
Lemma Component_GetAction_first (c capability action : ptr) (comp : Component)
    (cap : Capability) (a : Action) (caps1 caps2 acts1 acts2 : list ptr) (w : World) :
  components w !! c = Some comp →
  Component_Capabilities comp = caps1 ++ capability :: caps2 →
  (∀ p, p ∈ caps1 →
     ∃ cap', capabilities w !! p = Some cap'
             ∧ ∀ q, q ∈ Capability_Actions cap' →
                 ∃ a', actions w !! q = Some a' ∧ Action_Name a' ≠ Action_Name a) →
  capabilities w !! capability = Some cap →
  Capability_Actions cap = acts1 ++ action :: acts2 →
  (∀ q, q ∈ acts1 → ∃ a', actions w !! q = Some a' ∧ Action_Name a' ≠ Action_Name a) →
  actions w !! action = Some a →
  Component_GetAction c (Action_Name a) w = (Ret (Some action), w).
Proof.
  intros Hc Hcaps Hcaps1 Hcap Hacts Hacts1 Ha. unfold Component_GetAction.
  rewrite bind_run, (load_run _ _ _ _ Hc), Hcaps.
  apply range_first.
  - intros p Hp. destruct (Hcaps1 p Hp) as (cap' & Hcap' & Hall).
    rewrite bind_run, (load_run _ _ _ _ Hcap').
    apply range_none. intros q Hq. destruct (Hall q Hq) as (a' & Ha' & Hne).
    rewrite bind_run, (load_run _ _ _ _ Ha').
    by destruct (decide (Action_Name a' = Action_Name a)).
  - rewrite bind_run, (load_run _ _ _ _ Hcap), Hacts.
    apply range_first.
    + intros q Hq. destruct (Hacts1 q Hq) as (a' & Ha' & Hne).
      rewrite bind_run, (load_run _ _ _ _ Ha').
      by destruct (decide (Action_Name a' = Action_Name a)).
    + rewrite bind_run, (load_run _ _ _ _ Ha).
      by destruct (decide (Action_Name a = Action_Name a)).
Qed.

(** ** A request that resolves *)

(** The argument values of a message all of whose arguments are set. *)
Lemma collect_Parameter_deref (args : list string) (w : World) :
  collect (map (λ v, Some {| protocol.Parameter_Value := Some v |}) args) Parameter_deref w
  = (Ret args, w).
Proof.
  induction args as [|v args IH]; [done|]. simpl.
  by rewrite bind_run, ret_run, bind_run, IH.
Qed.

(** The result message is the one built from the handler's error. *)
Lemma handleAction_result Marshal (c : ptr) (err : option error) (sequence : option N) :
  (let '(status, errorMsg) :=
     match err with
     | None => (protocol.ClientMessage_ExecutionResult_SUCCESS, EmptyString)
     | Some e => (protocol.ClientMessage_ExecutionResult_FAILURE, e)
     end in
   send Marshal (Some c)
     (protocol.clientMessage_ExecutionResult
        {| protocol.ExecutionResult_ErrorReason := Some errorMsg;
           protocol.ExecutionResult_Result := Some status;
           protocol.ExecutionResult_Sequence := sequence |});;
   mret ())
  = (send Marshal (Some c) (executionResult_message err sequence);; mret ()).
Proof. by destruct err. Qed.



(** A handler that fails: the result is FAILURE with the error text. *)
Example handleAction_failure :
  let r := handleAction sample.MarshalClient sample.code 1%positive
             (sample.execute "lamp" "main" "explode" [] 9) sample.registered in
  r.1 = Ret ()
  ∧ wire 1%positive r.2 = Some ([x07; x22; x01; x09] ++ sample.bytes_of_string "boom")
  ∧ invocations r.2 = [(3%positive, [])].
Proof. by vm_compute. Qed.

(** ** Requests on which the dispatch panics *)

Lemma handleAction_resolves Marshal code (c action : ptr) (a : Action)
    (msg : protocol.ServerMessage_Execute) (w : World) :
  resolves c msg action a w →
  handleAction Marshal code c msg w
  = (params ← collect (protocol.GetParameters msg) Parameter_deref;
     err ← invoke code action params;
     send Marshal (Some c) (executionResult_message err (protocol.Execute_Sequence msg));;
     mret ()) w.
Proof.
  intros (thing & component & capability & cl & th & comp & cap & things1 & things2
          & comps1 & comps2 & caps1 & caps2 & acts1 & acts2
          & Hcl & Hts & Hts1 & Hth & Hcs & Hcs1 & Hcomp & Hcaps & Hcaps1 & Hcap
          & Hacts & Hacts1 & Ha & Hid & Hcid & Hname).
  unfold handleAction. rewrite Hid, Hcid, Hname.
  rewrite bind_run, (getThing_first c thing cl th things1 things2 w Hcl Hts Hts1 Hth).
  rewrite bind_run,
    (Thing_GetComponent_first thing component th comp comps1 comps2 w Hth Hcs Hcs1 Hcomp).
  rewrite bind_run,
    (Component_GetAction_first component capability action comp cap a caps1 caps2
       acts1 acts2 w Hcomp Hcaps Hcaps1 Hcap Hacts Hacts1 Ha).
  rewrite !bind_run. destruct (collect _ Parameter_deref w) as [[params|] w1]; [|done].
  rewrite !bind_run. destruct (invoke code action params w1) as [[err|] w2]; [|done].
  by rewrite handleAction_result.
Qed.

(** An argument that is nil, or whose value is nil, stops the
    collection of the argument values with a panic. *)
Lemma collect_Parameter_deref_nil
    (params : list (option protocol.ServerMessage_Execute_Parameter)) (w : World) :
  (∃ param, param ∈ params ∧ (param ≫= protocol.Parameter_Value) = None) →
  collect params Parameter_deref w = (Panic, w).
Proof.
  induction params as [|param params IH]; intros (x & Hx & Hnil).
  - by apply elem_of_nil in Hx.
  - simpl. rewrite bind_run.
    destruct param as [[[v|]]|]; try done.
    apply elem_of_cons in Hx as [->|Hx]; [done|].
    change (Parameter_deref (Some {| protocol.Parameter_Value := Some v |}) w)
      with (Ret v, w).
    cbv beta iota. rewrite bind_run, IH; [done|]. by exists x.
Qed.

(** X22: what the dispatch does not check. For an execute-action
    message whose path resolves to an Action: when one of the
    arguments is nil or carries no value, [handleAction] panics on
    [*param.Value] before any handler runs; when all arguments carry
    values and the Action has no handler, it panics on the call of the
    nil [Execute]; when the code of the handler panics, so does the
    dispatch, with the invocation on the trace. In all three cases no
    execution result is sent. *)
Theorem handleAction_panics Marshal code (c action : ptr) (a : Action)
    (msg : protocol.ServerMessage_Execute) (w : World) :
  resolves c msg action a w →
  ((∃ param, param ∈ protocol.GetParameters msg
             ∧ (param ≫= protocol.Parameter_Value) = None) →
   handleServerMessages Marshal code c
     [{| protocol.ServerMessage_RequestThings := None;
         protocol.ServerMessage_Action := Some msg |}] w = (Panic, w))
  ∧ (∀ args,
       protocol.GetParameters msg
       = map (λ v, Some {| protocol.Parameter_Value := Some v |}) args →
       (Action_Execute a = None →
        handleServerMessages Marshal code c
          [{| protocol.ServerMessage_RequestThings := None;
              protocol.ServerMessage_Action := Some msg |}] w = (Panic, w))
       ∧ (∀ h w1,
            Action_Execute a = Some h → code h a args w = (Panic, w1) →
            handleServerMessages Marshal code c
              [{| protocol.ServerMessage_RequestThings := None;
                  protocol.ServerMessage_Action := Some msg |}] w
            = (Panic, set_invocations (λ _, invocations w ++ [(action, args)]) w1))).
Proof.
  intros Hres.
  assert (actions w !! action = Some a) as Ha.
  { by destruct Hres as (? & ? & ? & ? & ? & ? & ? & ? & ? & ? & ? & ? & ? & ? & ?
                         & _ & _ & _ & _ & _ & _ & _ & _ & _ & _ & _ & _ & Ha & _). }
  split; [|intros args Hargs; split; [|intros h w1]].
  - intros Hnil. rewrite handleServerMessages_execute, (handleAction_resolves _ _ _ _ _ _ _ Hres).
    by rewrite bind_run, (collect_Parameter_deref_nil _ _ Hnil).
  - intros Hex. rewrite handleServerMessages_execute, (handleAction_resolves _ _ _ _ _ _ _ Hres).
    rewrite bind_run, Hargs, collect_Parameter_deref, bind_run.
    unfold invoke. by rewrite bind_run, (load_run _ _ _ _ Ha), Hex.
  - intros Hex Hcode.
    rewrite handleServerMessages_execute, (handleAction_resolves _ _ _ _ _ _ _ Hres).
    rewrite bind_run, Hargs, collect_Parameter_deref, bind_run.
    unfold invoke. by rewrite bind_run, (load_run _ _ _ _ Ha), Hex, Hcode.
Qed.

Ltac sample_resolves :=
  exists 1%positive, 1%positive, 1%positive,
    {| Client_writer := Some []; Client_things := [1%positive];
       Client_updateCounter := 0; Client_connected := true |},
    (sample.thing "lamp" [1%positive]),
    {| Component_Id := "main"; Component_Name := "main";
       Component_ComponentType := EmptyString;
       Component_Capabilities := [1%positive];
       Component_Properties := [2%positive];
       Component_Actions := [2%positive];
       Component_parent := Some 1%positive |},
    {| Capability_Id := "switch";
       Capability_Actions := [1%positive; 3%positive];
       Capability_Properties := [1%positive];
       Capability_parent := Some 1%positive |},
    [], [], [], [], [], [], [], [3%positive];
  repeat (split; [first [by vm_compute | intros ? Hin; by apply elem_of_nil in Hin]|]);
  by vm_compute.

(** The sample request for "turnOn" with an argument that carries no
    value, and the same request with a value when no handler is set. *)
Lemma handleAction_panics_witness :
  handleServerMessages sample.MarshalClient sample.code 1%positive
    [{| protocol.ServerMessage_RequestThings := None;
        protocol.ServerMessage_Action :=
          Some {| protocol.Execute_Path :=
                    protocol.Execute_Path (sample.execute "lamp" "main" "turnOn" [] 7);
                  protocol.Execute_Parameters := [Some {| protocol.Parameter_Value := None |}];
                  protocol.Execute_Sequence := Some 7 |} |}] sample.registered
  = (Panic, sample.registered)
  ∧ handleServerMessages sample.MarshalClient sample.code 1%positive
      [{| protocol.ServerMessage_RequestThings := None;
          protocol.ServerMessage_Action :=
            Some (sample.execute "lamp" "main" "turnOn" ["a"] 7) |}] sample_unset
    = (Panic, sample_unset).
Proof.
  split.
  - apply (handleAction_panics sample.MarshalClient sample.code 1%positive 1%positive
             (sample.action "turnOn" (Some sample.turnOn))); [sample_resolves|].
    eexists. split; [by left | done].
  - destruct (handleAction_panics sample.MarshalClient sample.code 1%positive 1%positive
                (sample.action "turnOn" None)
                (sample.execute "lamp" "main" "turnOn" ["a"] 7) sample_unset) as [_ H];
      [sample_resolves|].
    destruct (H ["a"] eq_refl) as [Hnil _]. by apply Hnil.
Defined.

(** ** Registration *)

Lemma bind_inv {A B} (m : M A) (f : A → M B) (w w' : World) (b : B) :
  (m ≫= f) w = (Ret b, w') → ∃ a w1, m w = (Ret a, w1) ∧ f a w1 = (Ret b, w').
Proof.
  rewrite bind_run. destruct (m w) as [[a|] w1]; [|done]. eauto.
Qed.

Lemma load_inv' {A} (store : World → gmap positive A) (p : ptr) (w w' : World) (a : A) :
  load store p w = (Ret a, w') → w' = w ∧ store w !! p = Some a.
Proof. unfold load. destruct (store w !! p); [|done]. by intros [= -> ->]. Qed.

Lemma modify_inv {A} (store : World → gmap positive A) set (p : ptr) (upd : A → A)
    (w w' : World) (u : ()) :
  modify store set p upd w = (Ret u, w') →
  ∃ a, store w !! p = Some a ∧ w' = set (λ s, <[p := upd a]> s) w.
Proof. unfold modify. destruct (store w !! p) as [a|]; [|done]. intros [= _ <-]. eauto. Qed.

Lemma ret_inv {A} (a b : A) (w w' : World) : (mret a : M A) w = (Ret b, w') → b = a ∧ w' = w.
Proof. by intros [= -> ->]. Qed.

Lemma or_else_inv {B} (m k : M (option B)) (w w' : World) (r : option B) :
  or_else m k w = (Ret r, w') →
  (∃ b, r = Some b ∧ m w = (Ret (Some b), w'))
  ∨ (∃ w1, m w = (Ret None, w1) ∧ k w1 = (Ret r, w')).
Proof.
  unfold or_else. intros H. apply bind_inv in H as ([b|] & w1 & Hm & Hk).
  - apply ret_inv in Hk as [-> ->]. left. eauto.
  - right. eauto.
Qed.

Lemma range__cons_inv {A} (x : A) (l : list A) (body : A → M ()) (w w' : World) (u : ()) :
  range_ (x :: l) body w = (Ret u, w') →
  ∃ w1, body x w = (Ret (), w1) ∧ range_ l body w1 = (Ret (), w').
Proof.
  simpl. intros H. apply bind_inv in H as ([] & w1 & Hb & Hr). destruct u. eauto.
Qed.

(** *** Skeletons *)

Lemma same_skeleton_refl (w : World) : same_skeleton w w.
Proof. by repeat split. Qed.

Lemma same_skeleton_trans (w1 w2 w3 : World) :
  same_skeleton w1 w2 → same_skeleton w2 w3 → same_skeleton w1 w3.
Proof.
  intros (? & ? & ? & ? & ? & ? & ?) (? & ? & ? & ? & ? & ? & ?).
  repeat split; congruence.
Qed.

Lemma fmap_insert_erase {A} (erase upd : A → A) (m : gmap positive A) (x : positive) (o : A) :
  m !! x = Some o → erase (upd o) = erase o →
  erase <$> <[x := upd o]> m = erase <$> m.
Proof.
  intros Hx He. rewrite fmap_insert, He. apply insert_id.
  by rewrite lookup_fmap, Hx.
Qed.

Lemma skeleton_Component (w w' : World) (x : ptr) (o' : Component) :
  same_skeleton w w' → components w' !! x = Some o' →
  ∃ o, components w !! x = Some o ∧ erase_Component o = erase_Component o'.
Proof.
  intros (_ & _ & _ & _ & H & _) Hx.
  assert ((erase_Component <$> components w) !! x = Some (erase_Component o')) as H'.
  { by rewrite <- H, lookup_fmap, Hx. }
  rewrite lookup_fmap in H'. destruct (components w !! x) as [o|]; [|done].
  simpl in H'. apply (inj Some) in H'. by exists o.
Qed.

Lemma skeleton_Capability (w w' : World) (x : ptr) (o' : Capability) :
  same_skeleton w w' → capabilities w' !! x = Some o' →
  ∃ o, capabilities w !! x = Some o ∧ erase_Capability o = erase_Capability o'.
Proof.
  intros (_ & _ & _ & _ & _ & H & _) Hx.
  assert ((erase_Capability <$> capabilities w) !! x = Some (erase_Capability o')) as H'.
  { by rewrite <- H, lookup_fmap, Hx. }
  rewrite lookup_fmap in H'. destruct (capabilities w !! x) as [o|]; [|done].
  simpl in H'. apply (inj Some) in H'. by exists o.
Qed.

Lemma skeleton_Component_fwd (w w' : World) (x : ptr) (o : Component) :
  same_skeleton w w' → components w !! x = Some o →
  ∃ o', components w' !! x = Some o' ∧ erase_Component o' = erase_Component o.
Proof.
  intros (_ & _ & _ & _ & H & _) Hx.
  assert ((erase_Component <$> components w') !! x = Some (erase_Component o)) as H'.
  { by rewrite H, lookup_fmap, Hx. }
  rewrite lookup_fmap in H'. destruct (components w' !! x) as [o'|]; [|done].
  simpl in H'. apply (inj Some) in H'. by exists o'.
Qed.

Lemma skeleton_Capability_fwd (w w' : World) (x : ptr) (o : Capability) :
  same_skeleton w w' → capabilities w !! x = Some o →
  ∃ o', capabilities w' !! x = Some o' ∧ erase_Capability o' = erase_Capability o.
Proof.
  intros (_ & _ & _ & _ & _ & H & _) Hx.
  assert ((erase_Capability <$> capabilities w') !! x = Some (erase_Capability o)) as H'.
  { by rewrite H, lookup_fmap, Hx. }
  rewrite lookup_fmap in H'. destruct (capabilities w' !! x) as [o'|]; [|done].
  simpl in H'. apply (inj Some) in H'. by exists o'.
Qed.

Lemma erase_Component_lists (o o' : Component) :
  erase_Component o = erase_Component o' →
  Component_Capabilities o = Component_Capabilities o'
  ∧ Component_Properties o = Component_Properties o'
  ∧ Component_Id o = Component_Id o'.
Proof. unfold erase_Component. by intros [= ? ? ? ? ? ?]. Qed.

Lemma erase_Capability_lists (o o' : Capability) :
  erase_Capability o = erase_Capability o' →
  Capability_Properties o = Capability_Properties o'.
Proof. unfold erase_Capability. by intros [= ? ? ?]. Qed.

(** *** Writes of back-references *)

Section WiringProofs.

Variables (c t : ptr) (w0 : World) (comps : list ptr).

#[local] Abbreviation wiring := (wiring c t w0 comps).
#[local] Abbreviation stable := (stable c t w0 comps).
#[local] Abbreviation wired_Component := (wired_Component t).
#[local] Abbreviation wired_Capability := (wired_Capability w0 comps).
#[local] Abbreviation wired_client := (wired_client c).
#[local] Abbreviation wired_Property := (wired_Property w0 comps).

Lemma wiring_refl (w : World) : wiring w w.
Proof. split; [apply same_skeleton_refl | by repeat split]. Qed.

Lemma wiring_trans (w1 w2 w3 : World) : wiring w1 w2 → wiring w2 w3 → wiring w1 w3.
Proof.
  intros (Hs & H1 & H2 & H3 & H4) (Hs' & H1' & H2' & H3' & H4').
  split; [by eapply same_skeleton_trans|]. repeat split; eauto.
Qed.

Lemma stable_wired_Component (x : ptr) : stable (λ w, wired_Component w x).
Proof. intros w w' (_ & H & _) Hx. by apply H. Qed.

Lemma stable_wired_Capability (x : ptr) : stable (λ w, wired_Capability w x).
Proof. intros w w' (_ & _ & H & _) Hx. by apply H. Qed.

Lemma stable_wired_client (x : ptr) : stable (λ w, wired_client w x).
Proof. intros w w' (_ & _ & _ & H & _) Hx. by apply H. Qed.

Lemma stable_wired_Property (x : ptr) : stable (λ w, wired_Property w x).
Proof. intros w w' (_ & _ & _ & _ & H) Hx. by apply H. Qed.

Lemma stable_and (P Q : World → Prop) : stable P → stable Q → stable (λ w, P w ∧ Q w).
Proof. intros HP HQ w w' Hw [? ?]. split; [by eapply HP | by eapply HQ]. Qed.

Lemma stable_forall {A} (P : A → World → Prop) :
  (∀ a, stable (P a)) → stable (λ w, ∀ a, P a w).
Proof. intros HP w w' Hw H a. by eapply HP. Qed.

Lemma stable_impl (F : Prop) (P : World → Prop) : stable P → stable (λ w, F → P w).
Proof. intros HP w w' Hw H HF. eapply HP; [done|]. by apply H. Qed.

(** [component.parent = t]. *)
Lemma step_Component_parent (x : ptr) (o : Component) (w : World) :
  components w !! x = Some o →
  wiring w (set_components (λ s, <[x := set_Component_parent t o]> s) w)
  ∧ wired_Component (set_components (λ s, <[x := set_Component_parent t o]> s) w) x.
Proof.
  intros Hx. split; [split; [|repeat split]|].
  - repeat split; try done. simpl.
    by apply (fmap_insert_erase erase_Component (set_Component_parent t)).
  - intros y (o' & Hy & Hp).
    destruct (decide (x = y)) as [->|Hne].
    + exists (set_Component_parent t o). simpl. by rewrite lookup_insert_eq.
    + exists o'. simpl. by rewrite lookup_insert_ne.
  - done.
  - done.
  - done.
  - exists (set_Component_parent t o). simpl. by rewrite lookup_insert_eq.
Qed.

(** [property.client = c]. *)
Lemma step_Property_client (x : ptr) (o : Property) (w : World) :
  properties w !! x = Some o →
  wiring w (set_properties (λ s, <[x := set_Property_client c o]> s) w)
  ∧ wired_client (set_properties (λ s, <[x := set_Property_client c o]> s) w) x.
Proof.
  intros Hx. split; [split; [|repeat split]|].
  - repeat split; try done. simpl.
    by apply (fmap_insert_erase erase_Property (set_Property_client c)).
  - done.
  - done.
  - intros y (o' & Hy & Hp).
    destruct (decide (x = y)) as [->|Hne].
    + exists (set_Property_client c o). simpl. by rewrite lookup_insert_eq.
    + exists o'. simpl. by rewrite lookup_insert_ne.
  - intros y (o' & capability & component & Hy & Hp & Hrest).
    destruct (decide (x = y)) as [->|Hne].
    + exists (set_Property_client c o), capability, component.
      simpl. rewrite lookup_insert_eq. split; [done|].
      split; [|done]. simpl. congruence.
    + exists o', capability, component. simpl. by rewrite lookup_insert_ne.
  - exists (set_Property_client c o). simpl. by rewrite lookup_insert_eq.
Qed.

(** [property.parent = capability], for a Capability that holds the
    Property and is held by a Component of the Thing. *)
Lemma step_Property_parent (x capability component : ptr) (o : Property) (w : World) :
  properties w !! x = Some o →
  holds_prop w0 capability x → component ∈ comps → holds_cap w0 component capability →
  wiring w (set_properties (λ s, <[x := set_Property_parent capability o]> s) w)
  ∧ wired_Property (set_properties (λ s, <[x := set_Property_parent capability o]> s) w) x.
Proof.
  intros Hx Hhp Hin Hhc. split; [split; [|repeat split]|].
  - repeat split; try done. simpl.
    by apply (fmap_insert_erase erase_Property (set_Property_parent capability)).
  - done.
  - done.
  - intros y (o' & Hy & Hp).
    destruct (decide (x = y)) as [->|Hne].
    + exists (set_Property_parent capability o). simpl. rewrite lookup_insert_eq.
      split; [done|]. simpl. congruence.
    + exists o'. simpl. by rewrite lookup_insert_ne.
  - intros y (o' & capability' & component' & Hy & Hrest).
    destruct (decide (x = y)) as [->|Hne].
    + exists (set_Property_parent capability o), capability, component.
      simpl. by rewrite lookup_insert_eq.
    + exists o', capability', component'. simpl. by rewrite lookup_insert_ne.
  - exists (set_Property_parent capability o), capability, component.
    simpl. by rewrite lookup_insert_eq.
Qed.

(** [capability.parent = component], for a Component of the Thing that
    holds the Capability. *)
Lemma step_Capability_parent (x component : ptr) (o : Capability) (w : World) :
  capabilities w !! x = Some o →
  component ∈ comps → holds_cap w0 component x →
  wiring w (set_capabilities (λ s, <[x := set_Capability_parent component o]> s) w)
  ∧ wired_Capability
      (set_capabilities (λ s, <[x := set_Capability_parent component o]> s) w) x.
Proof.
  intros Hx Hin Hhc. split; [split; [|repeat split]|].
  - repeat split; try done. simpl.
    by apply (fmap_insert_erase erase_Capability (set_Capability_parent component)).
  - done.
  - intros y (o' & component' & Hy & Hrest).
    destruct (decide (x = y)) as [->|Hne].
    + exists (set_Capability_parent component o), component.
      simpl. by rewrite lookup_insert_eq.
    + exists o', component'. simpl. by rewrite lookup_insert_ne.
  - done.
  - done.
  - exists (set_Capability_parent component o), component.
    simpl. by rewrite lookup_insert_eq.
Qed.

(** A loop whose every iteration is a sequence of such writes, and
    establishes a stable fact about its element, establishes the fact
    for all elements. *)
Lemma range__wiring {A} (G : A → World → Prop) (body : A → M ()) (l : list A) :
  (∀ x, stable (G x)) →
  (∀ x w w', x ∈ l → wiring w0 w → body x w = (Ret (), w') → wiring w w' ∧ G x w') →
  ∀ w w', wiring w0 w → range_ l body w = (Ret (), w') →
    wiring w w' ∧ ∀ x, x ∈ l → G x w'.
Proof.
  intros HG. induction l as [|x l IH]; intros Hbody w w' Hw Hrun.
  - apply ret_inv in Hrun as [_ ->]. split; [apply wiring_refl|].
    intros x Hx. by apply elem_of_nil in Hx.
  - apply range__cons_inv in Hrun as (w1 & Hb & Hr).
    destruct (Hbody x w w1) as [Hw1 HGx]; [by left | done | done |].
    destruct (IH (λ y w w' Hy, Hbody y w w' (list_elem_of_further _ _ _ Hy)) w1 w')
      as [Hw' Hrest]; [by eapply wiring_trans | done |].
    split; [by eapply wiring_trans|].
    intros y Hy. apply elem_of_cons in Hy as [->|Hy]; [|by apply Hrest].
    by eapply HG.
Qed.

(** The loop over the direct Properties of a Component. *)
Lemma loop_direct_properties (l : list ptr) (w w' : World) :
  wiring w0 w →
  range_ l (λ property, modify properties set_properties property (set_Property_client c)) w
  = (Ret (), w') →
  wiring w w' ∧ ∀ x, x ∈ l → wired_client w' x.
Proof.
  apply (range__wiring (λ x w, wired_client w x)).
  - apply stable_wired_client.
  - intros x w1 w2 _ _ Hrun.
    apply modify_inv in Hrun as (o & Hx & ->). by apply step_Property_client.
Qed.

(** The loop over the Properties of a Capability. *)
Lemma loop_capability_properties (capability component : ptr) (l : list ptr)
    (w w' : World) :
  (∀ x, x ∈ l → holds_prop w0 capability x) →
  component ∈ comps → holds_cap w0 component capability →
  wiring w0 w →
  range_ l (λ property,
    modify properties set_properties property (set_Property_client c);;
    modify properties set_properties property (set_Property_parent capability)) w
  = (Ret (), w') →
  wiring w w' ∧ ∀ x, x ∈ l → wired_client w' x ∧ wired_Property w' x.
Proof.
  intros Hl Hin Hhc.
  apply (range__wiring (λ x w, wired_client w x ∧ wired_Property w x)).
  - intros x. apply stable_and; [apply stable_wired_client | apply stable_wired_Property].
  - intros x w1 w3 Hx _ Hrun.
    apply bind_inv in Hrun as ([] & w2 & H1 & H2).
    apply modify_inv in H1 as (o & Ho & ->).
    apply modify_inv in H2 as (o' & Ho' & ->).
    destruct (step_Property_client x o w1 Ho) as [Hw12 Hc].
    destruct (step_Property_parent x capability component o' _ Ho' (Hl x Hx) Hin Hhc)
      as [Hw23 Hp].
    split; [by eapply wiring_trans|]. split; [|done].
    by eapply stable_wired_client.
Qed.

(** The loop over the Capabilities of a Component. *)
Lemma loop_capabilities (component : ptr) (l : list ptr) (w w' : World) :
  component ∈ comps →
  (∀ x, x ∈ l → holds_cap w0 component x) →
  wiring w0 w →
  range_ l (λ capability,
    cap ← load capabilities capability;
    range_ (Capability_Properties cap) (λ property,
      modify properties set_properties property (set_Property_client c);;
      modify properties set_properties property (set_Property_parent capability));;
    modify capabilities set_capabilities capability (set_Capability_parent component)) w
  = (Ret (), w') →
  wiring w w'
  ∧ ∀ capability, capability ∈ l →
      wired_Capability w' capability
      ∧ ∀ property, holds_prop w0 capability property →
          wired_client w' property ∧ wired_Property w' property.
Proof.
  intros Hin Hl.
  apply (range__wiring
    (λ capability w,
       wired_Capability w capability
       ∧ ∀ property, holds_prop w0 capability property →
           wired_client w property ∧ wired_Property w property)).
  - intros x. apply stable_and; [apply stable_wired_Capability|].
    apply stable_forall. intros property. apply stable_impl.
    apply stable_and; [apply stable_wired_client | apply stable_wired_Property].
  - intros capability w1 w3 Hx Hw1 Hrun.
    apply bind_inv in Hrun as (cap & w1' & Hload & Hrun).
    apply load_inv' in Hload as [-> Hcap].
    apply bind_inv in Hrun as ([] & w2 & Hprops & Hmod).
    destruct (skeleton_Capability w0 w1 capability cap) as (k0 & Hk0 & Hek);
      [by destruct Hw1 | done |].
    apply erase_Capability_lists in Hek.
    destruct (loop_capability_properties capability component
                (Capability_Properties cap) w1 w2) as [Hw12 Hfacts]; try done.
    { intros x Hxin. exists k0. by rewrite Hek. }
    { by apply Hl. }
    apply modify_inv in Hmod as (o & Ho & ->).
    destruct (step_Capability_parent capability component o w2 Ho Hin (Hl _ Hx))
      as [Hw23 Hk].
    split; [by eapply wiring_trans|]. split; [done|].
    intros property (k0' & Hk0' & Hpin).
    assert (k0' = k0) as -> by congruence.
    destruct (Hfacts property) as [Hc Hp]; [by rewrite <- Hek|].
    split; [by eapply stable_wired_client | by eapply stable_wired_Property].
Qed.

(** The loop over the Components of the Thing. *)
Lemma loop_components (l : list ptr) (w w' : World) :
  (∀ x, x ∈ l → x ∈ comps) →
  wiring w0 w →
  range_ l (λ component,
    modify components set_components component (set_Component_parent t);;
    comp ← load components component;
    range_ (Component_Properties comp) (λ property,
      modify properties set_properties property (set_Property_client c));;
    range_ (Component_Capabilities comp) (λ capability,
      cap ← load capabilities capability;
      range_ (Capability_Properties cap) (λ property,
        modify properties set_properties property (set_Property_client c);;
        modify properties set_properties property (set_Property_parent capability));;
      modify capabilities set_capabilities capability (set_Capability_parent component))) w
  = (Ret (), w') →
  wiring w w'
  ∧ ∀ component, component ∈ l →
      wired_Component w' component
      ∧ (∀ property, holds_direct w0 component property → wired_client w' property)
      ∧ (∀ capability, holds_cap w0 component capability →
           wired_Capability w' capability
           ∧ ∀ property, holds_prop w0 capability property →
               wired_client w' property ∧ wired_Property w' property).
Proof.
  intros Hl.
  apply (range__wiring
    (λ component w,
       wired_Component w component
       ∧ (∀ property, holds_direct w0 component property → wired_client w property)
       ∧ (∀ capability, holds_cap w0 component capability →
            wired_Capability w capability
            ∧ ∀ property, holds_prop w0 capability property →
                wired_client w property ∧ wired_Property w property))).
  - intros x. apply stable_and; [apply stable_wired_Component|].
    apply stable_and.
    + apply stable_forall. intros property. apply stable_impl, stable_wired_client.
    + apply stable_forall. intros capability. apply stable_impl.
      apply stable_and; [apply stable_wired_Capability|].
      apply stable_forall. intros property. apply stable_impl.
      apply stable_and; [apply stable_wired_client | apply stable_wired_Property].
  - intros component w1 w5 Hx Hw1 Hrun.
    apply bind_inv in Hrun as ([] & w2 & Hmod & Hrun).
    apply modify_inv in Hmod as (o & Ho & ->).
    destruct (step_Component_parent component o w1 Ho) as [Hw12 Hcomp].
    set (w2 := set_components _ w1) in *.
    assert (wiring w0 w2) as Hw2 by (by eapply wiring_trans).
    apply bind_inv in Hrun as (comp & w2' & Hload & Hrun).
    apply load_inv' in Hload as [-> Hcomp2].
    destruct (skeleton_Component w0 w2 component comp) as (co & Hco & Heq);
      [by destruct Hw2 | done |].
    apply erase_Component_lists in Heq as (Hcaps & Hprops & _).
    apply bind_inv in Hrun as ([] & w3 & Hdirect & Hcapsrun).
    destruct (loop_direct_properties _ _ _ Hw2 Hdirect) as [Hw23 Hd].
    assert (wiring w0 w3) as Hw3 by (by eapply wiring_trans).
    destruct (loop_capabilities component (Component_Capabilities comp) w3 w5)
      as [Hw35 Hc]; try done.
    { by apply Hl. }
    { intros x Hxin. exists co. by rewrite Hcaps. }
    assert (wiring w2 w5) as Hw25 by (by eapply wiring_trans).
    split; [by eapply wiring_trans|].
    split; [by eapply stable_wired_Component|].
    split.
    + intros property (co' & Hco' & Hpin).
      assert (co' = co) as -> by congruence.
      eapply stable_wired_client; [exact Hw35|]. apply Hd. by rewrite <- Hprops.
    + intros capability (co' & Hco' & Hcin).
      assert (co' = co) as -> by congruence.
      apply Hc. by rewrite <- Hcaps.
Qed.

End WiringProofs.

(** *** What a successful [abstract] did *)

Lemma abstract_ok_inv (c t : ptr) (w w' : World) :
  abstract c t w = (Ret None, w') →
  ∃ t' cl w1,
    validateThing c t w = (Ret None, w)
    ∧ things w !! t = Some t'
    ∧ wiring c t w (Thing_Components t') w w1
    ∧ (∀ component, component ∈ Thing_Components t' →
         wired_Component t w1 component
         ∧ (∀ property, holds_direct w component property → wired_client c w1 property)
         ∧ (∀ capability, holds_cap w component capability →
              wired_Capability w (Thing_Components t') w1 capability
              ∧ ∀ property, holds_prop w capability property →
                  wired_client c w1 property
                  ∧ wired_Property w (Thing_Components t') w1 property))
    ∧ clients w !! c = Some cl
    ∧ w' = set_clients (λ s, <[c := append_things t cl]> s) w1.
Proof.
  unfold abstract. intros H.
  apply or_else_inv in H as [(b & Hb & _)|(w1 & Hval & H)]; [done|].
  pose proof (readonly_run _ _ _ _ (validateThing_readonly c t) Hval) as ->.
  apply bind_inv in H as (t' & w1 & Hload & H).
  apply load_inv' in Hload as [-> Ht].
  apply bind_inv in H as ([] & w1 & Hloop & H).
  apply bind_inv in H as ([] & w2 & Hmod & H).
  apply ret_inv in H as [_ ->].
  apply modify_inv in Hmod as (cl & Hcl & ->).
  destruct (loop_components c t w (Thing_Components t') (Thing_Components t') w w1)
    as [Hw Hfacts]; [done | apply wiring_refl | done |].
  exists t', cl, w1.
  split; [done|]. split; [done|]. split; [done|]. split; [exact Hfacts|].
  split; [|done]. destruct Hw as ((Hc & _) & _). by rewrite <- Hc.
Qed.

(** A failed [abstract] failed in validation and changed nothing. *)
Lemma abstract_err_inv (c t : ptr) (e : error) (w w' : World) :
  abstract c t w = (Ret (Some e), w') →
  w' = w ∧ validateThing c t w = (Ret (Some e), w).
Proof.
  unfold abstract. intros H.
  apply or_else_inv in H as [(b & [= <-] & Hval)|(w1 & Hval & H)].
  - by pose proof (readonly_run _ _ _ _ (validateThing_readonly c t) Hval) as ->.
  - apply bind_inv in H as (t' & w2 & _ & H).
    apply bind_inv in H as ([] & w3 & _ & H).
    apply bind_inv in H as ([] & w4 & _ & H).
    by apply ret_inv in H as [? _].
Qed.

Lemma abstract_invalid (c t : ptr) (e : error) (w : World) :
  validateThing c t w = (Ret (Some e), w) → abstract c t w = (Ret (Some e), w).
Proof. intros H. unfold abstract, or_else. by rewrite bind_run, H. Qed.

(** A successful [abstract] appends the Thing to the registered Things
    and leaves the Things themselves as they were. *)
Lemma abstract_ok_things (c t : ptr) (w w' : World) :
  abstract c t w = (Ret None, w') →
  things w' = things w
  ∧ ∃ l, registered_things c w = Some l ∧ registered_things c w' = Some (l ++ [t]).
Proof.
  intros H. apply abstract_ok_inv in H as (t' & cl & w1 & _ & _ & Hw & _ & Hcl & ->).
  destruct Hw as ((Hc & Ht & _) & _). split; [done|].
  exists (Client_things cl). unfold registered_things. simpl.
  by rewrite Hcl, lookup_insert_eq.
Qed.

(** *** Back-references after registration *)

Lemma holds_cap_skeleton (w w' : World) (component x : ptr) :
  same_skeleton w w' → holds_cap w component x → holds_cap w' component x.
Proof.
  intros Hs (co & Hco & Hin).
  destruct (skeleton_Component_fwd w w' component co Hs Hco) as (co' & Hco' & He).
  apply erase_Component_lists in He as (Hcaps & _). exists co'. by rewrite Hcaps.
Qed.

Lemma holds_prop_skeleton (w w' : World) (capability x : ptr) :
  same_skeleton w w' → holds_prop w capability x → holds_prop w' capability x.
Proof.
  intros Hs (k0 & Hk0 & Hin).
  destruct (skeleton_Capability_fwd w w' capability k0 Hs Hk0) as (k' & Hk' & He).
  apply erase_Capability_lists in He. exists k'. by rewrite He.
Qed.

(** What registration wires, Component by Component. The tree may
    share Capabilities and Properties between parents, so a
    back-reference is stated to lead to some parent that holds the
    object. *)
Lemma abstract_wires (c t : ptr) (t' : Thing) (w w' : World) :
  abstract c t w = (Ret None, w') →
  things w !! t = Some t' →
  ∀ component, component ∈ Thing_Components t' →
    ∃ comp,
      components w' !! component = Some comp
      ∧ Component_parent comp = Some t
      ∧ (∀ property, property ∈ Component_Properties comp →
           ∃ prop, properties w' !! property = Some prop ∧ Property_client prop = Some c)
      ∧ (∀ capability, capability ∈ Component_Capabilities comp →
           ∃ cap,
             capabilities w' !! capability = Some cap
             ∧ (∃ component',
                  Capability_parent cap = Some component'
                  ∧ component' ∈ Thing_Components t'
                  ∧ holds_cap w' component' capability)
             ∧ (∀ property, property ∈ Capability_Properties cap →
                  ∃ prop capability' component',
                    properties w' !! property = Some prop
                    ∧ Property_client prop = Some c
                    ∧ Property_path property w' = Some (capability', component', t)
                    ∧ holds_prop w' capability' property
                    ∧ holds_cap w' component' capability'
                    ∧ component' ∈ Thing_Components t')).
Proof.
  intros Hab Ht component Hin.
  apply abstract_ok_inv in Hab as (t'' & cl & w1 & _ & Ht'' & Hw & Hfacts & Hcl & ->).
  assert (t'' = t') as -> by congruence.
  destruct Hw as (Hs & _).
  assert (things w1 !! t = Some t') as Ht1.
  { destruct Hs as (_ & -> & _). done. }
  destruct (Hfacts component Hin) as ((comp & Hcomp & Hparent) & Hdirect & Hcaps).
  destruct (skeleton_Component w w1 component comp Hs Hcomp) as (co & Hco & He).
  apply erase_Component_lists in He as (Hlc & Hlp & _).
  exists comp. split; [done|]. split; [done|]. split.
  - intros property Hp. apply Hdirect. exists co. by rewrite Hlp.
  - intros capability Hc.
    destruct (Hcaps capability) as ((cap & component' & Hcap & Hcp & Hin' & Hh) & Hprops).
    { exists co. by rewrite Hlc. }
    exists cap. split; [done|]. split.
    { exists component'. split; [done|]. split; [done|].
      exact (holds_cap_skeleton w w1 _ _ Hs Hh). }
    intros property Hp.
    destruct (skeleton_Capability w w1 capability cap Hs Hcap) as (k0 & Hk0 & Hek).
    apply erase_Capability_lists in Hek.
    destruct (Hprops property) as
      ((prop & Hprop & Hclient) & (prop' & capability' & componentX & Hprop' & Hpp & Hhp & HinX & HhX)).
    { exists k0. by rewrite Hek. }
    assert (prop' = prop) as -> by congruence.
    destruct (Hfacts componentX HinX) as (_ & _ & HcapsX).
    destruct (HcapsX capability' HhX) as ((cap' & component'' & Hcap' & Hcp' & Hin'' & Hh'') & _).
    destruct (Hfacts component'' Hin'') as ((comp'' & Hcomp'' & Hparent'') & _).
    exists prop, capability', component''.
    split; [done|]. split; [done|]. split.
    { unfold Property_path. simpl.
      rewrite Hprop. simpl. rewrite Hpp. simpl. rewrite Hcap'. simpl.
      rewrite Hcp'. simpl. rewrite Hcomp''. simpl. rewrite Hparent''. simpl.
      by rewrite Ht1. }
    split; [exact (holds_prop_skeleton w w1 _ _ Hs Hhp)|].
    split; [exact (holds_cap_skeleton w w1 _ _ Hs Hh'') | done].
Qed.

(** X23: what [abstract] does wire. After a successful [abstract] of a
    Thing, each of its Components points to the Thing; each Property
    held directly by a Component points to the client; each Capability
    points to a Component of the Thing that holds it; and each Property
    held by a Capability points to the client and to a Capability that
    holds it, from which the back-references lead through a Component
    of the Thing to the Thing, so that its path can be built. *)
Theorem abstract_wires_back_references (c t : ptr) (t' : Thing) (w w' : World) :
  abstract c t w = (Ret None, w') →
  things w !! t = Some t' →
  ∀ component, component ∈ Thing_Components t' →
    ∃ comp,
      components w' !! component = Some comp
      ∧ Component_parent comp = Some t
      ∧ (∀ property, property ∈ Component_Properties comp →
           ∃ prop, properties w' !! property = Some prop ∧ Property_client prop = Some c)
      ∧ (∀ capability, capability ∈ Component_Capabilities comp →
           ∃ cap,
             capabilities w' !! capability = Some cap
             ∧ (∃ component',
                  Capability_parent cap = Some component'
                  ∧ component' ∈ Thing_Components t'
                  ∧ holds_cap w' component' capability)
             ∧ (∀ property, property ∈ Capability_Properties cap →
                  ∃ prop capability' component',
                    properties w' !! property = Some prop
                    ∧ Property_client prop = Some c
                    ∧ Property_path property w' = Some (capability', component', t)
                    ∧ holds_prop w' capability' property
                    ∧ holds_cap w' component' capability'
                    ∧ component' ∈ Thing_Components t')).
Proof. exact (abstract_wires c t t' w w'). Qed.

(** Registration of the sample "lamp": the "state" Property of the
    "switch" Capability gets its path. *)
Lemma abstract_wires_back_references_witness :
  ∃ comp,
    components sample.registered !! 1%positive = Some comp
    ∧ Component_parent comp = Some 1%positive
    ∧ (∀ property, property ∈ Component_Properties comp →
         ∃ prop, properties sample.registered !! property = Some prop
                 ∧ Property_client prop = Some 1%positive)
    ∧ (∀ capability, capability ∈ Component_Capabilities comp →
         ∃ cap,
           capabilities sample.registered !! capability = Some cap
           ∧ (∃ component',
                Capability_parent cap = Some component'
                ∧ component' ∈ Thing_Components (sample.thing "lamp" [1%positive])
                ∧ holds_cap sample.registered component' capability)
           ∧ (∀ property, property ∈ Capability_Properties cap →
                ∃ prop capability' component',
                  properties sample.registered !! property = Some prop
                  ∧ Property_client prop = Some 1%positive
                  ∧ Property_path property sample.registered
                    = Some (capability', component', 1%positive)
                  ∧ holds_prop sample.registered capability' property
                  ∧ holds_cap sample.registered component' capability'
                  ∧ component' ∈ Thing_Components (sample.thing "lamp" [1%positive]))).
Proof.
  apply (abstract_wires_back_references 1%positive 1%positive
           (sample.thing "lamp" [1%positive]) sample.world sample.registered).
  - by vm_compute.
  - by vm_compute.
  - by left.
Defined.

(** The sample "lamp" registers, its Component holds the Property
    "level" directly, and after registration that Property has its
    client set but no parent, no path can be built for it, and updating
    it panics. *)
Example abstract_leaves_direct_property_without_parent :
  abstract 1%positive 1%positive sample.world = (Ret None, sample.registered)
  ∧ holds_direct sample.registered 1%positive 2%positive
  ∧ (∃ prop, properties sample.registered !! 2%positive = Some prop
             ∧ Property_client prop = Some 1%positive
             ∧ Property_parent prop = None)
  ∧ Property_path 2%positive sample.registered = None
  ∧ (Property_Update sample.MarshalClient 2%positive "1" sample.registered).1 = Panic.
Proof.
  split; [by vm_compute|]. split.
  { eexists. split; [by vm_compute|]. by left. }
  split.
  { eexists. split; [by vm_compute|]. by split. }
  split; by vm_compute.
Qed.

(** In a tree, where the Capability is held by one Component of the
    Thing only, its parent is that Component. *)
Corollary abstract_wires_unshared_capability (c t component capability : ptr)
    (t' : Thing) (comp : Component) (w w' : World) :
  abstract c t w = (Ret None, w') →
  things w !! t = Some t' →
  component ∈ Thing_Components t' →
  components w' !! component = Some comp →
  capability ∈ Component_Capabilities comp →
  (∀ component', component' ∈ Thing_Components t' →
     holds_cap w' component' capability → component' = component) →
  ∃ cap, capabilities w' !! capability = Some cap
         ∧ Capability_parent cap = Some component.
Proof.
  intros Hab Ht Hin Hcomp Hcap Huniq.
  destruct (abstract_wires c t t' w w' Hab Ht component Hin)
    as (comp' & Hcomp' & _ & _ & Hcaps).
  assert (comp' = comp) as -> by congruence.
  destruct (Hcaps capability Hcap) as (cap & Hc & (component' & Hp & Hin' & Hh) & _).
  exists cap. split; [done|]. by rewrite Hp, (Huniq component' Hin' Hh).
Qed.

(** *** Names *)

(** [TestValidNameRegexp] of [client_test.go]. *)
Example TestValidNameRegexp :
  validNameRegexp_MatchString "Eigenschaft 1" = false
  ∧ validNameRegexp_MatchString "Eigenschaft1" = true.
Proof. by vm_compute. Qed.

(** A Thing with an invalid name on a Property of one of its
    Components is refused, and nothing is registered. *)
Example abstract_invalid_name :
  abstract 1%positive 3%positive sample.world
  = (Ret (Some "Eigenschaft 1 is an invalid name for a property"), sample.world).
Proof. by vm_compute. Qed.

(** *** Batches *)

Lemma range_app_none {A B} (l1 l2 : list A) (body : A → M (option B)) (w w1 : World) :
  range l1 body w = (Ret None, w1) → range (l1 ++ l2) body w = range l2 body w1.
Proof.
  revert w. induction l1 as [|x l1 IH]; intros w H.
  - by apply ret_inv in H as [_ ->].
  - simpl in *. apply bind_inv in H as ([b|] & w2 & Hb & H).
    + by apply ret_inv in H as [? _].
    + rewrite bind_run, Hb. by apply IH.
Qed.

Lemma range_none_inv {A B} (l : list A) (body : A → M (option B)) (w w' : World) :
  (∀ x, readonly (body x)) →
  range l body w = (Ret None, w') → ∀ x, x ∈ l → body x w = (Ret None, w).
Proof.
  intros Hro. induction l as [|y l IH]; intros H x Hx.
  - by apply elem_of_nil in Hx.
  - simpl in H. apply bind_inv in H as ([b|] & w2 & Hb & H).
    + by apply ret_inv in H as [? _].
    + pose proof (readonly_run _ _ _ _ (Hro y) Hb) as ->.
      apply elem_of_cons in Hx as [->|Hx]; [done | by apply IH].
Qed.

(** A loop all of whose iterations either go on or return [b], and
    which reaches an iteration that returns [b], returns [b]. *)
Lemma range_some {A B} (l1 l2 : list A) (x : A) (b : B) (body : A → M (option B))
    (w : World) :
  (∀ y, y ∈ l1 → body y w = (Ret None, w) ∨ body y w = (Ret (Some b), w)) →
  body x w = (Ret (Some b), w) →
  range (l1 ++ x :: l2) body w = (Ret (Some b), w).
Proof.
  induction l1 as [|y l1 IH]; intros Hl1 Hx; simpl.
  - by rewrite bind_run, Hx.
  - rewrite bind_run. destruct (Hl1 y) as [-> | ->]; [by left | | done].
    apply IH; [|done]. intros z Hz. apply Hl1. by right.
Qed.

Lemma Abstract_cons (c t : ptr) (ts : list ptr) (w : World) :
  Abstract c (t :: ts) w
  = match abstract c t w with
    | (Ret (Some e), w1) => (Ret (Some e), w1)
    | (Ret None, w1) => Abstract c ts w1
    | (Panic, w1) => (Panic, w1)
    end.
Proof.
  unfold Abstract. simpl. rewrite bind_run.
  by destruct (abstract c t w) as [[[e|]|] w1].
Qed.

(** A successful [Abstract] appends the batch, in order, to the
    registered Things. *)
Lemma Abstract_ok_things (c : ptr) (ts : list ptr) :
  ∀ w w1, Abstract c ts w = (Ret None, w1) →
    things w1 = things w
    ∧ ∀ l, registered_things c w = Some l → registered_things c w1 = Some (l ++ ts).
Proof.
  induction ts as [|t ts IH]; intros w w1 H.
  - apply ret_inv in H as [_ ->]. split; [done|]. intros l Hl. by rewrite app_nil_r.
  - rewrite Abstract_cons in H.
    destruct (abstract c t w) as [[[e|]|] w2] eqn:Hab; try done.
    apply abstract_ok_things in Hab as (Ht & l0 & Hl0 & Hl2).
    apply IH in H as [Ht' Hreg]. split; [congruence|].
    intros l Hl. assert (l0 = l) as -> by congruence.
    rewrite (Hreg _ Hl2). by rewrite <- app_assoc.
Qed.

Lemma validateThing_client (c t : ptr) (r : option error) (w w' : World) :
  validateThing c t w = (Ret r, w') → ∃ l, registered_things c w = Some l.
Proof.
  unfold validateThing. intros H.
  apply bind_inv in H as (cl & w1 & Hload & _).
  apply load_inv' in Hload as [_ Hcl].
  exists (Client_things cl). unfold registered_things. by rewrite Hcl.
Qed.

(** A Thing with the identifier of a registered Thing does not validate. *)
Lemma validateThing_duplicate (c t1 t2 : ptr) (cl : Client) (th1 th2 : Thing)
    (l1 l2 : list ptr) (w : World) :
  clients w !! c = Some cl → Client_things cl = l1 ++ t1 :: l2 →
  (∀ p, p ∈ l1 → is_Some (things w !! p)) →
  things w !! t1 = Some th1 → things w !! t2 = Some th2 →
  Thing_Id th2 = Thing_Id th1 →
  validateThing c t2 w
  = (Ret (Some ("The thing with the Id " +:+ Thing_Id th2 +:+ " already exists")), w).
Proof.
  intros Hcl Hts Hl1 Ht1 Ht2 Hid. unfold validateThing.
  rewrite bind_run, (load_run _ _ _ _ Hcl), Hts. unfold or_else.
  rewrite bind_run. rewrite (range_some l1 l2 t1
    ("The thing with the Id " +:+ Thing_Id th2 +:+ " already exists")); [done| |].
  - intros p Hp. destruct (Hl1 p Hp) as [th Hth].
    rewrite bind_run, (load_run _ _ _ _ Hth), bind_run, (load_run _ _ _ _ Ht2).
    destruct (decide (Thing_Id th = Thing_Id th2)); [by right | by left].
  - rewrite bind_run, (load_run _ _ _ _ Ht1), bind_run, (load_run _ _ _ _ Ht2).
    destruct (decide (Thing_Id th1 = Thing_Id th2)); [done | congruence].
Qed.

(** A successful validation loaded every registered Thing. *)
Lemma validateThing_ok_loaded (c t : ptr) (cl : Client) (w w' : World) :
  validateThing c t w = (Ret None, w') → clients w !! c = Some cl →
  ∀ p, p ∈ Client_things cl → is_Some (things w !! p).
Proof.
  unfold validateThing. intros H Hcl p Hp.
  rewrite bind_run, (load_run _ _ _ _ Hcl) in H.
  apply or_else_inv in H as [(b & ? & _)|(w1 & Hloop & _)]; [done|].
  eapply range_none_inv in Hloop; [| |exact Hp].
  - apply bind_inv in Hloop as (th & w2 & Hload & _).
    apply load_inv' in Hload as [_ Hth]. by exists th.
  - intros x. solve_readonly.
Qed.

(** C6: registration of a batch is not all-or-nothing. When the Things
    [pre] of a batch register and the next Thing [t] fails validation
    with [err], [Abstract] of the whole batch returns [err], the
    registered Things are the former ones followed by [pre] (so [pre]
    stays registered, and neither [t] nor a later Thing of the batch is
    added), and nothing else differs from registering [pre] alone. In
    particular, after a Thing is registered, registering a Thing with
    the same identifier fails with the duplicate error and leaves the
    first registered. *)
Theorem Abstract_partial_failure :
  (∀ (c t : ptr) (pre post : list ptr) (err : error) (w w1 : World),
     Abstract c pre w = (Ret None, w1) →
     validateThing c t w1 = (Ret (Some err), w1) →
     Abstract c (pre ++ t :: post) w = (Ret (Some err), w1)
     ∧ ∃ l, registered_things c w = Some l
            ∧ registered_things c w1 = Some (l ++ pre))
  ∧ (∀ (c t1 t2 : ptr) (th1 th2 : Thing) (w w1 : World),
       Abstract c [t1] w = (Ret None, w1) →
       things w !! t1 = Some th1 → things w !! t2 = Some th2 →
       Thing_Id th2 = Thing_Id th1 →
       Abstract c [t2] w1
       = (Ret (Some ("The thing with the Id " +:+ Thing_Id th2 +:+ " already exists")), w1)
       ∧ ∃ l, registered_things c w1 = Some (l ++ [t1])).
Proof.
  split.
  - intros c t pre post err w w1 Hpre Hval. split.
    + unfold Abstract in *. rewrite (range_app_none _ _ _ _ _ Hpre).
      fold (Abstract c (t :: post) w1). rewrite Abstract_cons.
      by rewrite (abstract_invalid c t err w1 Hval).
    + assert (∃ l, registered_things c w = Some l) as [l Hl].
      { destruct pre as [|t0 pre].
        - apply ret_inv in Hpre as [_ ->]. by eapply validateThing_client.
        - rewrite Abstract_cons in Hpre.
          destruct (abstract c t0 w) as [[[e|]|] w2] eqn:Hab; try done.
          apply abstract_ok_things in Hab as (_ & l & Hl & _). by exists l. }
      apply Abstract_ok_things in Hpre as [_ Hreg].
      exists l. split; [done | by apply Hreg].
  - intros c t1 t2 th1 th2 w w1 Hab Ht1 Ht2 Hid.
    rewrite Abstract_cons in Hab.
    destruct (abstract c t1 w) as [[[e|]|] w2] eqn:Hab1; try done.
    apply ret_inv in Hab as [_ <-].
    apply abstract_ok_inv in Hab1 as (t' & cl & w3 & Hval & _ & Hw & _ & Hcl & ->).
    destruct Hw as ((Hclients & Hthings & _) & _).
    pose proof (validateThing_ok_loaded c t1 cl w w Hval Hcl) as Hloaded.
    set (w1 := set_clients _ w3).
    assert (things w1 = things w) as Hthings1 by done.
    assert (clients w1 !! c = Some (append_things t1 cl)) as Hcl1.
    { unfold w1. simpl. by rewrite lookup_insert_eq. }
    split.
    + rewrite Abstract_cons.
      rewrite (abstract_invalid c t2
        ("The thing with the Id " +:+ Thing_Id th2 +:+ " already exists") w1); [done|].
      apply (validateThing_duplicate c t1 t2 (append_things t1 cl) th1 th2
               (Client_things cl) []); try done.
      * intros p Hp. rewrite Hthings1. by apply Hloaded.
      * by rewrite Hthings1.
      * by rewrite Hthings1.
    + exists (Client_things cl). unfold registered_things. by rewrite Hcl1.
Qed.

(** The sample batch "fan", "plug", "lamp": "fan" registers, "plug" has
    a Property named "Eigenschaft 1" and is refused, "lamp" is never
    looked at. Then a second "lamp" after the first is refused as a
    duplicate. *)
Lemma Abstract_partial_failure_witness :
  (Abstract 1%positive ([4%positive] ++ 3%positive :: [1%positive]) sample.world
   = (Ret (Some "Eigenschaft 1 is an invalid name for a property"),
      (Abstract 1%positive [4%positive] sample.world).2)
   ∧ ∃ l, registered_things 1%positive sample.world = Some l
          ∧ registered_things 1%positive (Abstract 1%positive [4%positive] sample.world).2
            = Some (l ++ [4%positive]))
  ∧ (Abstract 1%positive [2%positive] sample.registered
     = (Ret (Some ("The thing with the Id " +:+ Thing_Id (sample.thing "lamp" [])
                   +:+ " already exists")), sample.registered)
     ∧ ∃ l, registered_things 1%positive sample.registered = Some (l ++ [1%positive])).
Proof.
  destruct Abstract_partial_failure as [HA HB]. split.
  - apply HA; by vm_compute.
  - apply (HB 1%positive 1%positive 2%positive (sample.thing "lamp" [1%positive])
             (sample.thing "lamp" []) sample.world); by vm_compute.
Defined.

(** ** The receive loop *)

Lemma ReadUvarint_single_small (b : byte) :
  Byte.to_N b < 128 → binary_read.ReadUvarint [b] = ((Byte.to_N b, None), []).
Proof.
  intros Hb. unfold binary_read.ReadUvarint. simpl.
  destruct (N.ltb_spec (Byte.to_N b) 128); [|lia].
  rewrite N.shiftl_0_r, uint64_small; [done|].
  eapply N.lt_trans; [exact Hb | by vm_compute].
Qed.

(** A lone continuation byte is consumed and the call fails: nothing of
    it is left in the buffer. *)
Lemma ReadUvarint_single_continuation (b : byte) :
  128 <= Byte.to_N b →
  ∃ x, binary_read.ReadUvarint [b] = ((x, Some binary.ErrUnexpectedEOF), []).
Proof.
  intros Hb. unfold binary_read.ReadUvarint. simpl.
  destruct (N.ltb_spec (Byte.to_N b) 128); [lia|]. eauto.
Qed.

Lemma Read_size (n : nat) (conn conn' : net.Conn) (p : list byte) :
  (0 < n)%nat → net.Read n conn = (Some p, conn') → (net.size conn' < net.size conn)%nat.
Proof.
  intros Hn. destruct conn as [|ch cs]; [done|]. simpl. intros [= <- <-].
  destruct (drop n ch) as [|x ch'] eqn:E; [lia|].
  assert (length (drop n ch) = S (length ch')) as Hlen by (by rewrite E).
  rewrite length_drop in Hlen. simpl. lia.
Qed.

Section ReadLoop.

Context {Msg : Type}.
Variable Unmarshal : list byte → option Msg.

(** The inner loop returns, with no more left on the connection than
    before. *)
Lemma readPayload_total (fuel : nat) :
  ∀ conn mb received expected,
    (net.size conn < fuel)%nat →
    ∃ conn' mb', readPayload fuel conn mb received expected = Some (conn', mb')
                 ∧ (net.size conn' ≤ net.size conn)%nat.
Proof.
  induction fuel as [|fuel IH]; intros conn mb received expected Hfuel; [lia|].
  simpl. destruct (received <? expected) eqn:Hlt; [|by eauto].
  apply N.ltb_lt in Hlt.
  destruct (net.Read (N.to_nat (expected - received)) conn) as [[p|] conn'] eqn:Hread.
  - apply Read_size in Hread; [|lia].
    destruct (IH conn' (bytes.Write mb p) (received + N.of_nat (length p)) expected)
      as (conn'' & mb' & -> & Hsize); [lia|].
    exists conn'', mb'. split; [done | lia].
  - destruct conn; [|done]. injection Hread as <-. eauto.
Qed.

(** The receive loop returns: [S (net.size conn)] iterations are enough. *)
Lemma readLoop_total (fuel : nat) :
  ∀ conn mb lb q,
    (net.size conn < fuel)%nat → is_Some (readLoop Unmarshal fuel conn mb lb q).
Proof.
  induction fuel as [|fuel IH]; intros conn mb lb q Hfuel; [lia|].
  simpl. destruct (net.Read 1 conn) as [[p|] conn1] eqn:Hread; [|done].
  apply Read_size in Hread; [|lia].
  case_bool_decide; [apply IH; lia|].
  destruct (binary_read.ReadUvarint (bytes.Write lb p)) as [[x [e|]] lb1].
  - apply IH. lia.
  - destruct (readPayload_total fuel conn1 mb 0 x) as (conn2 & mb1 & -> & Hsize); [lia|].
    destruct (Unmarshal (bytes.Bytes mb1)); apply IH; lia.
Qed.

(** [read] is the result of the loop. *)
Lemma read_returns (conn : net.Conn) :
  readLoop Unmarshal (S (net.size conn)) conn [] [] [] = Some (read Unmarshal conn).
Proof.
  unfold read. destruct (readLoop_total (S (net.size conn)) conn [] [] []) as [q ->];
    [lia | done].
Qed.

(** The inner loop reads exactly the payload, however the stream is cut
    into chunks. *)
Lemma readPayload_exact (fuel : nat) :
  ∀ conn data rest received expected,
    concat conn = data ++ rest →
    N.of_nat (length data) = expected - received →
    (net.size conn < fuel)%nat →
    ∃ conn', concat conn' = rest ∧ (net.size conn' ≤ net.size conn)%nat
             ∧ ∀ mb, readPayload fuel conn mb received expected = Some (conn', mb ++ data).
Proof.
  induction fuel as [|fuel IH]; intros conn data rest received expected Hcat Hlen Hfuel;
    [lia|].
  simpl. destruct (N.ltb_spec received expected) as [Hlt|Hge].
  2:{ assert (data = []) as -> by (apply length_zero_iff_nil; lia).
      exists conn. split; [done|]. split; [done|]. intros mb. by rewrite app_nil_r. }
  assert (N.to_nat (expected - received) = length data) as -> by lia.
  destruct conn as [|ch cs].
  { simpl in Hcat. destruct data; [simpl in Hlen; lia | done]. }
  simpl in Hcat, Hfuel |- *.
  destruct (decide (length ch ≤ length data)%nat) as [Hle|Hgt].
  - rewrite take_ge, drop_ge by done.
    assert (ch = take (length ch) data) as Hch.
    { rewrite <- (take_app_le data rest) by done.
      by rewrite <- Hcat, take_app_length. }
    assert (concat cs = drop (length ch) data ++ rest) as Hcs.
    { rewrite <- drop_app_le by done. by rewrite <- Hcat, drop_app_length. }
    destruct (IH cs (drop (length ch) data) rest
                (received + N.of_nat (length ch)) expected) as (conn' & Hrest & Hsize & Hrun).
    + done.
    + rewrite length_drop. lia.
    + lia.
    + exists conn'. split; [done|]. split; [lia|]. intros mb.
      rewrite Hrun. unfold bytes.Write. rewrite <- app_assoc.
      rewrite Hch at 1. by rewrite take_drop.
  - assert (take (length data) ch = data) as Htake.
    { rewrite <- (take_app_le ch (concat cs)) by lia.
      by rewrite Hcat, take_app_length. }
    assert (drop (length data) ch ++ concat cs = rest) as Hdrop.
    { rewrite <- drop_app_le by lia. by rewrite Hcat, drop_app_length. }
    rewrite Htake.
    destruct (drop (length data) ch) as [|x ch'] eqn:E.
    { assert (length (drop (length data) ch) = 0%nat) as Hl by (by rewrite E).
      rewrite length_drop in Hl. lia. }
    exists ((x :: ch') :: cs).
    assert (length (drop (length data) ch) = S (length ch')) as Hl by (by rewrite E).
    rewrite length_drop in Hl.
    split; [done|]. split; [simpl; lia|]. intros mb.
    destruct fuel; simpl.
    + destruct (N.ltb_spec (received + N.of_nat (length data)) expected); [lia | done].
    + destruct (N.ltb_spec (received + N.of_nat (length data)) expected); [lia | done].
Qed.

(** When the stream is exhausted the loop ends with the queue it has. *)
Lemma readLoop_end (conn : net.Conn) :
  ∀ fuel mb q,
    concat conn = [] → (net.size conn < fuel)%nat →
    readLoop Unmarshal fuel conn mb [] q = Some q.
Proof.
  induction conn as [|ch cs IH]; intros fuel mb q Hcat Hfuel.
  - destruct fuel; [lia | done].
  - simpl in Hcat, Hfuel. apply app_eq_nil in Hcat as [-> Hcs].
    destruct fuel as [|fuel]; [lia|]. simpl. apply IH; [done | lia].
Qed.

(** One frame with a one-byte length prefix: the payload is appended to
    [messageBuf], which is decoded as a whole; on failure it is kept. *)
Lemma readLoop_frame (conn : net.Conn) :
  ∀ fuel (b : byte) (data rest : list byte),
    concat conn = b :: data ++ rest →
    Byte.to_N b < 128 → N.of_nat (length data) = Byte.to_N b →
    (net.size conn < fuel)%nat →
    ∃ conn' fuel',
      (net.size conn' < fuel')%nat ∧ concat conn' = rest
      ∧ ∀ mb q,
          readLoop Unmarshal fuel conn mb [] q
          = match Unmarshal (mb ++ data) with
            | None => readLoop Unmarshal fuel' conn' (mb ++ data) [] q
            | Some m => readLoop Unmarshal fuel' conn' [] [] (q ++ [m])
            end.
Proof.
  induction conn as [|ch cs IH]; intros fuel b data rest Hcat Hb Hlen Hfuel; [done|].
  simpl in Hcat, Hfuel. destruct fuel as [|fuel]; [lia|].
  destruct ch as [|b' ch'].
  - destruct (IH fuel b data rest) as (conn' & fuel' & Hf & Hrest & Hrun);
      [done | done | done | lia |].
    exists conn', fuel'. split; [done|]. split; [done|].
    intros mb q. simpl. apply Hrun.
  - simpl in Hcat. injection Hcat as -> Hcat.
    set (conn1 := match drop 1 (b :: ch') with [] => cs | ch'' => ch'' :: cs end).
    assert (concat conn1 = data ++ rest ∧ (net.size conn1 < fuel)%nat) as [Hcat1 Hsize1].
    { unfold conn1. simpl. rewrite drop_0. destruct ch'; simpl in *; split; (done || lia). }
    destruct (readPayload_exact fuel conn1 data rest 0 (Byte.to_N b))
      as (conn2 & Hrest & Hsize2 & Hrun); [done | lia | done |].
    exists conn2, fuel. split; [lia|]. split; [done|].
    intros mb q.
    change (readLoop Unmarshal (S fuel) ((b :: ch') :: cs) mb [] q)
      with (match binary_read.ReadUvarint [b] with
            | ((_, Some _), lengthBuf1) => readLoop Unmarshal fuel conn1 mb lengthBuf1 q
            | ((expectedLength, None), lengthBuf1) =>
                match readPayload fuel conn1 mb 0 expectedLength with
                | None => None
                | Some (conn2, messageBuf1) =>
                    match Unmarshal (bytes.Bytes messageBuf1) with
                    | None => readLoop Unmarshal fuel conn2 messageBuf1 [] q
                    | Some serverMessage =>
                        readLoop Unmarshal fuel conn2 [] [] (q ++ [serverMessage])
                    end
                end
            end).
    by rewrite (ReadUvarint_single_small b Hb), Hrun.
Qed.

(** A byte with the continuation bit set, read as the first byte of a
    length prefix, is dropped: the loop goes on as if it had not been
    sent. *)
Lemma readLoop_skip (conn : net.Conn) :
  ∀ fuel (b : byte) (rest : list byte),
    concat conn = b :: rest → 128 <= Byte.to_N b → (net.size conn < fuel)%nat →
    ∃ conn' fuel',
      (net.size conn' < fuel')%nat ∧ concat conn' = rest
      ∧ ∀ mb q, readLoop Unmarshal fuel conn mb [] q = readLoop Unmarshal fuel' conn' mb [] q.
Proof.
  induction conn as [|ch cs IH]; intros fuel b rest Hcat Hb Hfuel; [done|].
  simpl in Hcat, Hfuel. destruct fuel as [|fuel]; [lia|].
  destruct ch as [|b' ch'].
  - destruct (IH fuel b rest) as (conn' & fuel' & Hf & Hrest & Hrun); [done | done | lia |].
    exists conn', fuel'. split; [done|]. split; [done|].
    intros mb q. simpl. apply Hrun.
  - simpl in Hcat. injection Hcat as -> Hcat.
    set (conn1 := match drop 1 (b :: ch') with [] => cs | ch'' => ch'' :: cs end).
    assert (concat conn1 = rest ∧ (net.size conn1 < fuel)%nat) as [Hcat1 Hsize1].
    { unfold conn1. simpl. rewrite drop_0. destruct ch'; simpl in *; split; (done || lia). }
    exists conn1, fuel. split; [done|]. split; [done|].
    intros mb q.
    destruct (ReadUvarint_single_continuation b Hb) as [x Hx].
    change (readLoop Unmarshal (S fuel) ((b :: ch') :: cs) mb [] q)
      with (match binary_read.ReadUvarint [b] with
            | ((_, Some _), lengthBuf1) => readLoop Unmarshal fuel conn1 mb lengthBuf1 q
            | ((expectedLength, None), lengthBuf1) =>
                match readPayload fuel conn1 mb 0 expectedLength with
                | None => None
                | Some (conn2, messageBuf1) =>
                    match Unmarshal (bytes.Bytes messageBuf1) with
                    | None => readLoop Unmarshal fuel conn2 messageBuf1 [] q
                    | Some serverMessage =>
                        readLoop Unmarshal fuel conn2 [] [] (q ++ [serverMessage])
                    end
                end
            end).
    by rewrite Hx.
Qed.

End ReadLoop.

(** *** Frames of fewer than 128 bytes *)

Lemma frame_short (data : list byte) :
  N.of_nat (length data) < 128 →
  frame data = Some (byte_of_N (N.of_nat (length data)) :: data).
Proof. intros H. unfold frame. by rewrite lenPrefix_short. Qed.

(** Round trip for short messages: when every encoded message has fewer
    than 128 bytes, the frames written by [send], delivered in chunks
    of any sizes (one byte per [Read] included), are received as the
    original messages in the original order. *)
Lemma read_short_frames {Msg} (Marshal : Msg → list byte) (Unmarshal : list byte → option Msg)
    (msgs : list Msg) (frames : list (list byte)) (conn : net.Conn) :
  (∀ m, m ∈ msgs → N.of_nat (length (Marshal m)) < 128 ∧ Unmarshal (Marshal m) = Some m) →
  Forall2 (λ m f, frame (Marshal m) = Some f) msgs frames →
  concat conn = concat frames →
  read Unmarshal conn = msgs.
Proof.
  intros Hmsgs Hframes Hcat.
  enough (∀ fuel q, (net.size conn < fuel)%nat →
            readLoop Unmarshal fuel conn [] [] q = Some (q ++ msgs)) as H.
  { unfold read. by rewrite H by lia. }
  clear -Hmsgs Hframes Hcat. revert conn Hcat.
  induction Hframes as [|m f msgs frames Hf _ IH]; intros conn Hcat fuel q Hfuel.
  - rewrite app_nil_r. by apply readLoop_end.
  - destruct (Hmsgs m) as [Hlen Hrt]; [by left|].
    rewrite frame_short in Hf by done. injection Hf as <-.
    simpl in Hcat.
    destruct (readLoop_frame Unmarshal conn fuel _ (Marshal m) (concat frames) Hcat)
      as (conn' & fuel' & Hfuel' & Hcat' & Hrun).
    { by rewrite to_N_byte_of_N by lia. }
    { by rewrite to_N_byte_of_N by lia. }
    { done. }
    rewrite Hrun. simpl. rewrite Hrt.
    rewrite IH; [by rewrite <- app_assoc | | done | done].
    intros m' Hm'. apply Hmsgs. by right.
Qed.

(** *** A frame after a malformed frame *)

(** C5 (as the code behaves): when a complete frame whose payload [bad]
    does not decode is followed by a complete frame with payload
    [data], both shorter than 128 bytes, the loop decodes [bad ++ data]:
    the bytes of the malformed frame are still in the message buffer.
    The second message is emitted only if that concatenation happens to
    decode, and then as whatever it decodes to. *)
Theorem read_after_malformed {Msg} (Unmarshal : list byte → option Msg)
    (bad data fb fd : list byte) (conn : net.Conn) :
  Unmarshal bad = None →
  N.of_nat (length bad) < 128 → N.of_nat (length data) < 128 →
  frame bad = Some fb → frame data = Some fd →
  concat conn = fb ++ fd →
  read Unmarshal conn
  = match Unmarshal (bad ++ data) with
    | Some m => [m]
    | None => []
    end.
Proof.
  intros Hbad Hlb Hld Hfb Hfd Hcat.
  rewrite frame_short in Hfb, Hfd by done.
  injection Hfb as <-. injection Hfd as <-.
  simpl in Hcat. unfold read.
  destruct (readLoop_frame Unmarshal conn (S (net.size conn)) _ bad _ Hcat)
    as (conn1 & fuel1 & Hfuel1 & Hcat1 & Hrun1).
  { by rewrite to_N_byte_of_N by lia. }
  { by rewrite to_N_byte_of_N by lia. }
  { lia. }
  rewrite Hrun1. simpl. rewrite Hbad.
  rewrite <- (app_nil_r data) in Hcat1 at 2.
  destruct (readLoop_frame Unmarshal conn1 fuel1 _ data [] Hcat1)
    as (conn2 & fuel2 & Hfuel2 & Hcat2 & Hrun2).
  { by rewrite to_N_byte_of_N by lia. }
  { by rewrite to_N_byte_of_N by lia. }
  { done. }
  rewrite Hrun2.
  destruct (Unmarshal (bad ++ data)) as [m|]; by rewrite readLoop_end.
Qed.

(** With the sample codec: the frame of the undecodable payload [00],
    then the frame of the message [01], one byte per [Read]. The
    message is lost. *)
Lemma read_after_malformed_witness :
  read sample.Unmarshal (net.bytewise ([x01; x00] ++ [x02; x0a; x01])) = [].
Proof.
  apply (read_after_malformed sample.Unmarshal [x00] (sample.Marshal [x01])
           [x01; x00] [x02; x0a; x01]); by vm_compute.
Defined.

(** The same message alone, or after a well-formed frame, is received. *)
Example read_well_formed :
  read sample.Unmarshal (net.bytewise [x02; x0a; x01]) = [[x01]]
  ∧ read sample.Unmarshal (net.bytewise ([x01; x0a] ++ [x02; x0a; x01])) = [[]; [x01]].
Proof. by vm_compute. Qed.

(** *** Frames of 128 bytes and more *)

Lemma lenPrefix_two_bytes (n : N) :
  128 <= n < 16384 →
  lenPrefix n = Some [byte_of_N (N.lor (n mod 256) 128); byte_of_N (N.shiftr n 7)].
Proof.
  intros [Hlo Hhi]. unfold lenPrefix. rewrite uint64_small.
  2:{ eapply N.lt_trans; [exact Hhi | by vm_compute]. }
  assert (N.shiftr n 7 < 128) as Hs.
  { rewrite N.shiftr_div_pow2. apply N.Div0.div_lt_upper_bound.
    change (2 ^ 7 * 128) with 16384. done. }
  simpl. destruct (N.leb_spec 128 n); [|lia].
  destruct (N.leb_spec 128 (N.shiftr n 7)); [lia | done].
Qed.

(** What the loop does with a frame whose prefix has two bytes: the
    first prefix byte is dropped, the second is taken for the whole
    length, so only the first [len / 128] bytes of the payload are
    decoded as the message, and the rest of the payload is read as
    further frames. *)
Lemma read_two_byte_prefix {Msg} (Unmarshal : list byte → option Msg)
    (data f : list byte) (conn : net.Conn) :
  128 <= N.of_nat (length data) < 16384 →
  frame data = Some f → concat conn = f →
  ∃ conn' fuel',
    (net.size conn' < fuel')%nat
    ∧ concat conn' = drop (N.to_nat (N.of_nat (length data) / 128)) data
    ∧ read Unmarshal conn
      = default []
          match Unmarshal (take (N.to_nat (N.of_nat (length data) / 128)) data) with
          | None =>
              readLoop Unmarshal fuel' conn'
                (take (N.to_nat (N.of_nat (length data) / 128)) data) [] []
          | Some m => readLoop Unmarshal fuel' conn' [] [] [m]
          end.
Proof.
  intros Hlen Hf Hcat. unfold frame in Hf.
  rewrite lenPrefix_two_bytes in Hf by done. injection Hf as <-.
  set (n := N.of_nat (length data)) in *.
  set (k := N.to_nat (n / 128)).
  assert (n / 128 < 128) as Hk.
  { apply N.Div0.div_lt_upper_bound. lia. }
  assert (k ≤ length data)%nat as Hkl.
  { unfold k. pose proof (N.Div0.div_le_upper_bound n 128 n). lia. }
  destruct (continuation_byte (n mod 256)) as (Hlt & Hge & _); [by apply N.mod_lt|].
  simpl in Hcat.
  destruct (readLoop_skip Unmarshal conn (S (net.size conn)) _ _ Hcat)
    as (conn1 & fuel1 & Hfuel1 & Hcat1 & Hrun1).
  { by rewrite to_N_byte_of_N. }
  { lia. }
  rewrite <- (take_drop k data) in Hcat1.
  destruct (readLoop_frame Unmarshal conn1 fuel1 _ _ _ Hcat1)
    as (conn2 & fuel2 & Hfuel2 & Hcat2 & Hrun2).
  { rewrite to_N_byte_of_N; rewrite N.shiftr_div_pow2; change (2 ^ 7) with 128; lia. }
  { rewrite to_N_byte_of_N; rewrite N.shiftr_div_pow2; change (2 ^ 7) with 128; [|lia].
    rewrite length_take. unfold k in *. lia. }
  { done. }
  exists conn2, fuel2. split; [done|]. split; [done|].
  unfold read. by rewrite Hrun1, Hrun2.
Qed.

(** C1 (as the code behaves): a message whose encoding has 128 bytes is
    not received. With the sample codec, the message of 127 zero bytes
    encodes to 128 bytes and is framed with the two-byte prefix
    [80 01]; from that frame, delivered one byte per [Read] or in one
    piece, the loop emits one empty message instead of the original:
    it drops [80], takes [01] for the length, decodes the first payload
    byte alone and reads the other 127 payload bytes as empty frames. *)
Theorem read_long_message_not_received :
  let m := replicate 127 x00 in
  let wire := [x80; x01] ++ sample.Marshal m in
  (∀ m', sample.Unmarshal (sample.Marshal m') = Some m')
  ∧ length (sample.Marshal m) = 128%nat
  ∧ frame (sample.Marshal m) = Some wire
  ∧ read sample.Unmarshal (net.bytewise wire) = [[]]
  ∧ read sample.Unmarshal [wire] = [[]]
  ∧ [[]] ≠ [m].
Proof.
  cbv zeta. split; [done|]. split; [done|]. split; [by vm_compute|].
  split; [by vm_compute|]. split; [by vm_compute | done].
Qed.

(** A message of 127 encoded bytes, the longest with a one-byte prefix,
    is received. *)
Example read_longest_short_message :
  let m := replicate 126 x00 in
  frame (sample.Marshal m) = Some (x7f :: sample.Marshal m)
  ∧ read sample.Unmarshal (net.bytewise (x7f :: sample.Marshal m)) = [m].
Proof. cbv zeta. split; by vm_compute. Qed.

(** * Further properties of the device model *)

(** ** Deregistration of a registered Thing *)

Lemma RemoveThing_loop_found (t thing : ptr) (t' th : Thing) (l1 l2 : list ptr) (w : World) :
  things w !! t = Some t' → things w !! thing = Some th → Thing_Id th = Thing_Id t' →
  ∀ idx i,
    (∀ p, p ∈ l1 → ∃ th', things w !! p = Some th' ∧ Thing_Id th' ≠ Thing_Id t') →
    RemoveThing_loop t (l1 ++ thing :: l2) idx i w = (Ret (idx + length l1)%nat, w).
Proof.
  intros Ht Hth Hid. induction l1 as [|x l1 IH]; intros idx i Hl1; simpl.
  - rewrite bind_run, (load_run _ _ _ _ Hth), bind_run, (load_run _ _ _ _ Ht).
    destruct (decide (Thing_Id th = Thing_Id t')); [|done].
    rewrite ret_run. do 2 f_equal. lia.
  - destruct (Hl1 x) as (th' & Hth' & Hne); [by left|].
    rewrite bind_run, (load_run _ _ _ _ Hth'), bind_run, (load_run _ _ _ _ Ht).
    destruct (decide (Thing_Id th' = Thing_Id t')); [done|].
    rewrite IH by (intros p Hp; apply Hl1; by right).
    do 2 f_equal. lia.
Qed.

Lemma RemoveThing_found (c t thing : ptr) (cl : Client) (t' th : Thing)
    (l1 l2 : list ptr) (w : World) :
  clients w !! c = Some cl → Client_things cl = l1 ++ thing :: l2 →
  things w !! t = Some t' →
  (∀ p, p ∈ l1 → ∃ th', things w !! p = Some th' ∧ Thing_Id th' ≠ Thing_Id t') →
  things w !! thing = Some th → Thing_Id th = Thing_Id t' →
  RemoveThing c t w
  = (Ret None, set_clients (λ s, <[c := remove_index (length l1) cl]> s) w)
  ∧ Client_things (remove_index (length l1) cl) = l1 ++ l2.
Proof.
  intros Hc Hts Ht Hl1 Hth Hid. split.
  - unfold RemoveThing. rewrite bind_run, (load_run _ _ _ _ Hc), bind_run, Hts.
    rewrite (RemoveThing_loop_found t thing t' th l1 l2 w Ht Hth Hid 0 0 Hl1).
    rewrite bool_decide_eq_false_2 by (rewrite length_app; simpl; clear; lia).
    simpl. rewrite bind_run, (modify_run _ _ _ _ _ _ Hc). done.
  - unfold remove_index. simpl. rewrite Hts.
    rewrite take_app_length. rewrite drop_app_ge by lia.
    replace (S (length l1) - length l1)%nat with 1%nat by lia. done.
Qed.

(** X1: [RemoveThing] removes by identifier: when a registered Thing has
    the identifier of [t], the first such Thing is removed from the
    registered Things, whether or not it is [t] itself, the others keep
    their order, and no error is returned. *)
Theorem RemoveThing_removes_first_match (c t thing : ptr) (cl : Client) (t' th : Thing)
    (l1 l2 : list ptr) (w : World) :
  clients w !! c = Some cl → Client_things cl = l1 ++ thing :: l2 →
  things w !! t = Some t' →
  (∀ p, p ∈ l1 → ∃ th', things w !! p = Some th' ∧ Thing_Id th' ≠ Thing_Id t') →
  things w !! thing = Some th → Thing_Id th = Thing_Id t' →
  ∃ w', RemoveThing c t w = (Ret None, w')
        ∧ registered_things c w' = Some (l1 ++ l2)
        ∧ same_tree w w'.
Proof.
  intros Hc Hts Ht Hl1 Hth Hid.
  destruct (RemoveThing_found c t thing cl t' th l1 l2 w Hc Hts Ht Hl1 Hth Hid) as [Hrun Hl].
  eexists. split; [exact Hrun|]. split.
  - unfold registered_things. simpl clients. rewrite lookup_insert_eq.
    change (Some (Client_things (remove_index (length l1) cl)) = Some (l1 ++ l2)).
    by rewrite Hl.
  - apply same_tree_set_clients.
Qed.

(** Thing 2 is not registered but has the identifier "lamp" of the
    registered thing 1: removing it removes thing 1. *)
Lemma RemoveThing_removes_first_match_witness :
  ∃ w', RemoveThing 1%positive 2%positive sample.registered = (Ret None, w')
        ∧ registered_things 1%positive w' = Some ([] ++ [])
        ∧ same_tree sample.registered w'.
Proof.
  apply (RemoveThing_removes_first_match 1%positive 2%positive 1%positive
           {| Client_writer := Some []; Client_things := [1%positive];
              Client_updateCounter := 0; Client_connected := true |}
           (sample.thing "lamp" []) (sample.thing "lamp" [1%positive]) [] []);
    try (by vm_compute).
  intros p Hp. by apply elem_of_nil in Hp.
Defined.

(** ** What validation accepts *)

Lemma range_none_iff {A B} (l : list A) (body : A → M (option B)) (w : World) :
  (∀ x, readonly (body x)) →
  range l body w = (Ret None, w) ↔ ∀ x, x ∈ l → body x w = (Ret None, w).
Proof.
  intros Hro. split; [by apply range_none_inv | apply range_none].
Qed.

Lemma check_property_name (property : ptr) (w : World) :
  (p ← load properties property;
   if negb (validNameRegexp_MatchString (Property_Name p))
   then mret (Some (Property_Name p +:+ " is an invalid name for a property"))
   else mret None) w = (Ret None, w)
  ↔ ∃ p, properties w !! property = Some p
         ∧ validNameRegexp_MatchString (Property_Name p) = true.
Proof.
  rewrite bind_run. unfold load. split.
  - destruct (properties w !! property) as [p|]; [|done].
    destruct (validNameRegexp_MatchString (Property_Name p)) eqn:E; [|done]. eauto.
  - intros (p & -> & ->). done.
Qed.

Lemma check_action_name (action : ptr) (w : World) :
  (a ← load actions action;
   if negb (validNameRegexp_MatchString (Action_Name a))
   then mret (Some (Action_Name a +:+ " is an invalid name for an action"))
   else mret None) w = (Ret None, w)
  ↔ ∃ a, actions w !! action = Some a
         ∧ validNameRegexp_MatchString (Action_Name a) = true.
Proof.
  rewrite bind_run. unfold load. split.
  - destruct (actions w !! action) as [a|]; [|done].
    destruct (validNameRegexp_MatchString (Action_Name a)) eqn:E; [|done]. eauto.
  - intros (a & -> & ->). done.
Qed.

Lemma or_else_none_iff {B} (m k : M (option B)) (w : World) :
  readonly m →
  or_else m k w = (Ret None, w) ↔ m w = (Ret None, w) ∧ k w = (Ret None, w).
Proof.
  intros Hro. split.
  - intros H. apply or_else_inv in H as [(b & ? & _)|(w1 & Hm & Hk)]; [done|].
    pose proof (readonly_run _ _ _ _ Hro Hm) as ->. done.
  - intros [Hm Hk]. unfold or_else. by rewrite bind_run, Hm.
Qed.

(** The two name loops over the Properties and Actions of a Component
    or of a Capability. *)
Lemma check_names (props acts : list ptr) (k : M (option error)) (w : World) :
  or_else
    (range props (λ property,
       p ← load properties property;
       if negb (validNameRegexp_MatchString (Property_Name p))
       then mret (Some (Property_Name p +:+ " is an invalid name for a property"))
       else mret None))
    (or_else
       (range acts (λ action,
          a ← load actions action;
          if negb (validNameRegexp_MatchString (Action_Name a))
          then mret (Some (Action_Name a +:+ " is an invalid name for an action"))
          else mret None))
       k) w = (Ret None, w)
  ↔ valid_names props acts w ∧ k w = (Ret None, w).
Proof.
  rewrite or_else_none_iff by solve_readonly.
  rewrite or_else_none_iff by solve_readonly.
  rewrite !range_none_iff by (intros; solve_readonly).
  unfold valid_names.
  setoid_rewrite check_property_name. setoid_rewrite check_action_name.
  tauto.
Qed.

Lemma check_names_last (props acts : list ptr) (w : World) :
  or_else
    (range props (λ property,
       p ← load properties property;
       if negb (validNameRegexp_MatchString (Property_Name p))
       then mret (Some (Property_Name p +:+ " is an invalid name for a property"))
       else mret None))
    (range acts (λ action,
       a ← load actions action;
       if negb (validNameRegexp_MatchString (Action_Name a))
       then mret (Some (Action_Name a +:+ " is an invalid name for an action"))
       else mret None)) w = (Ret None, w)
  ↔ valid_names props acts w.
Proof.
  rewrite or_else_none_iff by solve_readonly.
  rewrite !range_none_iff by (intros; solve_readonly).
  unfold valid_names.
  setoid_rewrite check_property_name. setoid_rewrite check_action_name.
  tauto.
Qed.

(** [validateThing] against its specification. *)
Lemma validateThing_valid_thing (c t : ptr) (w : World) :
  validateThing c t w = (Ret None, w) ↔ valid_thing c t w.
Proof.
  unfold validateThing, valid_thing. rewrite bind_run. unfold load at 1.
  destruct (clients w !! c) as [cl|] eqn:Hcl.
  2:{ split; [done|]. by intros (? & ? & ? & _). }
  rewrite or_else_none_iff by solve_readonly.
  rewrite range_none_iff by (intros; solve_readonly).
  rewrite bind_run. unfold load at 3.
  destruct (things w !! t) as [t'|] eqn:Ht.
  2:{ split; [by intros [_ ?]|]. by intros (? & ? & _ & ? & _). }
  rewrite range_none_iff by (intros; solve_readonly).
  split.
  - intros [Hids Hcomps]. exists cl, t'. split; [done|]. split; [done|]. split.
    + intros thing Hin. specialize (Hids thing Hin).
      rewrite bind_run in Hids. unfold load at 1 in Hids.
      destruct (things w !! thing) as [th|]; [|done].
      rewrite bind_run, (load_run _ _ _ _ Ht) in Hids.
      destruct (decide (Thing_Id th = Thing_Id t')); [done|]. eauto.
    + intros component Hin. specialize (Hcomps component Hin).
      rewrite bind_run in Hcomps. unfold load at 1 in Hcomps.
      destruct (components w !! component) as [comp|]; [|done].
      exists comp. split; [done|].
      apply check_names in Hcomps as [Hnames Hcaps]. split; [done|].
      rewrite range_none_iff in Hcaps by (intros; solve_readonly).
      intros capability Hcin. specialize (Hcaps capability Hcin).
      rewrite bind_run in Hcaps. unfold load at 1 in Hcaps.
      destruct (capabilities w !! capability) as [cap|]; [|done].
      exists cap. split; [done|].
      by apply check_names_last.
  - intros (cl' & t'' & [= <-] & [= <-] & Hids & Hcomps). split.
    + intros thing Hin. destruct (Hids thing Hin) as (th & Hth & Hne).
      rewrite bind_run, (load_run _ _ _ _ Hth), bind_run, (load_run _ _ _ _ Ht).
      by destruct (decide (Thing_Id th = Thing_Id t')).
    + intros component Hin.
      destruct (Hcomps component Hin) as (comp & Hcomp & Hnames & Hcaps).
      rewrite bind_run, (load_run _ _ _ _ Hcomp).
      apply check_names. split; [done|].
      apply range_none. intros capability Hcin.
      destruct (Hcaps capability Hcin) as (cap & Hcap & Hn).
      rewrite bind_run, (load_run _ _ _ _ Hcap).
      by apply check_names_last.
Qed.

(** X2: [validateThing] returns nil exactly when every pointer of the
    tree of [t] holds an object, no registered Thing has the identifier
    of [t], and every Property and Action name in the tree (direct or
    inside a Capability) matches [^[A-Za-z0-9]+$]. *)
Theorem validateThing_accepts_iff (c t : ptr) (w : World) :
  validateThing c t w = (Ret None, w) ↔ valid_thing c t w.
Proof. exact (validateThing_valid_thing c t w). Qed.

(** The sample "lamp" validates against the client that holds no Thing. *)
Lemma validateThing_accepts_sample :
  validateThing 1%positive 1%positive sample.world = (Ret None, sample.world)
  ∧ valid_thing 1%positive 1%positive sample.world.
Proof.
  split; [by vm_compute|]. apply validateThing_accepts_iff. by vm_compute.
Defined.

(** ** A batch that fails *)

(** X3: when [Abstract] of a batch returns an error, the batch splits
    into Things that registered, the Thing whose validation returned
    that error, and the rest; the world is the one left by registering
    the first part, and the refused Thing has not been written to. *)
Theorem Abstract_error_inv (c : ptr) (ts : list ptr) (e : error) :
  ∀ w w', Abstract c ts w = (Ret (Some e), w') →
    ∃ pre t post,
      ts = pre ++ t :: post
      ∧ Abstract c pre w = (Ret None, w')
      ∧ validateThing c t w' = (Ret (Some e), w').
Proof.
  induction ts as [|t ts IH]; intros w w' H.
  - by apply ret_inv in H as [? _].
  - rewrite Abstract_cons in H.
    destruct (abstract c t w) as [[[e'|]|] w1] eqn:Hab; [| |done].
    + injection H as -> ->. apply abstract_err_inv in Hab as [-> Hval].
      by exists [], t, ts.
    + apply IH in H as (pre & t0 & post & -> & Hpre & Hval).
      exists (t :: pre), t0, post. split; [done|]. split; [|done].
      by rewrite Abstract_cons, Hab.
Qed.

Lemma Abstract_error_inv_witness :
  ∃ pre t post,
    [4%positive; 3%positive; 1%positive] = pre ++ t :: post
    ∧ Abstract 1%positive pre sample.world
      = (Ret None, (Abstract 1%positive [4%positive] sample.world).2)
    ∧ validateThing 1%positive t (Abstract 1%positive [4%positive] sample.world).2
      = (Ret (Some "Eigenschaft 1 is an invalid name for a property"),
         (Abstract 1%positive [4%positive] sample.world).2).
Proof.
  apply (Abstract_error_inv 1%positive [4%positive; 3%positive; 1%positive]).
  by vm_compute.
Defined.

(** ** What registration changes *)

(** X4: a successful [abstract] changes nothing but back-references
    and the list of registered Things: the Things and Actions are the
    same objects, every Component, Capability and Property is the same
    up to its back-references (identifiers, names, values and lists
    are kept), the handler trace is the same, and the client differs
    only by the Thing appended to its list. *)
Theorem abstract_writes_back_references_only (c t : ptr) (w w' : World) :
  abstract c t w = (Ret None, w') →
  things w' = things w ∧ actions w' = actions w ∧ invocations w' = invocations w
  ∧ erase_Component <$> components w' = erase_Component <$> components w
  ∧ erase_Capability <$> capabilities w' = erase_Capability <$> capabilities w
  ∧ erase_Property <$> properties w' = erase_Property <$> properties w
  ∧ ∃ cl, clients w !! c = Some cl ∧ clients w' = <[c := append_things t cl]> (clients w).
Proof.
  intros H. apply abstract_ok_inv in H as (t' & cl & w1 & _ & _ & Hw & _ & Hcl & ->).
  destruct Hw as ((Hc & Ht & Ha & Hi & Hco & Hca & Hp) & _).
  repeat (split; [done|]). exists cl. split; [done|]. simpl. by rewrite Hc.
Qed.

Lemma abstract_writes_back_references_only_witness :
  things sample.registered = things sample.world
  ∧ actions sample.registered = actions sample.world
  ∧ invocations sample.registered = invocations sample.world
  ∧ erase_Component <$> components sample.registered
    = erase_Component <$> components sample.world
  ∧ erase_Capability <$> capabilities sample.registered
    = erase_Capability <$> capabilities sample.world
  ∧ erase_Property <$> properties sample.registered
    = erase_Property <$> properties sample.world
  ∧ ∃ cl, clients sample.world !! 1%positive = Some cl
          ∧ clients sample.registered
            = <[1%positive := append_things 1%positive cl]> (clients sample.world).
Proof.
  apply (abstract_writes_back_references_only 1%positive 1%positive). by vm_compute.
Defined.

(** ** Registration, lookup and deregistration *)

Lemma abstract_ok_valid (c t : ptr) (w w' : World) :
  abstract c t w = (Ret None, w') →
  ∃ cl t',
    clients w !! c = Some cl ∧ things w !! t = Some t'
    ∧ (∀ thing, thing ∈ Client_things cl →
         ∃ th, things w !! thing = Some th ∧ Thing_Id th ≠ Thing_Id t')
    ∧ things w' = things w
    ∧ clients w' = <[c := append_things t cl]> (clients w).
Proof.
  intros H.
  apply abstract_ok_inv in H as (t' & cl & w1 & Hval & Ht & Hw & _ & Hcl & ->).
  apply validateThing_valid_thing in Hval as (cl' & t'' & Hcl' & Ht' & Hids & _).
  destruct Hw as ((Hc & Hth & _) & _).
  exists cl, t'. assert (cl' = cl) as -> by congruence.
  assert (t'' = t') as -> by congruence.
  repeat (split; [done|]). simpl. by rewrite Hc.
Qed.

(** X5: a Thing that has just been registered is found by its
    identifier: [getThing] returns it, not another Thing. *)
Theorem abstract_then_getThing (c t : ptr) (t' : Thing) (w w' : World) :
  abstract c t w = (Ret None, w') → things w !! t = Some t' →
  getThing c (Thing_Id t') w' = (Ret (Some t), w').
Proof.
  intros H Ht.
  apply abstract_ok_valid in H as (cl & t'' & Hcl & Ht' & Hids & Hth & Hc).
  assert (t'' = t') as -> by congruence.
  apply (getThing_first c t (append_things t cl) t' (Client_things cl) []).
  - by rewrite Hc, lookup_insert_eq.
  - done.
  - intros p Hp. rewrite Hth. by apply Hids.
  - by rewrite Hth.
Qed.

Lemma abstract_then_getThing_witness :
  getThing 1%positive (Thing_Id (sample.thing "lamp" [1%positive])) sample.registered
  = (Ret (Some 1%positive), sample.registered).
Proof.
  apply (abstract_then_getThing 1%positive 1%positive _ sample.world); by vm_compute.
Defined.

(** X6: deregistering a Thing right after registering it succeeds and
    restores the list of registered Things; the back-references written
    by the registration stay. *)
Theorem abstract_then_RemoveThing (c t : ptr) (w w1 : World) :
  abstract c t w = (Ret None, w1) →
  ∃ w2, RemoveThing c t w1 = (Ret None, w2)
        ∧ registered_things c w2 = registered_things c w
        ∧ same_tree w1 w2.
Proof.
  intros H.
  apply abstract_ok_valid in H as (cl & t' & Hcl & Ht & Hids & Hth & Hc).
  destruct (RemoveThing_found c t t (append_things t cl) t' t' (Client_things cl) [] w1)
    as [Hrun Hl]; try done.
  - by rewrite Hc, lookup_insert_eq.
  - by rewrite Hth.
  - intros p Hp. rewrite Hth. by apply Hids.
  - by rewrite Hth.
  - eexists. split; [exact Hrun|]. split; [|apply same_tree_set_clients].
    unfold registered_things. simpl clients. rewrite lookup_insert_eq, Hcl.
    change (Some (Client_things (remove_index (length (Client_things cl))
                                   (append_things t cl)))
            = Some (Client_things cl)).
    by rewrite Hl, app_nil_r.
Qed.

Lemma abstract_then_RemoveThing_witness :
  ∃ w2, RemoveThing 1%positive 1%positive sample.registered = (Ret None, w2)
        ∧ registered_things 1%positive w2 = registered_things 1%positive sample.world
        ∧ same_tree sample.registered w2.
Proof.
  apply (abstract_then_RemoveThing 1%positive 1%positive sample.world). by vm_compute.
Defined.

(** ** Identifiers stay unique *)

Lemma registered_ids_Forall2 (c : ptr) (cl : Client) (ids : list string) (w : World) :
  clients w !! c = Some cl →
  registered_ids c w = Some ids
  ↔ Forall2 (λ p id, ∃ th, things w !! p = Some th ∧ Thing_Id th = id)
      (Client_things cl) ids.
Proof.
  intros Hcl. unfold registered_ids, registered_things. rewrite Hcl. simpl.
  rewrite mapM_Some. split; intros HF; (eapply Forall2_impl; [exact HF|]); intros p id; cbv beta.
  - destruct (things w !! p) as [th|]; simpl; [|done]. intros [= <-]. eauto.
  - by intros (th & -> & <-).
Qed.

Lemma registered_ids_client (c : ptr) (ids : list string) (w : World) :
  registered_ids c w = Some ids → ∃ cl, clients w !! c = Some cl.
Proof.
  unfold registered_ids, registered_things.
  destruct (clients w !! c) as [cl|]; [eauto | done].
Qed.

Lemma abstract_ids (c t : ptr) (t' : Thing) (ids : list string) (w w' : World) :
  abstract c t w = (Ret None, w') → things w !! t = Some t' →
  registered_ids c w = Some ids →
  registered_ids c w' = Some (ids ++ [Thing_Id t']) ∧ Thing_Id t' ∉ ids.
Proof.
  intros H Ht Hreg.
  apply abstract_ok_valid in H as (cl & t'' & Hcl & Ht' & Hids & Hth & Hc).
  assert (t'' = t') as -> by congruence.
  apply (registered_ids_Forall2 c cl ids w Hcl) in Hreg. split.
  - apply (registered_ids_Forall2 c (append_things t cl)).
    { by rewrite Hc, lookup_insert_eq. }
    simpl. apply Forall2_app.
    + apply (Forall2_impl _ _ _ _ Hreg). intros p id. cbv beta. by rewrite Hth.
    + constructor; [|constructor]. exists t'. by rewrite Hth.
  - intros Hin. apply list_elem_of_lookup in Hin as [i Hi].
    destruct (Forall2_lookup_r _ _ _ _ _ Hreg Hi) as (p & Hp & th & Hthp & Hid).
    destruct (Hids p) as (th' & Hth' & Hne).
    { apply list_elem_of_lookup. eauto. }
    congruence.
Qed.

(** X7: [Abstract] keeps the identifiers of the registered Things
    pairwise distinct, whether the batch registers completely or stops
    at a Thing that is refused. *)
Theorem Abstract_keeps_ids_unique (c : ptr) (ts : list ptr) (r : option error) :
  ∀ w w', unique_ids c w → Abstract c ts w = (Ret r, w') → unique_ids c w'.
Proof.
  induction ts as [|t ts IH]; intros w w' Hu H.
  - by apply ret_inv in H as [_ ->].
  - rewrite Abstract_cons in H.
    destruct (abstract c t w) as [[[e|]|] w1] eqn:Hab; [| |done].
    + injection H as _ <-. by apply abstract_err_inv in Hab as [-> _].
    + apply (IH w1 w'); [|done].
      destruct Hu as (ids & Hreg & Hnd).
      pose proof Hab as Hab'.
      apply abstract_ok_valid in Hab' as (cl & t' & _ & Ht & _).
      destruct (abstract_ids c t t' ids w w1 Hab Ht Hreg) as [Hreg' Hfresh].
      exists (ids ++ [Thing_Id t']). split; [done|].
      apply NoDup_app. split; [done|]. split; [|apply NoDup_singleton].
      intros x Hx Hx'. apply list_elem_of_singleton in Hx' as ->. done.
Qed.

Lemma Abstract_keeps_ids_unique_witness :
  unique_ids 1%positive (Abstract 1%positive [4%positive; 1%positive; 2%positive] sample.world).2.
Proof.
  apply (Abstract_keeps_ids_unique 1%positive [4%positive; 1%positive; 2%positive]
           (Some "The thing with the Id lamp already exists") sample.world).
  - exists []. split; [by vm_compute | constructor].
  - by vm_compute.
Defined.

Lemma RemoveThing_inv (c t : ptr) (r : option error) (w w' : World) :
  RemoveThing c t w = (Ret r, w') →
  ∃ cl, clients w !! c = Some cl
        ∧ (w' = w ∨ ∃ i, w' = set_clients (λ s, <[c := remove_index i cl]> s) w).
Proof.
  unfold RemoveThing. intros H.
  apply bind_inv in H as (cl & w1 & Hload & H).
  apply load_inv' in Hload as [-> Hcl].
  apply bind_inv in H as (i & w1 & Hloop & H).
  pose proof (readonly_run _ _ _ _ (RemoveThing_loop_readonly t _ 0%nat 0%nat) Hloop) as ->.
  exists cl. split; [done|].
  case_bool_decide.
  - left. apply bind_inv in H as (t' & w1 & Hload & H).
    apply load_inv' in Hload as [-> _]. by apply ret_inv in H as [_ ->].
  - right. exists i. apply bind_inv in H as ([] & w1 & Hmod & H).
    apply modify_inv in Hmod as (cl' & Hcl' & ->).
    apply ret_inv in H as [_ ->].
    assert (cl' = cl) as -> by congruence. done.
Qed.

(** X8: [RemoveThing] keeps the identifiers of the registered Things
    pairwise distinct, whatever it returns and whichever Thing it
    removes. *)
Theorem RemoveThing_keeps_ids_unique (c t : ptr) (r : option error) (w w' : World) :
  unique_ids c w → RemoveThing c t w = (Ret r, w') → unique_ids c w'.
Proof.
  intros (ids & Hreg & Hnd) H.
  apply RemoveThing_inv in H as (cl & Hcl & [->|(i & ->)]).
  { by exists ids. }
  apply (registered_ids_Forall2 c cl ids w Hcl) in Hreg.
  exists (delete i ids). split.
  - apply (registered_ids_Forall2 c (remove_index i cl)).
    { simpl. by rewrite lookup_insert_eq. }
    simpl. rewrite <- delete_take_drop. by apply Forall2_delete.
  - eapply sublist_NoDup; [exact Hnd | apply sublist_delete].
Qed.

Lemma RemoveThing_keeps_ids_unique_witness :
  unique_ids 1%positive (RemoveThing 1%positive 4%positive sample.registered).2.
Proof.
  apply (RemoveThing_keeps_ids_unique 1%positive 4%positive None sample.registered).
  - exists ["lamp"]. split; [by vm_compute | apply NoDup_singleton].
  - by vm_compute.
Defined.

(** * Further properties of the dispatch and update paths *)

(** ** Resolution of a path *)

(** X9: resolution is first match at each level. For a path
    (thing identifier, component identifier, action name): [getThing]
    returns the first registered Thing with the identifier,
    [Thing.GetComponent] the first of its Components with the
    identifier, and [Component.GetAction] the first Action with the
    name, going through the Capabilities in order and through the
    Actions of each in order. *)
Theorem resolution_first_match (c thing component capability action : ptr)
    (cl : Client) (th : Thing) (comp : Component) (cap : Capability) (a : Action)
    (things1 things2 comps1 comps2 caps1 caps2 acts1 acts2 : list ptr) (w : World) :
  clients w !! c = Some cl → Client_things cl = things1 ++ thing :: things2 →
  (∀ p, p ∈ things1 → ∃ th', things w !! p = Some th' ∧ Thing_Id th' ≠ Thing_Id th) →
  things w !! thing = Some th →
  Thing_Components th = comps1 ++ component :: comps2 →
  (∀ p, p ∈ comps1 → ∃ comp', components w !! p = Some comp'
                              ∧ Component_Id comp' ≠ Component_Id comp) →
  components w !! component = Some comp →
  Component_Capabilities comp = caps1 ++ capability :: caps2 →
  (∀ p, p ∈ caps1 →
     ∃ cap', capabilities w !! p = Some cap'
             ∧ ∀ q, q ∈ Capability_Actions cap' →
                 ∃ a', actions w !! q = Some a' ∧ Action_Name a' ≠ Action_Name a) →
  capabilities w !! capability = Some cap →
  Capability_Actions cap = acts1 ++ action :: acts2 →
  (∀ q, q ∈ acts1 → ∃ a', actions w !! q = Some a' ∧ Action_Name a' ≠ Action_Name a) →
  actions w !! action = Some a →
  getThing c (Thing_Id th) w = (Ret (Some thing), w)
  ∧ Thing_GetComponent thing (Component_Id comp) w = (Ret (Some component), w)
  ∧ Component_GetAction component (Action_Name a) w = (Ret (Some action), w).
Proof.
  intros. split; [by eapply getThing_first|].
  split; [by eapply Thing_GetComponent_first | by eapply Component_GetAction_first].
Qed.

(** In the sample world "explode" is the second Action of the
    Capability: it is found behind "turnOn". *)
Lemma resolution_first_match_witness :
  getThing 1%positive (Thing_Id (sample.thing "lamp" [1%positive])) sample.registered
  = (Ret (Some 1%positive), sample.registered)
  ∧ Thing_GetComponent 1%positive "main" sample.registered
    = (Ret (Some 1%positive), sample.registered)
  ∧ Component_GetAction 1%positive
      (Action_Name (sample.action "explode" (Some sample.explode))) sample.registered
    = (Ret (Some 3%positive), sample.registered).
Proof.
  apply (resolution_first_match 1%positive 1%positive 1%positive 1%positive 3%positive
           {| Client_writer := Some []; Client_things := [1%positive];
              Client_updateCounter := 0; Client_connected := true |}
           (sample.thing "lamp" [1%positive])
           {| Component_Id := "main"; Component_Name := "main";
              Component_ComponentType := EmptyString;
              Component_Capabilities := [1%positive];
              Component_Properties := [2%positive];
              Component_Actions := [2%positive];
              Component_parent := Some 1%positive |}
           {| Capability_Id := "switch";
              Capability_Actions := [1%positive; 3%positive];
              Capability_Properties := [1%positive];
              Capability_parent := Some 1%positive |}
           (sample.action "explode" (Some sample.explode))
           [] [] [] [] [] [] [1%positive] []);
    try (by vm_compute); try (intros p Hp; by apply elem_of_nil in Hp).
  intros q Hq. apply list_elem_of_singleton in Hq as ->.
  exists (sample.action "turnOn" (Some sample.turnOn)). split; [by vm_compute | done].
Defined.

(** ** Requests that do not resolve *)

Lemma getThing_none (c : ptr) (cl : Client) (thingId : string) (w : World) :
  clients w !! c = Some cl →
  (∀ p, p ∈ Client_things cl → ∃ th, things w !! p = Some th ∧ Thing_Id th ≠ thingId) →
  getThing c thingId w = (Ret None, w).
Proof.
  intros Hcl Hall. unfold getThing. rewrite bind_run, (load_run _ _ _ _ Hcl).
  apply range_none. intros p Hp. destruct (Hall p Hp) as (th & Hth & Hne).
  rewrite bind_run, (load_run _ _ _ _ Hth).
  destruct (decide (thingId = Thing_Id th)); [congruence | done].
Qed.

Lemma Thing_GetComponent_none (t : ptr) (th : Thing) (componentId : string) (w : World) :
  things w !! t = Some th →
  (∀ p, p ∈ Thing_Components th →
     ∃ comp, components w !! p = Some comp ∧ Component_Id comp ≠ componentId) →
  Thing_GetComponent t componentId w = (Ret None, w).
Proof.
  intros Ht Hall. unfold Thing_GetComponent. rewrite bind_run, (load_run _ _ _ _ Ht).
  apply range_none. intros p Hp. destruct (Hall p Hp) as (comp & Hcomp & Hne).
  rewrite bind_run, (load_run _ _ _ _ Hcomp).
  destruct (decide (componentId = Component_Id comp)); [congruence | done].
Qed.

(** X10: an execute-action message whose path does not resolve is
    dropped: when no registered Thing has the thing identifier, or the
    Thing found has no Component with the component identifier, the
    dispatch loop runs no handler, sends nothing and changes nothing. *)
Theorem execute_unresolved_is_dropped :
  (∀ Marshal code (c : ptr) (cl : Client) (msg : protocol.ServerMessage_Execute)
     (w : World),
     clients w !! c = Some cl →
     (∀ p, p ∈ Client_things cl →
        ∃ th, things w !! p = Some th
              ∧ Thing_Id th ≠ protocol.GetThingId (protocol.GetPath msg)) →
     handleServerMessages Marshal code c
       [{| protocol.ServerMessage_RequestThings := None;
           protocol.ServerMessage_Action := Some msg |}] w = (Ret (), w))
  ∧ (∀ Marshal code (c thing : ptr) (th : Thing) (msg : protocol.ServerMessage_Execute)
       (w : World),
       getThing c (protocol.GetThingId (protocol.GetPath msg)) w = (Ret (Some thing), w) →
       things w !! thing = Some th →
       (∀ p, p ∈ Thing_Components th →
          ∃ comp, components w !! p = Some comp
                  ∧ Component_Id comp ≠ protocol.GetComponentId (protocol.GetPath msg)) →
       handleServerMessages Marshal code c
         [{| protocol.ServerMessage_RequestThings := None;
             protocol.ServerMessage_Action := Some msg |}] w = (Ret (), w)).
Proof.
  split.
  - intros Marshal code c cl msg w Hcl Hall.
    rewrite handleServerMessages_execute. unfold handleAction.
    by rewrite bind_run, (getThing_none c cl _ w Hcl Hall).
  - intros Marshal code c thing th msg w Hthing Hth Hall.
    rewrite handleServerMessages_execute. unfold handleAction.
    rewrite bind_run, Hthing, bind_run.
    by rewrite (Thing_GetComponent_none thing th _ w Hth Hall).
Qed.

(** Requests for the unknown thing "oven" and for the unknown
    component "door" of the "lamp". *)
Lemma execute_unresolved_is_dropped_witness :
  handleServerMessages sample.MarshalClient sample.code 1%positive
    [{| protocol.ServerMessage_RequestThings := None;
        protocol.ServerMessage_Action :=
          Some (sample.execute "oven" "main" "turnOn" [] 1) |}] sample.registered
  = (Ret (), sample.registered)
  ∧ handleServerMessages sample.MarshalClient sample.code 1%positive
      [{| protocol.ServerMessage_RequestThings := None;
          protocol.ServerMessage_Action :=
            Some (sample.execute "lamp" "door" "turnOn" [] 2) |}] sample.registered
    = (Ret (), sample.registered).
Proof.
  destruct execute_unresolved_is_dropped as [HA HB]. split.
  - apply (HA _ _ 1%positive
             {| Client_writer := Some []; Client_things := [1%positive];
                Client_updateCounter := 0; Client_connected := true |});
      [by vm_compute|].
    intros p Hp. apply list_elem_of_singleton in Hp as ->.
    exists (sample.thing "lamp" [1%positive]). split; [by vm_compute | done].
  - apply (HB _ _ 1%positive 1%positive (sample.thing "lamp" [1%positive]));
      [by vm_compute | by vm_compute |].
    intros p Hp. apply list_elem_of_singleton in Hp as ->.
    eexists. split; [by vm_compute | done].
Defined.

(** ** Updates that panic *)

Lemma range__preserves {A} (P : World → Prop) (body : A → M ()) (l : list A) :
  (∀ x w w', x ∈ l → P w → body x w = (Ret (), w') → P w') →
  ∀ w w', P w → range_ l body w = (Ret (), w') → P w'.
Proof.
  induction l as [|x l IH]; intros Hbody w w' HP Hrun.
  - by apply ret_inv in Hrun as [_ ->].
  - apply range__cons_inv in Hrun as (w1 & Hb & Hr).
    apply (IH (λ y w w' Hy, Hbody y w w' (list_elem_of_further _ _ _ Hy)) w1 w'); [|done].
    apply (Hbody x w w1); [by left | done | done].
Qed.

Lemma skeleton_set_components (y : ptr) (o : Component) (upd : Component → Component)
    (w : World) :
  components w !! y = Some o → erase_Component (upd o) = erase_Component o →
  same_skeleton w (set_components (λ s, <[y := upd o]> s) w).
Proof.
  intros Hy He. repeat split; try done. simpl. by apply fmap_insert_erase.
Qed.

Lemma skeleton_set_capabilities (y : ptr) (o : Capability) (upd : Capability → Capability)
    (w : World) :
  capabilities w !! y = Some o → erase_Capability (upd o) = erase_Capability o →
  same_skeleton w (set_capabilities (λ s, <[y := upd o]> s) w).
Proof.
  intros Hy He. repeat split; try done. simpl. by apply fmap_insert_erase.
Qed.

Lemma skeleton_set_properties (y : ptr) (o : Property) (upd : Property → Property)
    (w : World) :
  properties w !! y = Some o → erase_Property (upd o) = erase_Property o →
  same_skeleton w (set_properties (λ s, <[y := upd o]> s) w).
Proof.
  intros Hy He. repeat split; try done. simpl. by apply fmap_insert_erase.
Qed.

(** Registration writes the parent of a Property only if a Capability
    of the Thing holds it. *)
Lemma abstract_keeps_parent (c t x : ptr) (t' : Thing) (prop : Property) (w w' : World) :
  abstract c t w = (Ret None, w') →
  things w !! t = Some t' →
  properties w !! x = Some prop →
  (∀ component comp capability cap,
     component ∈ Thing_Components t' → components w !! component = Some comp →
     capability ∈ Component_Capabilities comp → capabilities w !! capability = Some cap →
     x ∉ Capability_Properties cap) →
  ∃ prop', properties w' !! x = Some prop'
           ∧ Property_parent prop' = Property_parent prop
           ∧ Property_Value prop' = Property_Value prop.
Proof.
  intros Hab Ht Hx Hfree.
  set (P := λ w1 : World,
         same_skeleton w w1
         ∧ ∃ prop', properties w1 !! x = Some prop'
                    ∧ Property_parent prop' = Property_parent prop
                    ∧ Property_Value prop' = Property_Value prop).
  assert (P w) as HP0 by (split; [apply same_skeleton_refl | by exists prop]).
  assert (∀ y w1, P w1 →
            ∀ w2, modify properties set_properties y (set_Property_client c) w1 = (Ret (), w2) →
            P w2) as Hclient.
  { intros y w1 [Hs (prop1 & Hp1 & Hpar & Hval)] w2 Hmod.
    apply modify_inv in Hmod as (o & Ho & ->). split.
    - eapply same_skeleton_trans; [exact Hs|]. by apply skeleton_set_properties.
    - destruct (decide (y = x)) as [->|Hne].
      + exists (set_Property_client c o). simpl. rewrite lookup_insert_eq.
        assert (o = prop1) as -> by congruence. done.
      + exists prop1. simpl. by rewrite lookup_insert_ne. }
  unfold abstract in Hab.
  apply or_else_inv in Hab as [(b & ? & _)|(w0 & Hval & Hab)]; [done|].
  pose proof (readonly_run _ _ _ _ (validateThing_readonly c t) Hval) as ->.
  apply bind_inv in Hab as (t'' & w0 & Hload & Hab).
  apply load_inv' in Hload as [-> Ht''].
  assert (t'' = t') as -> by congruence.
  apply bind_inv in Hab as ([] & w1 & Hloop & Hab).
  apply bind_inv in Hab as ([] & w2 & Hmod & Hab).
  apply ret_inv in Hab as [_ ->].
  apply modify_inv in Hmod as (cl & Hcl & ->).
  enough (P w1) as [_ HP1] by exact HP1.
  revert Hloop. apply (range__preserves P); [|done].
  intros component wa wd Hin [Hsa HKa] Hbody.
  apply bind_inv in Hbody as ([] & wb & Hmod & Hbody).
  apply modify_inv in Hmod as (o & Ho & ->).
  set (wb := set_components _ wa) in *.
  assert (P wb) as HPb.
  { split; [|done]. eapply same_skeleton_trans; [exact Hsa|].
    by apply skeleton_set_components. }
  apply bind_inv in Hbody as (comp & wb' & Hload & Hbody).
  apply load_inv' in Hload as [-> Hcomp].
  apply bind_inv in Hbody as ([] & wc & Hdirect & Hcaps).
  assert (P wc) as HPc.
  { revert Hdirect. apply (range__preserves P); [|done].
    intros y w3 w4 _ HP3 Hm. by eapply Hclient. }
  destruct (skeleton_Component w wb component comp (proj1 HPb) Hcomp) as (co & Hco & Heq).
  apply erase_Component_lists in Heq as (Hlc & _).
  revert Hcaps. apply (range__preserves P); [|done].
  intros capability w3 w6 Hcin HP3 Hbody.
  apply bind_inv in Hbody as (cap & w3' & Hload & Hbody).
  apply load_inv' in Hload as [-> Hcap].
  apply bind_inv in Hbody as ([] & w5 & Hprops & Hmod).
  destruct (skeleton_Capability w w3 capability cap (proj1 HP3) Hcap) as (k0 & Hk0 & Hek).
  apply erase_Capability_lists in Hek.
  assert (x ∉ Capability_Properties cap) as Hnotin.
  { rewrite <- Hek. eapply (Hfree component co capability k0); try done. by rewrite Hlc. }
  assert (P w5) as HP5.
  { revert Hprops. apply (range__preserves P); [|done].
    intros y w7 w9 Hy HP7 Hm.
    apply bind_inv in Hm as ([] & w8 & Hm1 & Hm2).
    pose proof (Hclient y w7 HP7 w8 Hm1) as [Hs8 (prop8 & Hp8 & Hpar8 & Hval8)].
    apply modify_inv in Hm2 as (o' & Ho' & ->). split.
    - eapply same_skeleton_trans; [exact Hs8|]. by apply skeleton_set_properties.
    - exists prop8. simpl. rewrite lookup_insert_ne; [done|].
      intros ->. done. }
  apply modify_inv in Hmod as (o' & Ho' & ->).
  destruct HP5 as [Hs5 HK5]. split; [|done].
  eapply same_skeleton_trans; [exact Hs5|]. by apply skeleton_set_capabilities.
Qed.

Lemma Property_Update_no_parent Marshal (p : ptr) (prop : Property) (newValue : string)
    (w : World) :
  properties w !! p = Some prop → Property_parent prop = None →
  Value_Value (Property_Value prop) ≠ newValue →
  Property_Update Marshal p newValue w = (Panic, w).
Proof.
  intros Hp Hpar Hne. unfold Property_Update.
  rewrite bind_run, (load_run _ _ _ _ Hp).
  destruct (decide (Value_Value (Property_Value prop) ≠ newValue)); [|done].
  by rewrite Hpar.
Qed.

(** C4 (as the code behaves): [abstract] wires a Property held
    directly by a Component only half. After a successful [abstract]
    of a Thing, a Property in the list of Properties of one of its
    Components, which had no parent and which no Capability of the
    Thing holds, has its client set and still no parent: no path leads
    from it to the Thing, and an [Update] of it with a value different
    from the stored one panics. *)
Theorem abstract_direct_property_unwired (c t component x : ptr) (t' : Thing)
    (comp : Component) (prop : Property) (w w' : World) :
  abstract c t w = (Ret None, w') →
  things w !! t = Some t' →
  component ∈ Thing_Components t' → components w' !! component = Some comp →
  x ∈ Component_Properties comp →
  properties w !! x = Some prop → Property_parent prop = None →
  (∀ component comp capability cap,
     component ∈ Thing_Components t' → components w !! component = Some comp →
     capability ∈ Component_Capabilities comp → capabilities w !! capability = Some cap →
     x ∉ Capability_Properties cap) →
  ∃ prop', properties w' !! x = Some prop'
           ∧ Property_client prop' = Some c
           ∧ Property_parent prop' = None
           ∧ Property_path x w' = None
           ∧ ∀ Marshal newValue,
               Value_Value (Property_Value prop') ≠ newValue →
               Property_Update Marshal x newValue w' = (Panic, w').
Proof.
  intros Hab Ht Hin Hcomp Hx Hprop Hpar Hfree.
  destruct (abstract_keeps_parent c t x t' prop w w' Hab Ht Hprop Hfree)
    as (prop' & Hx' & Hpar' & _).
  destruct (abstract_wires c t t' w w' Hab Ht component Hin)
    as (comp' & Hcomp' & _ & Hdirect & _).
  assert (comp' = comp) as -> by congruence.
  destruct (Hdirect x Hx) as (prop'' & Hx'' & Hclient).
  assert (prop'' = prop') as -> by congruence.
  exists prop'. split; [done|]. split; [done|]. split; [congruence|]. split.
  - unfold Property_path. rewrite Hx'. simpl. by rewrite Hpar', Hpar.
  - intros Marshal newValue Hne.
    apply (Property_Update_no_parent Marshal x prop'); [done | congruence | done].
Qed.

(** The Property "level" of the sample "lamp", held directly by the
    Component "main". *)
Lemma abstract_direct_property_unwired_witness :
  ∃ prop', properties sample.registered !! 2%positive = Some prop'
           ∧ Property_client prop' = Some 1%positive
           ∧ Property_parent prop' = None
           ∧ Property_path 2%positive sample.registered = None
           ∧ ∀ Marshal newValue,
               Value_Value (Property_Value prop') ≠ newValue →
               Property_Update Marshal 2%positive newValue sample.registered
               = (Panic, sample.registered).
Proof.
  apply (abstract_direct_property_unwired 1%positive 1%positive 1%positive 2%positive
           (sample.thing "lamp" [1%positive])
           {| Component_Id := "main"; Component_Name := "main";
              Component_ComponentType := EmptyString;
              Component_Capabilities := [1%positive];
              Component_Properties := [2%positive];
              Component_Actions := [2%positive];
              Component_parent := Some 1%positive |}
           (sample.property "level" "0") sample.world);
    try (by vm_compute); try (by left).
  intros component comp capability cap Hin Hcomp Hcin Hcap.
  apply list_elem_of_singleton in Hin as ->.
  assert (comp = {| Component_Id := "main"; Component_Name := "main";
                    Component_ComponentType := EmptyString;
                    Component_Capabilities := [1%positive];
                    Component_Properties := [2%positive];
                    Component_Actions := [2%positive];
                    Component_parent := None |}) as ->.
  { apply (inj Some). rewrite <- Hcomp. by vm_compute. }
  apply list_elem_of_singleton in Hcin as ->.
  assert (cap = {| Capability_Id := "switch";
                   Capability_Actions := [1%positive; 3%positive];
                   Capability_Properties := [1%positive];
                   Capability_parent := None |}) as ->.
  { apply (inj Some). rewrite <- Hcap. by vm_compute. }
  simpl. intros Hin. by apply list_elem_of_singleton in Hin.
Defined.

(** X11: registration does not make a Property updatable unless a
    Capability holds it. For a Property without parent that no
    Capability of the Thing holds (such as one held directly by a
    Component), after a successful [abstract] of the Thing an [Update]
    with a value different from the stored one panics, and nothing is
    sent. *)
Theorem Update_of_direct_property_panics Marshal (c t x : ptr) (t' : Thing)
    (prop : Property) (newValue : string) (w w' : World) :
  abstract c t w = (Ret None, w') →
  things w !! t = Some t' →
  properties w !! x = Some prop → Property_parent prop = None →
  (∀ component comp capability cap,
     component ∈ Thing_Components t' → components w !! component = Some comp →
     capability ∈ Component_Capabilities comp → capabilities w !! capability = Some cap →
     x ∉ Capability_Properties cap) →
  Value_Value (Property_Value prop) ≠ newValue →
  Property_Update Marshal x newValue w' = (Panic, w').
Proof.
  intros Hab Ht Hx Hpar Hfree Hne.
  destruct (abstract_keeps_parent c t x t' prop w w' Hab Ht Hx Hfree)
    as (prop' & Hx' & Hpar' & Hval').
  apply (Property_Update_no_parent Marshal x prop'); [done | congruence | congruence].
Qed.

Lemma Update_of_direct_property_panics_witness :
  Property_Update sample.MarshalClient 2%positive "1" sample.registered
  = (Panic, sample.registered).
Proof.
  apply (Update_of_direct_property_panics sample.MarshalClient 1%positive 1%positive
           2%positive (sample.thing "lamp" [1%positive]) (sample.property "level" "0")
           "1" sample.world); try (by vm_compute).
  intros component comp capability cap Hin Hcomp Hcin Hcap.
  apply list_elem_of_singleton in Hin as ->.
  assert (comp = {| Component_Id := "main"; Component_Name := "main";
                    Component_ComponentType := EmptyString;
                    Component_Capabilities := [1%positive];
                    Component_Properties := [2%positive];
                    Component_Actions := [2%positive];
                    Component_parent := None |}) as ->.
  { apply (inj Some). rewrite <- Hcomp. by vm_compute. }
  apply list_elem_of_singleton in Hcin as ->.
  assert (cap = {| Capability_Id := "switch";
                   Capability_Actions := [1%positive; 3%positive];
                   Capability_Properties := [1%positive];
                   Capability_parent := None |}) as ->.
  { apply (inj Some). rewrite <- Hcap. by vm_compute. }
  simpl. intros Hin. by apply list_elem_of_singleton in Hin.
Defined.

Lemma send_no_writer Marshal (a : ptr) (msg : protocol.ClientMessage) (data f : list byte)
    (cl : Client) (w : World) :
  Marshal msg = inr data → frame data = Some f →
  clients w !! a = Some cl → Client_writer cl = None →
  send Marshal (Some a) msg w = (Panic, w).
Proof.
  intros HM Hf Hcl Hout. unfold send, frame in *. rewrite HM.
  destruct (lenPrefix (N.of_nat (length data))) as [p|]; [|done].
  rewrite bind_run. simpl load_opt. rewrite (load_run _ _ _ _ Hcl). by rewrite Hout.
Qed.

(** X12: before [Connect] the client has no writer, and an operation
    that has something to send panics instead of returning an error:
    on a registered, wired Property of such a client, [Update] with a
    value different from the stored one panics, with the world
    unchanged; so does [PushThings], after it has incremented the
    update counter. *)
Theorem sending_before_Connect_panics Marshal (c : ptr) (cl : Client) (w : World) :
  clients w !! c = Some cl → Client_writer cl = None →
  (∀ (p capability component thing : ptr) (prop : Property) (cap : Capability)
     (comp : Component) (th : Thing) (newValue : string) (data f : list byte),
     properties w !! p = Some prop →
     Value_Value (Property_Value prop) ≠ newValue →
     Property_parent prop = Some capability → capabilities w !! capability = Some cap →
     Capability_parent cap = Some component → components w !! component = Some comp →
     Component_parent comp = Some thing → things w !! thing = Some th →
     Property_client prop = Some c →
     Marshal (propertyChange_message prop comp th newValue) = inr data →
     frame data = Some f →
     Property_Update Marshal p newValue w = (Panic, w))
  ∧ (∀ (ts : list protocol.Thing) (data f : list byte),
       collect (Client_things cl) Thing_Protocol w = (Ret ts, w) →
       Marshal (requestThingsResponse_message
                  (binary.uint64 (Client_updateCounter cl + 1)) ts) = inr data →
       frame data = Some f →
       ∃ w', PushThings Marshal c w = (Panic, w')
             ∧ (Client_updateCounter <$> clients w' !! c)
               = Some (binary.uint64 (Client_updateCounter cl + 1))
             ∧ wire c w' = None).
Proof.
  intros Hcl Hout. split.
  - intros p capability component thing prop cap comp th newValue data f
      Hp Hne Hpp Hcap Hcp Hcomp Hcop Hth Hpc HM Hf.
    unfold Property_Update. rewrite bind_run, (load_run _ _ _ _ Hp).
    destruct (decide (Value_Value (Property_Value prop) ≠ newValue)); [|done].
    rewrite Hpp. simpl load_opt. rewrite bind_run, (load_run _ _ _ _ Hcap).
    rewrite Hcp. simpl load_opt. rewrite bind_run, (load_run _ _ _ _ Hcomp).
    rewrite Hcop. simpl load_opt. rewrite bind_run, (load_run _ _ _ _ Hth).
    cbv zeta. rewrite bind_run, Hpc.
    change (protocol.clientMessage_PropertyChange _)
      with (propertyChange_message prop comp th newValue).
    by rewrite (send_no_writer Marshal c _ data f cl w HM Hf Hcl Hout).
  - intros ts data f Hts HM Hf. unfold PushThings, sendThings.
    rewrite bind_run, (load_run _ _ _ _ Hcl), bind_run, Hts, bind_run.
    unfold incrementupdateCounter.
    rewrite bind_run, (modify_run _ _ _ _ _ _ Hcl).
    set (cl1 := {| Client_writer := Client_writer cl;
                   Client_things := Client_things cl;
                   Client_updateCounter := binary.uint64 (Client_updateCounter cl + 1);
                   Client_connected := Client_connected cl |}).
    set (w1 := set_clients _ w).
    assert (clients w1 !! c = Some cl1) as Hcl1.
    { unfold w1. simpl. by rewrite lookup_insert_eq. }
    rewrite bind_run, (load_run _ _ _ _ Hcl1), ret_run.
    change (protocol.clientMessage_RequestThingsResponse _)
      with (requestThingsResponse_message
              (binary.uint64 (Client_updateCounter cl + 1)) ts).
    rewrite (send_no_writer Marshal c _ data f cl1 w1 HM Hf Hcl1 Hout).
    exists w1. split; [done|]. unfold wire. rewrite Hcl1. simpl. by rewrite Hout.
Qed.

(** The sample "lamp" registered with a client made by [NewClient]. *)
Lemma sending_before_Connect_panics_witness :
  Property_Update sample.MarshalClient 1%positive "on" sample_offline
  = (Panic, sample_offline)
  ∧ ∃ w', PushThings sample.MarshalClient 1%positive sample_offline = (Panic, w')
          ∧ (Client_updateCounter <$> clients w' !! 1%positive)
            = Some (binary.uint64 (Client_updateCounter (append_things 1%positive NewClient) + 1))
          ∧ wire 1%positive w' = None.
Proof.
  destruct (sending_before_Connect_panics sample.MarshalClient 1%positive
              (append_things 1%positive NewClient) sample_offline) as [HA HB];
    [by vm_compute | by vm_compute |].
  split.
  - eapply (HA 1%positive 1%positive 1%positive 1%positive); by vm_compute.
  - eapply HB; by vm_compute.
Defined.

(** * Snapshots *)

(** ** The wire form of a Thing *)

Lemma bind_fst {A B} (m : M A) (k : A → M B) (w : World) :
  readonly m →
  ((m ≫= k) w).1 = match (m w).1 with Ret a => (k a w).1 | Panic => Panic end.
Proof.
  intros Hro. rewrite bind_run. specialize (Hro w).
  destruct (m w) as [[a|] w1]; simpl in *; by subst.
Qed.

Lemma readonly_collect {A B} (l : list A) (f : A → M B) :
  (∀ x, readonly (f x)) → readonly (collect l f).
Proof.
  intros Hf. induction l as [|x l IH]; simpl; [apply readonly_ret|].
  apply readonly_bind; [apply Hf|]. intros y.
  apply readonly_bind; [apply IH|]. intros ys. apply readonly_ret.
Qed.

Lemma Property_Protocol_readonly (p : ptr) : readonly (Property_Protocol p).
Proof. unfold Property_Protocol. solve_readonly. Qed.

Lemma Action_Protocol_readonly (a : ptr) : readonly (Action_Protocol a).
Proof. unfold Action_Protocol. solve_readonly. Qed.

Lemma Capability_Protocol_readonly (c : ptr) : readonly (Capability_Protocol c).
Proof.
  unfold Capability_Protocol.
  apply readonly_bind; [apply readonly_load|]. intros cap.
  apply readonly_bind; [apply readonly_collect, Action_Protocol_readonly|]. intros acts.
  apply readonly_bind; [apply readonly_collect, Property_Protocol_readonly|]. intros props.
  apply readonly_ret.
Qed.

Lemma Component_Protocol_readonly (c : ptr) : readonly (Component_Protocol c).
Proof.
  unfold Component_Protocol.
  apply readonly_bind; [apply readonly_load|]. intros comp.
  apply readonly_bind; [apply readonly_collect, Capability_Protocol_readonly|]. intros caps.
  apply readonly_bind; [apply readonly_collect, Property_Protocol_readonly|]. intros props.
  apply readonly_bind; [apply readonly_collect, Action_Protocol_readonly|]. intros acts.
  apply readonly_ret.
Qed.

Lemma Thing_Protocol_readonly (t : ptr) : readonly (Thing_Protocol t).
Proof.
  unfold Thing_Protocol.
  apply readonly_bind; [apply readonly_load|]. intros t'.
  apply readonly_bind; [apply readonly_collect, Component_Protocol_readonly|]. intros comps.
  apply readonly_ret.
Qed.

Section BackReferences.

(** Two worlds that hold the same tree up to back-references. *)
Variables w w' : World.
Hypothesis Hthings : things w' = things w.
Hypothesis Hactions : actions w' = actions w.
Hypothesis Hcomponents : erase_Component <$> components w' = erase_Component <$> components w.
Hypothesis Hcapabilities :
  erase_Capability <$> capabilities w' = erase_Capability <$> capabilities w.
Hypothesis Hproperties : erase_Property <$> properties w' = erase_Property <$> properties w.

Lemma collect_agree {A B} (l : list A) (f : A → M B) :
  (∀ x, readonly (f x)) → (∀ x, (f x w').1 = (f x w).1) →
  (collect l f w').1 = (collect l f w).1.
Proof.
  intros Hro Hf. induction l as [|x l IH]; [done|]. simpl.
  rewrite !bind_fst by apply Hro. rewrite Hf.
  destruct (f x w).1 as [y|]; [|done].
  rewrite !bind_fst by (by apply readonly_collect). rewrite IH.
  by destruct (collect l f w).1.
Qed.

Lemma Property_Protocol_agree (p : ptr) :
  (Property_Protocol p w').1 = (Property_Protocol p w).1.
Proof.
  unfold Property_Protocol. rewrite !bind_fst by apply readonly_load.
  unfold load.
  assert (erase_Property <$> properties w' !! p = erase_Property <$> properties w !! p) as H.
  { by rewrite <- !lookup_fmap, Hproperties. }
  destruct (properties w' !! p) as [o'|], (properties w !! p) as [o|]; try done.
  simpl in *. injection H as Hv Hn. by rewrite Hv, Hn.
Qed.

Lemma Action_Protocol_agree (a : ptr) :
  (Action_Protocol a w').1 = (Action_Protocol a w).1.
Proof.
  unfold Action_Protocol. rewrite !bind_fst by apply readonly_load.
  unfold load. rewrite Hactions. by destruct (actions w !! a).
Qed.

Lemma Capability_Protocol_agree (c : ptr) :
  (Capability_Protocol c w').1 = (Capability_Protocol c w).1.
Proof.
  unfold Capability_Protocol. rewrite !bind_fst by apply readonly_load.
  unfold load.
  assert (erase_Capability <$> capabilities w' !! c
          = erase_Capability <$> capabilities w !! c) as H.
  { by rewrite <- !lookup_fmap, Hcapabilities. }
  destruct (capabilities w' !! c) as [o'|], (capabilities w !! c) as [o|]; try done.
  simpl in *. injection H as Hid Hacts Hprops.
  rewrite !bind_fst by apply readonly_collect, Action_Protocol_readonly.
  rewrite Hacts, (collect_agree _ _ Action_Protocol_readonly Action_Protocol_agree).
  destruct (collect (Capability_Actions o) Action_Protocol w).1; [|done].
  rewrite !bind_fst by apply readonly_collect, Property_Protocol_readonly.
  rewrite Hprops, (collect_agree _ _ Property_Protocol_readonly Property_Protocol_agree).
  destruct (collect (Capability_Properties o) Property_Protocol w).1; [|done].
  simpl. by rewrite Hid.
Qed.

Lemma Component_Protocol_agree (c : ptr) :
  (Component_Protocol c w').1 = (Component_Protocol c w).1.
Proof.
  unfold Component_Protocol. rewrite !bind_fst by apply readonly_load.
  unfold load.
  assert (erase_Component <$> components w' !! c
          = erase_Component <$> components w !! c) as H.
  { by rewrite <- !lookup_fmap, Hcomponents. }
  destruct (components w' !! c) as [o'|], (components w !! c) as [o|]; try done.
  simpl in *. injection H as Hid Hname Htype Hcaps Hprops Hacts.
  rewrite !bind_fst by apply readonly_collect, Capability_Protocol_readonly.
  rewrite Hcaps,
    (collect_agree _ _ Capability_Protocol_readonly Capability_Protocol_agree).
  destruct (collect (Component_Capabilities o) Capability_Protocol w).1; [|done].
  rewrite !bind_fst by apply readonly_collect, Property_Protocol_readonly.
  rewrite Hprops, (collect_agree _ _ Property_Protocol_readonly Property_Protocol_agree).
  destruct (collect (Component_Properties o) Property_Protocol w).1; [|done].
  rewrite !bind_fst by apply readonly_collect, Action_Protocol_readonly.
  rewrite Hacts, (collect_agree _ _ Action_Protocol_readonly Action_Protocol_agree).
  destruct (collect (Component_Actions o) Action_Protocol w).1; [|done].
  simpl. by rewrite Hid, Hname, Htype.
Qed.

Lemma Thing_Protocol_agree (t : ptr) :
  (Thing_Protocol t w').1 = (Thing_Protocol t w).1.
Proof.
  unfold Thing_Protocol. rewrite !bind_fst by apply readonly_load.
  unfold load. rewrite Hthings. destruct (things w !! t) as [t'|]; [|done]. simpl.
  rewrite !bind_fst by apply readonly_collect, Component_Protocol_readonly.
  rewrite (collect_agree _ _ Component_Protocol_readonly Component_Protocol_agree).
  by destruct (collect (Thing_Components t') Component_Protocol w).1.
Qed.

End BackReferences.

(** X13: registering a Thing changes the wire form of no Thing:
    [Thing.Protocol] reads identifiers, names, values and the lists of
    children, never a back-reference, so after a successful [abstract]
    it gives, for every Thing, what it gave before. *)
Theorem registration_keeps_wire_form (c t x : ptr) (w w' : World) :
  abstract c t w = (Ret None, w') →
  Thing_Protocol x w' = ((Thing_Protocol x w).1, w').
Proof.
  intros H. apply abstract_ok_inv in H as (t' & cl & w1 & _ & _ & Hw & _ & Hcl & ->).
  destruct Hw as ((Hc & Ht & Ha & Hi & Hco & Hca & Hp) & _).
  set (w2 := set_clients _ w1).
  pose proof (Thing_Protocol_readonly x w2) as Hro.
  pose proof (Thing_Protocol_agree w w2 Ht Ha Hco Hca Hp x) as Hag.
  destruct (Thing_Protocol x w2) as [r w3]. simpl in *. by subst.
Qed.

Lemma registration_keeps_wire_form_witness :
  Thing_Protocol 1%positive sample.registered
  = ((Thing_Protocol 1%positive sample.world).1, sample.registered).
Proof.
  apply (registration_keeps_wire_form 1%positive 1%positive). by vm_compute.
Defined.

(** ** The snapshot sent by [PushThings] *)

Lemma collect_Forall2 {A B} (f : A → M B) (l : list A) (ys : list B) (w : World) :
  Forall2 (λ x y, f x w = (Ret y, w)) l ys → collect l f w = (Ret ys, w).
Proof.
  induction 1 as [|x y l ys Hx _ IH]; [done|]. simpl.
  by rewrite bind_run, Hx, bind_run, IH.
Qed.

(** The client after [incrementupdateCounter]. *)
#[local] Abbreviation counted cl :=
  {| Client_writer := Client_writer cl;
     Client_things := Client_things cl;
     Client_updateCounter := binary.uint64 (Client_updateCounter cl + 1);
     Client_connected := Client_connected cl |}.

Lemma set_clients_twice (c : ptr) (cl1 cl2 : Client) (w : World) :
  set_clients (λ s, <[c := cl2]> s) (set_clients (λ s, <[c := cl1]> s) w)
  = set_clients (λ s, <[c := cl2]> s) w.
Proof. unfold set_clients. simpl. by rewrite insert_insert_eq. Qed.

Lemma sendThings_counted Marshal (c : ptr) (cl : Client) (ts : list protocol.Thing)
    (w : World) :
  clients w !! c = Some cl →
  Forall2 (λ t pt, Thing_Protocol t w = (Ret pt, w)) (Client_things cl) ts →
  sendThings Marshal c w
  = send Marshal (Some c)
      (requestThingsResponse_message (binary.uint64 (Client_updateCounter cl + 1)) ts)
      (set_clients (λ s, <[c := counted cl]> s) w).
Proof.
  intros Hcl Hts. unfold sendThings.
  rewrite bind_run, (load_run _ _ _ _ Hcl), bind_run, (collect_Forall2 _ _ _ _ Hts), bind_run.
  unfold incrementupdateCounter.
  rewrite bind_run, (modify_run _ _ _ _ _ _ Hcl).
  set (w1 := set_clients _ w).
  assert (clients w1 !! c = Some (counted cl)) as Hcl1.
  { unfold w1. simpl. by rewrite lookup_insert_eq. }
  by rewrite bind_run, (load_run _ _ _ _ Hcl1), ret_run.
Qed.

(** X14: on a connected client, [PushThings] sends one snapshot: the
    wire forms of the registered Things, in registration order, with
    the update counter incremented by one modulo [2^64] as the update
    lock; the frame of that message is appended to what the client has
    written, the counter is stored, and nothing else changes. *)
Theorem PushThings_sends_snapshot Marshal (c : ptr) (cl : Client) (out : list byte)
    (ts : list protocol.Thing) (data f : list byte) (w : World) :
  clients w !! c = Some cl → Client_writer cl = Some out →
  Forall2 (λ t pt, Thing_Protocol t w = (Ret pt, w)) (Client_things cl) ts →
  Marshal (requestThingsResponse_message
             (binary.uint64 (Client_updateCounter cl + 1)) ts) = inr data →
  frame data = Some f →
  PushThings Marshal c w
  = (Ret None,
     set_clients (λ s,
       <[c := {| Client_writer := Some (out ++ f);
                 Client_things := Client_things cl;
                 Client_updateCounter := binary.uint64 (Client_updateCounter cl + 1);
                 Client_connected := Client_connected cl |}]> s) w).
Proof.
  intros Hcl Hout Hts HM Hf. unfold PushThings.
  rewrite (sendThings_counted Marshal c cl ts w Hcl Hts).
  erewrite send_run; [| exact HM | exact Hf | simpl; by rewrite lookup_insert_eq | exact Hout].
  by rewrite set_clients_twice.
Qed.

(** The sample "lamp" on the connected sample client: the first
    snapshot carries the counter 1. *)
Lemma PushThings_sends_snapshot_witness :
  ∃ w', PushThings sample.MarshalClient 1%positive sample.registered = (Ret None, w')
        ∧ wire 1%positive w' = Some [x00]
        ∧ (Client_updateCounter <$> clients w' !! 1%positive) = Some 1.
Proof.
  eexists. split.
  - apply (PushThings_sends_snapshot sample.MarshalClient 1%positive
             {| Client_writer := Some []; Client_things := [1%positive];
                Client_updateCounter := 0; Client_connected := true |}
             []
             match (Thing_Protocol 1%positive sample.registered).1 with
             | Ret pt => [pt]
             | Panic => []
             end
             [] [x00]).
    + by vm_compute.
    + done.
    + vm_compute. by repeat constructor.
    + by vm_compute.
    + by vm_compute.
  - by vm_compute.
Defined.

(** X15: a snapshot that cannot be encoded still consumes a counter
    value: [sendThings] increments the update counter before [send]
    encodes the message, so when the encoder fails [PushThings] returns
    the encoder's error with the incremented counter stored; nothing is
    written, and since the writer is not reached this holds for a
    client that is not connected as well. *)
Theorem PushThings_encoder_error Marshal (c : ptr) (cl : Client)
    (ts : list protocol.Thing) (err : error) (w : World) :
  clients w !! c = Some cl →
  Forall2 (λ t pt, Thing_Protocol t w = (Ret pt, w)) (Client_things cl) ts →
  Marshal (requestThingsResponse_message
             (binary.uint64 (Client_updateCounter cl + 1)) ts) = inl err →
  PushThings Marshal c w
  = (Ret (Some err),
     set_clients (λ s,
       <[c := {| Client_writer := Client_writer cl;
                 Client_things := Client_things cl;
                 Client_updateCounter := binary.uint64 (Client_updateCounter cl + 1);
                 Client_connected := Client_connected cl |}]> s) w).
Proof.
  intros Hcl Hts HM. unfold PushThings.
  rewrite (sendThings_counted Marshal c cl ts w Hcl Hts).
  unfold send. by rewrite HM.
Qed.

(** The sample "lamp" on a client made by [NewClient], with an encoder
    that rejects every message. *)
Lemma PushThings_encoder_error_witness :
  ∃ w', PushThings (λ _, inl "required field not set") 1%positive sample_offline
        = (Ret (Some "required field not set"), w')
        ∧ wire 1%positive w' = None
        ∧ (Client_updateCounter <$> clients w' !! 1%positive) = Some 1.
Proof.
  eexists. split.
  - apply (PushThings_encoder_error (λ _, inl "required field not set") 1%positive
             (append_things 1%positive NewClient)
             match (Thing_Protocol 1%positive sample_offline).1 with
             | Ret pt => [pt]
             | Panic => []
             end).
    + by vm_compute.
    + vm_compute. by repeat constructor.
    + done.
  - by vm_compute.
Defined.

(** * Further properties of the framing *)

Section ReadMore.

Context {Msg : Type}.
Variable Unmarshal : list byte → option Msg.

Lemma readPayload_S (fuel : nat) (conn : net.Conn) (mb : bytes.Buffer) (received expected : N) :
  readPayload (S fuel) conn mb received expected
  = if received <? expected then
      match net.Read (N.to_nat (expected - received)) conn with
      | (None, conn') => Some (conn', mb)
      | (Some data, conn') =>
          readPayload fuel conn' (bytes.Write mb data)
            (received + N.of_nat (length data)) expected
      end
    else Some (conn, mb).
Proof. reflexivity. Qed.

Lemma readLoop_S (fuel : nat) (conn : net.Conn) (mb lb : bytes.Buffer) (q : list Msg) :
  readLoop Unmarshal (S fuel) conn mb lb q
  = match net.Read 1 conn with
    | (None, _) => Some q
    | (Some lengthBytes, conn1) =>
        if bool_decide (length lengthBytes = 0%nat)
        then readLoop Unmarshal fuel conn1 mb lb q
        else
          match binary_read.ReadUvarint (bytes.Write lb lengthBytes) with
          | ((_, Some _), lengthBuf1) => readLoop Unmarshal fuel conn1 mb lengthBuf1 q
          | ((expectedLength, None), lengthBuf1) =>
              match readPayload fuel conn1 mb 0 expectedLength with
              | None => None
              | Some (conn2, messageBuf1) =>
                  match Unmarshal (bytes.Bytes messageBuf1) with
                  | None =>
                      readLoop Unmarshal fuel conn2 messageBuf1 (bytes.Reset lengthBuf1) q
                  | Some serverMessage =>
                      readLoop Unmarshal fuel conn2 (bytes.Reset messageBuf1)
                        (bytes.Reset lengthBuf1) (q ++ [serverMessage])
                  end
              end
          end
    end.
Proof. reflexivity. Qed.

(** ** More iterations than needed change nothing *)

Lemma readPayload_fuel_S (fuel : nat) :
  ∀ conn mb received expected res,
    readPayload fuel conn mb received expected = Some res →
    readPayload (S fuel) conn mb received expected = Some res.
Proof.
  induction fuel as [|fuel IH]; intros conn mb received expected res H.
  - rewrite readPayload_S. simpl in H. by destruct (received <? expected).
  - rewrite readPayload_S in H. rewrite readPayload_S.
    destruct (received <? expected); [|done].
    destruct (net.Read (N.to_nat (expected - received)) conn) as [[p|] conn']; [|done].
    by apply IH.
Qed.

Lemma readLoop_fuel_S (fuel : nat) :
  ∀ conn mb lb q res,
    readLoop Unmarshal fuel conn mb lb q = Some res →
    readLoop Unmarshal (S fuel) conn mb lb q = Some res.
Proof.
  induction fuel as [|fuel IH]; intros conn mb lb q res H; [done|].
  rewrite readLoop_S in H. rewrite readLoop_S.
  destruct (net.Read 1 conn) as [[p|] conn1]; [|done].
  case_bool_decide; [by apply IH|].
  destruct (binary_read.ReadUvarint (bytes.Write lb p)) as [[x [e|]] lb1]; [by apply IH|].
  destruct (readPayload fuel conn1 mb 0 x) as [[conn2 mb1]|] eqn:E; [|done].
  rewrite (readPayload_fuel_S _ _ _ _ _ _ E).
  destruct (Unmarshal (bytes.Bytes mb1)); by apply IH.
Qed.

Lemma readLoop_fuel_le (fuel fuel' : nat) (conn : net.Conn) (mb lb : bytes.Buffer)
    (q res : list Msg) :
  (fuel ≤ fuel')%nat →
  readLoop Unmarshal fuel conn mb lb q = Some res →
  readLoop Unmarshal fuel' conn mb lb q = Some res.
Proof.
  intros Hle H. induction Hle as [|fuel' _ IH]; [done|]. by apply readLoop_fuel_S.
Qed.

(** ** Short frames followed by more *)

Lemma readLoop_short_frames (Marshal : Msg → list byte) (msgs : list Msg)
    (frames : list (list byte)) :
  (∀ m, m ∈ msgs → N.of_nat (length (Marshal m)) < 128 ∧ Unmarshal (Marshal m) = Some m) →
  Forall2 (λ m f, frame (Marshal m) = Some f) msgs frames →
  ∀ (conn : net.Conn) (rest : list byte) (fuel : nat),
    concat conn = concat frames ++ rest → (net.size conn < fuel)%nat →
    ∃ conn' fuel',
      (net.size conn' < fuel')%nat ∧ concat conn' = rest
      ∧ ∀ q, readLoop Unmarshal fuel conn [] [] q
             = readLoop Unmarshal fuel' conn' [] [] (q ++ msgs).
Proof.
  intros Hmsgs Hframes.
  induction Hframes as [|m f msgs frames Hf _ IH]; intros conn rest fuel Hcat Hfuel.
  - exists conn, fuel. split; [done|]. split; [done|]. intros q. by rewrite app_nil_r.
  - destruct (Hmsgs m) as [Hlen Hrt]; [by left|].
    rewrite frame_short in Hf by done. injection Hf as <-.
    simpl in Hcat. rewrite <- app_assoc in Hcat.
    destruct (readLoop_frame Unmarshal conn fuel _ (Marshal m) (concat frames ++ rest) Hcat)
      as (conn1 & fuel1 & Hfuel1 & Hcat1 & Hrun1).
    { by rewrite to_N_byte_of_N by lia. }
    { by rewrite to_N_byte_of_N by lia. }
    { done. }
    destruct (IH (λ m' Hm', Hmsgs m' (list_elem_of_further _ _ _ Hm')) conn1 rest fuel1 Hcat1 Hfuel1)
      as (conn2 & fuel2 & Hfuel2 & Hcat2 & Hrun2).
    exists conn2, fuel2. split; [done|]. split; [done|].
    intros q. rewrite Hrun1. simpl. rewrite Hrt, Hrun2. by rewrite <- app_assoc.
Qed.

(** ** A frame cut off by the end of the connection *)

(** When the connection fails before the announced length has arrived,
    the inner loop ends with what has arrived. *)
Lemma readPayload_truncated (conn : net.Conn) :
  ∀ fuel part mb received expected,
    concat conn = part → N.of_nat (length part) < expected - received →
    (net.size conn < fuel)%nat →
    readPayload fuel conn mb received expected = Some ([], mb ++ part).
Proof.
  induction conn as [|ch cs IH]; intros fuel part mb received expected Hcat Hlen Hfuel;
    (destruct fuel as [|fuel]; [lia|]); rewrite readPayload_S;
    (destruct (N.ltb_spec received expected); [|lia]).
  - simpl in Hcat. subst. by rewrite app_nil_r.
  - simpl in Hcat, Hfuel. subst part. rewrite length_app in Hlen. simpl.
    rewrite take_ge, drop_ge by lia.
    rewrite (IH fuel (concat cs)); [by rewrite <- app_assoc | done | lia | lia].
Qed.

Lemma readLoop_truncated (conn : net.Conn) :
  ∀ fuel (b : byte) (part : list byte),
    concat conn = b :: part →
    Byte.to_N b < 128 → N.of_nat (length part) < Byte.to_N b →
    (net.size conn < fuel)%nat →
    ∀ mb q,
      readLoop Unmarshal fuel conn mb [] q
      = Some (q ++ match Unmarshal (mb ++ part) with Some m => [m] | None => [] end).
Proof.
  induction conn as [|ch cs IH]; intros fuel b part Hcat Hb Hlen Hfuel mb q; [done|].
  simpl in Hcat, Hfuel. destruct fuel as [|fuel]; [lia|].
  destruct ch as [|b' ch'].
  - rewrite readLoop_S. simpl. apply (IH fuel b part); [done | done | done | lia].
  - simpl in Hcat. injection Hcat as -> Hcat.
    set (conn1 := match drop 1 (b :: ch') with [] => cs | ch'' => ch'' :: cs end).
    assert (concat conn1 = part ∧ (net.size conn1 < fuel)%nat) as [Hcat1 Hsize1].
    { unfold conn1. simpl. rewrite drop_0. destruct ch'; simpl in *; split; (done || lia). }
    rewrite readLoop_S.
    change (net.Read 1 ((b :: ch') :: cs)) with (Some [b], conn1). cbv beta iota.
    rewrite bool_decide_eq_false_2 by done.
    change (bytes.Write [] [b]) with [b].
    rewrite (ReadUvarint_single_small b Hb).
    rewrite (readPayload_truncated conn1 fuel part mb 0 (Byte.to_N b) Hcat1) by (done || lia).
    unfold bytes.Bytes, bytes.Reset.
    destruct fuel as [|fuel]; [lia|].
    destruct (Unmarshal (mb ++ part)); rewrite readLoop_S; simpl; [done|].
    by rewrite app_nil_r.
Qed.

End ReadMore.

(** ** What [send] writes, [read] receives *)

Lemma send_all_run Marshal (c : ptr) (msgs : list protocol.ClientMessage)
    (frames : list (list byte)) :
  Forall2 (λ m f, ∃ data, Marshal m = inr data ∧ frame data = Some f) msgs frames →
  ∀ (w : World) (cl : Client) (out : list byte),
    clients w !! c = Some cl → Client_writer cl = Some out →
    ∃ w', range_ msgs (λ m, send Marshal (Some c) m;; mret ()) w = (Ret (), w')
          ∧ wire c w' = Some (out ++ concat frames).
Proof.
  induction 1 as [|m f msgs frames (data & HM & Hf) _ IH]; intros w cl out Hcl Hout.
  - exists w. split; [done|]. unfold wire. rewrite Hcl. simpl. by rewrite app_nil_r.
  - set (w1 := set_clients (λ s, <[c := set_Client_writer (out ++ f) cl]> s) w).
    destruct (IH w1 (set_Client_writer (out ++ f) cl) (out ++ f)) as (w' & Hrun & Hw').
    { unfold w1. simpl. by rewrite lookup_insert_eq. }
    { done. }
    exists w'. split.
    + simpl. rewrite bind_run, bind_run, (send_run Marshal c m data f out cl w HM Hf Hcl Hout).
      by rewrite ret_run.
    + simpl. by rewrite Hw', <- app_assoc.
Qed.

(** X16: the framing of [send] is read back by the receive loop of
    [read]: when a connected client that has written nothing sends
    messages one after another, each with an encoding of fewer than
    128 bytes that decodes back to it, every [send] succeeds, and a
    loop reading what was written, delivered in pieces of any sizes,
    receives exactly those messages in the order sent. *)
Theorem sent_messages_are_read Marshal (Unmarshal : list byte → option protocol.ClientMessage)
    (c : ptr) (msgs : list protocol.ClientMessage) (w : World) :
  wire c w = Some [] →
  (∀ m, m ∈ msgs →
     ∃ data, Marshal m = inr data ∧ N.of_nat (length data) < 128 ∧ Unmarshal data = Some m) →
  ∃ w' out,
    range_ msgs (λ m, send Marshal (Some c) m;; mret ()) w = (Ret (), w')
    ∧ wire c w' = Some out
    ∧ ∀ conn : net.Conn, concat conn = out → read Unmarshal conn = msgs.
Proof.
  intros Hwire Hmsgs. unfold wire in Hwire.
  destruct (clients w !! c) as [cl|] eqn:Hcl; [|done]. simpl in Hwire.
  set (enc := λ m, match Marshal m with inr d => d | inl _ => [] end).
  set (frames := map (λ m, byte_of_N (N.of_nat (length (enc m))) :: enc m) msgs).
  assert (∀ m, m ∈ msgs →
            Marshal m = inr (enc m) ∧ N.of_nat (length (enc m)) < 128
            ∧ Unmarshal (enc m) = Some m) as Henc.
  { intros m Hm. destruct (Hmsgs m Hm) as (data & HM & Hlen & Hrt).
    unfold enc. by rewrite HM. }
  assert (Forall2 (λ m f, frame (enc m) = Some f) msgs frames) as HF.
  { unfold frames. apply Forall2_fmap_r, Forall_Forall2_diag, Forall_forall.
    intros m Hm. apply frame_short. by apply Henc. }
  destruct (send_all_run Marshal c msgs frames) with (w := w) (cl := cl) (out := @nil byte)
    as (w' & Hrun & Hw'); [|done|done|].
  { eapply Forall2_impl; [|intros m f Hf; exact Hf].
    unfold frames. apply Forall2_fmap_r, Forall_Forall2_diag, Forall_forall.
    intros m Hm. exists (enc m). split; [by apply Henc|]. apply frame_short. by apply Henc. }
  exists w', (concat frames). split; [done|]. split; [done|].
  intros conn Hcat. apply (read_short_frames enc Unmarshal msgs frames conn); [|done|done].
  intros m Hm. split; by apply Henc.
Qed.

(** Two execution results sent by the connected sample client. *)
Lemma sent_messages_are_read_witness :
  let msgs := [executionResult_message None (Some 7);
               executionResult_message (Some "boom") (Some 8)] in
  ∃ w' out,
    range_ msgs (λ m, send sample.MarshalClient (Some 1%positive) m;; mret ()) sample.world
    = (Ret (), w')
    ∧ wire 1%positive w' = Some out
    ∧ ∀ conn : net.Conn, concat conn = out → read sample_UnmarshalClient conn = msgs.
Proof.
  cbv zeta. apply sent_messages_are_read; [by vm_compute|].
  intros m Hm. apply elem_of_cons in Hm as [-> | Hm].
  { eexists. split; [reflexivity|]. split; by vm_compute. }
  apply list_elem_of_singleton in Hm as ->.
  eexists. split; [reflexivity|]. split; by vm_compute.
Defined.

(** X17: a frame cut off by the end of the connection is not dropped:
    after complete short frames, when the connection fails before the
    announced number of payload bytes has arrived, the inner loop
    stops, and the bytes that did arrive are decoded like a complete
    payload; if they decode, a message is delivered from the truncated
    frame. *)
Theorem read_truncated_frame {Msg} (Marshal : Msg → list byte)
    (Unmarshal : list byte → option Msg) (msgs : list Msg) (frames : list (list byte))
    (b : byte) (part : list byte) (conn : net.Conn) :
  (∀ m, m ∈ msgs → N.of_nat (length (Marshal m)) < 128 ∧ Unmarshal (Marshal m) = Some m) →
  Forall2 (λ m f, frame (Marshal m) = Some f) msgs frames →
  Byte.to_N b < 128 → N.of_nat (length part) < Byte.to_N b →
  concat conn = concat frames ++ b :: part →
  read Unmarshal conn
  = msgs ++ match Unmarshal part with Some m => [m] | None => [] end.
Proof.
  intros Hmsgs Hframes Hb Hlen Hcat.
  destruct (readLoop_short_frames Unmarshal Marshal msgs frames Hmsgs Hframes
              conn (b :: part) (S (net.size conn)) Hcat)
    as (conn' & fuel' & Hfuel' & Hcat' & Hrun); [lia|].
  unfold read. rewrite Hrun.
  by rewrite (readLoop_truncated Unmarshal conn' fuel' b part Hcat' Hb Hlen Hfuel').
Qed.

(** After one complete frame, a frame that announces five bytes and
    delivers two: both are received. *)
Lemma read_truncated_frame_witness :
  read sample.Unmarshal (net.bytewise ([x02; x0a; x01] ++ [x05; x0a; x02]))
  = [[x01]] ++ [[x02]].
Proof.
  apply (read_truncated_frame sample.Marshal sample.Unmarshal [[x01]] [[x02; x0a; x01]]
           x05 [x0a; x02]).
  - intros m Hm. apply list_elem_of_singleton in Hm as ->. split; by vm_compute.
  - by repeat constructor.
  - by vm_compute.
  - by vm_compute.
  - done.
Defined.

(** X18: the receive loop ends when the connection fails: on a
    connection that delivers finitely many pieces, every bound on the
    iterations above the number of bytes and pieces left is enough for
    the loop to end, and the messages delivered do not depend on the
    bound. *)
Theorem readLoop_returns {Msg} (Unmarshal : list byte → option Msg) (conn : net.Conn)
    (fuel : nat) :
  (net.size conn < fuel)%nat →
  readLoop Unmarshal fuel conn [] [] [] = Some (read Unmarshal conn).
Proof.
  intros Hfuel. apply (readLoop_fuel_le Unmarshal (S (net.size conn))); [lia|].
  apply read_returns.
Qed.

Lemma readLoop_returns_witness :
  readLoop sample.Unmarshal 100 [[x02; x0a]; []; [x01; x00]] [] [] []
  = Some (read sample.Unmarshal [[x02; x0a]; []; [x01; x00]]).
Proof. apply readLoop_returns. simpl. lia. Defined.

(** * The names of the value types *)

Lemma ValueTypeFromString_unfold (s : string) :
  ValueTypeFromString s
  = if decide ("BOOLEAN" = s) then (Boolean, None)
    else if decide ("STRING" = s) then (String_, None)
    else if decide ("NUMBER" = s) then (Number, None)
    else (String_, Some ("Unknwon ValueType: " +:+ s)).
Proof. reflexivity. Qed.

(** X19: [ValueTypeFromString] inverts [ValueType.String]: it returns
    a value type without an error exactly for that type's name, so
    every value type is recovered from its name, names differ from
    type to type, and matching is case-sensitive. *)
Theorem ValueTypeFromString_inverts_String (s : string) (v : ValueType) :
  ValueTypeFromString s = (v, None) ↔ s = ValueType_String v.
Proof.
  rewrite ValueTypeFromString_unfold. split.
  - intros H. repeat case_decide; simplify_eq; done.
  - intros ->. by destruct v.
Qed.

(** X20: for a string that is the name of no value type,
    [ValueTypeFromString] returns the error ["Unknwon ValueType: "]
    followed by the string, together with [String] as the value. *)
Theorem ValueTypeFromString_unknown (s : string) :
  (∀ v, s ≠ ValueType_String v) →
  ValueTypeFromString s = (String_, Some ("Unknwon ValueType: " +:+ s)).
Proof.
  intros H. rewrite ValueTypeFromString_unfold.
  repeat case_decide; try done; subst.
  - by destruct (H Boolean).
  - by destruct (H String_).
  - by destruct (H Number).
Qed.

(** The lower-case name is not accepted. *)
Lemma ValueTypeFromString_unknown_witness :
  ValueTypeFromString "number" = (String_, Some "Unknwon ValueType: number").
Proof. apply (ValueTypeFromString_unknown "number"). by intros []. Defined.

(** * What the running client never changes *)

Lemma extends_refl (w : World) : extends w w.
Proof.
  split; [apply same_tree_refl|]. split; [done|]. split.
  - intros c out H. exists []. by rewrite app_nil_r.
  - exists []. by rewrite app_nil_r.
Qed.

Lemma extends_trans (w1 w2 w3 : World) : extends w1 w2 → extends w2 w3 → extends w1 w3.
Proof.
  intros ((Ht1 & Hco1 & Hca1 & Hp1 & Ha1) & Hr1 & Hw1 & (m1 & Hi1))
         ((Ht2 & Hco2 & Hca2 & Hp2 & Ha2) & Hr2 & Hw2 & (m2 & Hi2)).
  split; [|split; [|split]].
  - repeat split; congruence.
  - intros c. by rewrite Hr2.
  - intros c out H. destruct (Hw1 c out H) as [more1 H1].
    destruct (Hw2 c _ H1) as [more2 H2]. exists (more1 ++ more2). by rewrite app_assoc.
  - exists (m1 ++ m2). by rewrite Hi2, Hi1, app_assoc.
Qed.

Lemma only_extends_readonly {A} (m : M A) : readonly m → only_extends m.
Proof. intros H w. rewrite H. apply extends_refl. Qed.

Lemma only_extends_bind {A B} (m : M A) (f : A → M B) :
  only_extends m → (∀ a, only_extends (f a)) → only_extends (m ≫= f).
Proof.
  intros Hm Hf w. rewrite bind_run. specialize (Hm w).
  destruct (m w) as [[a|] w1]; simpl in Hm; [|done].
  eapply extends_trans; [exact Hm | apply Hf].
Qed.

(** A write to a client that keeps its Things and keeps or extends what
    it has written. *)
Lemma extends_set_client (a : ptr) (cl cl' : Client) (w : World) :
  clients w !! a = Some cl →
  Client_things cl' = Client_things cl →
  (∀ out, Client_writer cl = Some out → ∃ more, Client_writer cl' = Some (out ++ more)) →
  extends w (set_clients (λ s, <[a := cl']> s) w).
Proof.
  intros Hcl Hthings Hout.
  split; [apply same_tree_set_clients|]. split; [|split].
  - intros c. unfold registered_things. simpl.
    destruct (decide (c = a)) as [->|Hne].
    + rewrite lookup_insert_eq, Hcl. simpl. by rewrite Hthings.
    + by rewrite lookup_insert_ne.
  - intros c out. unfold wire. simpl.
    destruct (decide (c = a)) as [->|Hne].
    + rewrite lookup_insert_eq, Hcl. simpl. apply Hout.
    + rewrite lookup_insert_ne by done. intros H. exists []. by rewrite app_nil_r.
  - exists []. by rewrite app_nil_r.
Qed.

Lemma only_extends_send Marshal (c : option ptr) (msg : protocol.ClientMessage) :
  only_extends (send Marshal c msg).
Proof.
  intros w. unfold send. destruct (Marshal msg) as [e|data]; [apply extends_refl|].
  destruct (lenPrefix (N.of_nat (length data))) as [p|]; [|apply extends_refl].
  rewrite bind_run. destruct c as [a|]; [|apply extends_refl].
  simpl load_opt. unfold load.
  destruct (clients w !! a) as [cl|] eqn:Hcl; [|apply extends_refl].
  destruct (Client_writer cl) as [out|] eqn:Hout; [|apply extends_refl].
  rewrite bind_run, (modify_run _ _ _ _ _ _ Hcl). simpl.
  apply (extends_set_client a cl); [done | done |].
  intros out' Hout'. exists (p ++ data). simpl. congruence.
Qed.

Lemma only_extends_incrementupdateCounter (c : ptr) :
  only_extends (incrementupdateCounter c).
Proof.
  unfold incrementupdateCounter. apply only_extends_bind.
  - intros w. unfold modify. destruct (clients w !! c) as [cl|] eqn:Hcl; [|apply extends_refl].
    simpl. apply (extends_set_client c cl); [done | done |].
    intros out Hout. exists []. simpl. by rewrite app_nil_r.
  - intros _. apply only_extends_readonly. solve_readonly.
Qed.

Lemma only_extends_sendThings Marshal (c : ptr) : only_extends (sendThings Marshal c).
Proof.
  unfold sendThings.
  apply only_extends_bind; [apply only_extends_readonly, readonly_load|]. intros cl.
  apply only_extends_bind.
  { apply only_extends_readonly, readonly_collect, Thing_Protocol_readonly. }
  intros ts.
  apply only_extends_bind; [apply only_extends_incrementupdateCounter|]. intros counter.
  apply only_extends_send.
Qed.

Section Handlers.

Variable code : Handler → Action → list string → M (option error).

(** The handlers leave the device model and the registered Things as
    they are: they only send. *)
Hypothesis code_only_extends : ∀ h a params, only_extends (code h a params).

Lemma only_extends_invoke (action : ptr) (params : list string) :
  only_extends (invoke code action params).
Proof.
  unfold invoke.
  apply only_extends_bind; [apply only_extends_readonly, readonly_load|]. intros a.
  destruct (Action_Execute a) as [h|]; [|apply only_extends_readonly, readonly_panic].
  intros w. pose proof (code_only_extends h a params w) as H.
  destruct (code h a params w) as [r w1]. simpl in *.
  destruct H as (Htree & Hreg & Hwire & _).
  split; [exact Htree|]. split; [exact Hreg|]. split; [exact Hwire|]. by eexists.
Qed.

Lemma Parameter_deref_readonly param : readonly (Parameter_deref param).
Proof. unfold Parameter_deref. solve_readonly. Qed.

Lemma only_extends_handleAction Marshal (c : ptr) (msg : protocol.ServerMessage_Execute) :
  only_extends (handleAction Marshal code c msg).
Proof.
  unfold handleAction.
  apply only_extends_bind; [apply only_extends_readonly, getThing_readonly|].
  intros [thing|]; [|apply only_extends_readonly, readonly_ret].
  apply only_extends_bind; [apply only_extends_readonly, Thing_GetComponent_readonly|].
  intros [component|]; [|apply only_extends_readonly, readonly_ret].
  apply only_extends_bind.
  { apply only_extends_readonly. unfold Component_GetAction. solve_readonly. }
  intros [action|]; [|apply only_extends_readonly, readonly_ret].
  apply only_extends_bind.
  { apply only_extends_readonly, readonly_collect, Parameter_deref_readonly. }
  intros params. apply only_extends_bind; [apply only_extends_invoke|].
  intros [e|]; (apply only_extends_bind;
    [apply only_extends_send | intros _; apply only_extends_readonly, readonly_ret]).
Qed.

End Handlers.

Lemma only_extends_range_ {A} (l : list A) (body : A → M ()) :
  (∀ x, only_extends (body x)) → only_extends (range_ l body).
Proof.
  intros Hb. induction l as [|x l IH]; simpl; [apply only_extends_readonly, readonly_ret|].
  apply only_extends_bind; [apply Hb | by intros _].
Qed.

Lemma only_extends_Property_Update Marshal (p : ptr) (newValue : string) :
  only_extends (Property_Update Marshal p newValue).
Proof.
  unfold Property_Update.
  apply only_extends_bind; [apply only_extends_readonly, readonly_load|]. intros prop.
  destruct (decide (Value_Value (Property_Value prop) ≠ newValue));
    [|apply only_extends_readonly, readonly_ret].
  apply only_extends_bind; [apply only_extends_readonly, readonly_load_opt|]. intros cap.
  apply only_extends_bind; [apply only_extends_readonly, readonly_load_opt|]. intros comp.
  apply only_extends_bind; [apply only_extends_readonly, readonly_load_opt|]. intros th.
  cbv zeta. apply only_extends_bind; [apply only_extends_send|].
  intros _. apply only_extends_readonly, readonly_ret.
Qed.

(** X21: the dispatch loop itself never changes the device model.
    When the handlers leave every Thing, Component, Capability,
    Property and Action, and every client's list of registered Things,
    as they are, and only append to what a client has written, then so
    does [handleServerMessages], whatever messages arrive and also when
    it panics: beyond what the handlers do, it only appends to what the
    client has written and to the trace of handler invocations. *)
Theorem handleServerMessages_only_extends Marshal code (c : ptr)
    (receiveChan : list protocol.ServerMessage) (w : World) :
  (∀ h a params, only_extends (code h a params)) →
  extends w (handleServerMessages Marshal code c receiveChan w).2.
Proof.
  intros Hcode. revert w.
  change (only_extends (handleServerMessages Marshal code c receiveChan)).
  unfold handleServerMessages. apply only_extends_range_. intros msg.
  apply only_extends_bind.
  - destruct (protocol.GetRequestThings msg);
      [|apply only_extends_readonly, readonly_ret].
    apply only_extends_bind; [apply only_extends_sendThings|].
    intros _. apply only_extends_readonly, readonly_ret.
  - intros _. destruct (protocol.GetAction msg);
      [by apply only_extends_handleAction | apply only_extends_readonly, readonly_ret].
Qed.

(** Handlers that report the current value through [Property.Update]:
    a snapshot request and a request for "explode" on the sample
    client. *)
Lemma handleServerMessages_only_extends_witness :
  extends sample.registered
    (handleServerMessages sample.MarshalClient
       (λ _ _ _, Property_Update sample.MarshalClient 1%positive "on") 1%positive
       [{| protocol.ServerMessage_RequestThings := Some ();
           protocol.ServerMessage_Action := None |};
        {| protocol.ServerMessage_RequestThings := None;
           protocol.ServerMessage_Action :=
             Some (sample.execute "lamp" "main" "explode" [] 9) |}]
       sample.registered).2.
Proof.
  apply handleServerMessages_only_extends.
  intros _ _ _. apply only_extends_Property_Update.
Defined.
